(** * InFact: the dynamic object factory and its typed environment

    A shallow embedding of [src/infact/factory.h] and
    [src/infact/environment-impl.h].  C++ objects that are reached through
    pointers (environments, variable maps, factory-constructed instances)
    live in an explicit store; a pointer is an index into that store and
    [new] appends a cell.  Destructors are not modelled: a cell that the C++
    code deletes simply stays unreachable. *)

From Stdlib Require Import ZArith Ascii String List Lia.
From stdpp Require Import base option list gmap strings fin_maps.

Local Open Scope string_scope.
Local Open Scope Z_scope.

(** ** Outcomes of a call *)

(** [StreamTokenizer::TokenType]. *)
Inductive TokenType :=
| EOF_TYPE | RESERVED_CHAR | RESERVED_WORD | STRING | NUMBER | IDENTIFIER.

(** The arguments of the calls to [Error] in the two headers, one
    constructor per call site, with the values the message prints.  The
    last five are raised by code that is not in the headers (the tokenizer
    and [ReadAndSet]); [OutOfRange] is [std::out_of_range] from
    [string::substr]. *)
Inductive ErrorKind :=
| ExpectedTypeSpecifier (found : TokenType)
| ExpectedOpenParen (pos : nat) (found : string)
| UnknownType (type : string)
| ExpectedIdentifier (pos : nat) (found_type : TokenType) (found : string)
| UnknownMemberName (member type : string) (pos : nat)
| MemberExpectedOpenParen (member : string) (pos : nat) (found : string)
| MemberExpectedCloseParen (member : string) (pos : nat) (found : string)
| MemberExpectedCommaOrCloseParen (member : string) (pos : nat) (found : string)
| ListEndExpectedCloseParen (pos : nat) (found : string)
| RequiredNotFound (member : string) (pos : nat)
| TwoMembersSameName (member : string)
| GetOutOfSync
| GetNoValueOutOfSync (varname : string)
| OutOfRange
| NoMoreTokens
| NoVarMapForType (type : string)
| AlreadyDefined (varname : string)
| TypeDisagrees (varname declared inferred : string)
| CannotParse (varname type : string) (pos : nat).

(** [Fatal] is a call to [Error] (or a C++ exception): evaluation is
    aborted.  [Undefined] is C++ undefined behaviour (a null or
    past-the-end dereference, signed overflow).  [OutOfFuel] belongs to the
    model only: a bounded recursion ran out of steps. *)
Inductive Result (A : Type) :=
| OK (a : A)
| Fatal (e : ErrorKind)
| Undefined (what : string)
| OutOfFuel.
Arguments OK {A} a.
Arguments Fatal {A} e.
Arguments Undefined {A} what.
Arguments OutOfFuel {A}.

Definition is_OK {A} (r : Result A) : bool :=
  match r with OK _ => true | _ => false end.

Definition is_Fatal {A} (r : Result A) : bool :=
  match r with Fatal _ => true | _ => false end.

#[global] Instance TokenType_eq_dec : EqDecision TokenType.
Proof. solve_decision. Defined.

(** ** The token stream *)

(** Modelled from the spec: [StreamTokenizer] (stream-tokenizer.h is not
    part of the sources).  Section 4.1: a stream of tokens with a kind, a
    text and a start offset, with [peek], [peek-kind], [peek-offset],
    [next], [tell] (the byte offset just after the most recent token) and
    [full-source].  A token also records the offset just past itself. *)
Record Token := mkToken {
  tok : string;
  tok_start : nat;
  curr_pos : nat;
  tok_type : TokenType
}.

Record StreamTokenizer := mkStreamTokenizer {
  str_ : string;
  token_ : list Token;
  next_token_idx_ : nat
}.

Definition HasNext (st : StreamTokenizer) : bool :=
  bool_decide (next_token_idx_ st < length (token_ st))%nat.

Definition Peek (st : StreamTokenizer) : string :=
  match token_ st !! next_token_idx_ st with
  | Some t => tok t
  | None => EmptyString
  end.

Definition PeekTokenType (st : StreamTokenizer) : TokenType :=
  match token_ st !! next_token_idx_ st with
  | Some t => tok_type t
  | None => EOF_TYPE
  end.

Definition PeekTokenStart (st : StreamTokenizer) : nat :=
  match token_ st !! next_token_idx_ st with
  | Some t => tok_start t
  | None => String.length (str_ st)
  end.

Definition tellg (st : StreamTokenizer) : nat :=
  match next_token_idx_ st with
  | O => O
  | S i => match token_ st !! i with
           | Some t => curr_pos t
           | None => String.length (str_ st)
           end
  end.

Definition advance (st : StreamTokenizer) : StreamTokenizer :=
  mkStreamTokenizer (str_ st) (token_ st) (S (next_token_idx_ st)).

(** [string::substr(pos, n)]: throws when [pos] is past the end, and stops
    at the end of the string otherwise. *)
Definition substr (s : string) (pos n : nat) : Result string :=
  if bool_decide (String.length s < pos)%nat then Fatal OutOfRange
  else OK (String.substring pos n s).

(** [size_t] arithmetic: [end - start] wraps around modulo 2^64. *)
Definition size_t_sub (a b : nat) : nat :=
  Z.to_nat ((Z.of_nat a - Z.of_nat b) mod 2 ^ 64).

(** ** Type names *)

(** The C++ types a data member, a variable map or an output slot can
    have.  [TObject base] is a Factory-constructible abstract class [T],
    identified by the string [IMPLEMENT_FACTORY(T)] stores in
    [Factory<T>::base_name_]. *)
Inductive cpp_type :=
| TBool | TInt | TDouble | TString
| TObject (base : string)
| TSharedPtr (t : cpp_type)
| TVector (t : cpp_type).

#[global] Instance cpp_type_eq_dec : EqDecision cpp_type.
Proof. solve_decision. Defined.

(** [Factory<T>().BaseName()]. *)
Definition BaseName_of (base : string) : string := base.

(** [TypeName<T>().ToString()]: the primary template and its six
    specializations. *)
Fixpoint TypeName (t : cpp_type) : string :=
  match t with
  | TBool => "bool"
  | TInt => "int"
  | TDouble => "double"
  | TString => "string"
  | TObject base => BaseName_of base
  | TSharedPtr t' => TypeName t'
  | TVector t' => TypeName t' ++ "[]"
  end.

(** ** Values and the store *)

(** A value of one of the C++ types above.  A [shared_ptr<T>] is a pointer
    into the object store, [None] being the null pointer.  A [double] is
    kept as the text of its literal. *)
#[warnings="-register-all"]
Inductive value :=
| VBool (b : bool)
| VInt (z : Z)
| VDouble (literal : string)
| VString (s : string)
| VPtr (p : option nat)
| VVector (vs : list value).

(** Modelled from the spec: [VarMap<T>] (environment.h is not part of the
    sources).  Section 3: a type-specialized map from variable names to
    typed values; [vm_type] is the [T] of [VarMap<T>], which is what a
    [dynamic_cast<VarMap<T> *>] inspects.  The other fields are the
    constructor arguments seen in [Factory<T>::CreateVarMap]. *)
Record VarMap := mkVarMap {
  vm_type : cpp_type;
  vm_name : string;
  vm_element_typename : option string;
  vm_env : nat;
  vm_is_primitive : bool;
  vars_ : gmap string value
}.

(** The data members of [EnvironmentImpl]; [var_map_] holds pointers. *)
Record EnvironmentImpl := mkEnvironmentImpl {
  types_ : gmap string string;
  var_map_ : gmap string nat;
  concrete_to_factory_type_ : gmap string string;
  debug_ : Z
}.

(** A Factory-constructible instance: the name of its concrete class, its
    registered data members by name, and the calls of its [PostInit]
    received so far (environment pointer and [init_str]), oldest first. *)
Record Instance := mkInstance {
  concrete : string;
  members : gmap string value;
  post_init_calls : list (nat * string)
}.

(** The store and the token stream a call works on. *)
Record State := mkState {
  envs : list EnvironmentImpl;
  varmaps : list VarMap;
  objects : list Instance;
  st : StreamTokenizer
}.

(** ** A state and error monad *)

Definition M (A : Type) : Type := State -> Result (A * State).

Definition ret {A} (a : A) : M A := fun s => OK (a, s).

Definition bind {A B} (m : M A) (k : A -> M B) : M B :=
  fun s => match m s with
           | OK (a, s') => k a s'
           | Fatal e => Fatal e
           | Undefined w => Undefined w
           | OutOfFuel => OutOfFuel
           end.

Definition Error {A} (e : ErrorKind) : M A := fun _ => Fatal e.
Definition undefined {A} (w : string) : M A := fun _ => Undefined w.
Definition out_of_fuel {A} : M A := fun _ => OutOfFuel.
Definition get_state : M State := fun s => OK (s, s).
Definition put_state (s : State) : M unit := fun _ => OK (tt, s).
Definition lift {A} (r : Result A) : M A :=
  fun s => match r with
           | OK a => OK (a, s)
           | Fatal e => Fatal e
           | Undefined w => Undefined w
           | OutOfFuel => OutOfFuel
           end.

Declare Scope m_scope.
Delimit Scope m_scope with M.
Notation "x <- m ;; k" := (bind m (fun x => k))
  (at level 100, m at next level, right associativity) : m_scope.
Notation "m ;;; k" := (bind m (fun _ => k))
  (at level 100, right associativity) : m_scope.
Notation "'when' c 'fail' e ;; k" := (if c then Error e else k)
  (at level 100, c at next level, e at next level, right associativity)
  : m_scope.
Local Open Scope m_scope.

(** The tokenizer calls, on the stream of the state. *)
Definition st_Peek : M string := fun s => OK (Peek (st s), s).
Definition st_PeekTokenType : M TokenType :=
  fun s => OK (PeekTokenType (st s), s).
Definition st_PeekTokenStart : M nat := fun s => OK (PeekTokenStart (st s), s).
Definition st_tellg : M nat := fun s => OK (tellg (st s), s).
Definition st_str : M string := fun s => OK (str_ (st s), s).

Definition with_st (s : State) (t : StreamTokenizer) : State :=
  mkState (envs s) (varmaps s) (objects s) t.

Definition st_Next : M string :=
  fun s => match token_ (st s) !! next_token_idx_ (st s) with
           | Some t => OK (tok t, with_st s (advance (st s)))
           | None => Fatal NoMoreTokens
           end.

(** Pointer dereferences. *)
Definition deref_env (p : nat) : M EnvironmentImpl :=
  fun s => match envs s !! p with
           | Some e => OK (e, s)
           | None => Undefined "dangling Environment pointer"
           end.

Definition deref_varmap (p : nat) : M VarMap :=
  fun s => match varmaps s !! p with
           | Some m => OK (m, s)
           | None => Undefined "dangling VarMap pointer"
           end.

Definition store_env (p : nat) (e : EnvironmentImpl) : M unit :=
  fun s => OK (tt, mkState (<[p := e]> (envs s)) (varmaps s) (objects s) (st s)).

Definition store_varmap (p : nat) (m : VarMap) : M unit :=
  fun s => OK (tt, mkState (envs s) (<[p := m]> (varmaps s)) (objects s) (st s)).

Definition new_env (e : EnvironmentImpl) : M nat :=
  fun s => OK (length (envs s),
               mkState (envs s ++ [e]) (varmaps s) (objects s) (st s)).

Definition new_varmap (m : VarMap) : M nat :=
  fun s => OK (length (varmaps s),
               mkState (envs s) (varmaps s ++ [m]) (objects s) (st s)).

Definition new_object (o : Instance) : M nat :=
  fun s => OK (length (objects s),
               mkState (envs s) (varmaps s) (objects s ++ [o]) (st s)).

(** ** environment-impl.h *)

(** [EnvironmentImpl::Defined]. *)
Definition Defined (this : EnvironmentImpl) (varname : string) : bool :=
  bool_decide (is_Some (types_ this !! varname)).

(** [EnvironmentImpl::GetType].  When the name is not found the body of the
    [if] is empty and the function goes on to dereference the past-the-end
    iterator. *)
Definition GetType (this : EnvironmentImpl) (varname : string) : Result string :=
  match types_ this !! varname with
  | None => Undefined "dereference of types_.end()"
  | Some type => OK type
  end.

(** [EnvironmentImpl::GetVarMapForType]; [None] is [nullptr]. *)
Definition GetVarMapForType (this : EnvironmentImpl) (type : string) : option nat :=
  let lookup_type :=
    match concrete_to_factory_type_ this !! type with
    | Some factory_type => factory_type
    | None => type
    end in
  var_map_ this !! lookup_type.

(** [EnvironmentImpl::GetVarMap]. *)
Definition GetVarMap (this : EnvironmentImpl) (varname : string) : Result (option nat) :=
  match GetType this varname with
  | OK type => OK (GetVarMapForType this type)
  | Fatal e => Fatal e
  | Undefined w => Undefined w
  | OutOfFuel => OutOfFuel
  end.

(** Modelled from the spec: [VarMap<T>::Copy(env)] (environment.h is not
    part of the sources).  Section 4.3: the copy of a per-type map shares
    no mutable state with the original; it belongs to the new
    environment. *)
Definition VarMap_Copy (m : VarMap) (new_env : nat) : VarMap :=
  mkVarMap (vm_type m) (vm_name m) (vm_element_typename m) new_env
           (vm_is_primitive m) (vars_ m).

(** The loop of [EnvironmentImpl::Copy] over the entries of
    [new_env->var_map_]: each pointer is replaced by a pointer to a fresh
    copy of the map it pointed to. *)
Fixpoint copy_var_maps (new_env_ptr : nat) (entries : list (string * nat))
    (table : gmap string nat) : M (gmap string nat) :=
  match entries with
  | [] => ret table
  | (type, p) :: rest =>
      m <- deref_varmap p ;;
      q <- new_varmap (VarMap_Copy m new_env_ptr) ;;
      copy_var_maps new_env_ptr rest (<[type := q]> table)
  end.

(** [EnvironmentImpl::Copy]. *)
Definition Copy (this : nat) : M nat :=
  e <- deref_env this ;;
  new_env_ptr <- new_env e ;;
  table <- copy_var_maps new_env_ptr (map_to_list (var_map_ e)) (var_map_ e) ;;
  store_env new_env_ptr
    (mkEnvironmentImpl (types_ e) table (concrete_to_factory_type_ e) (debug_ e)) ;;;
  ret new_env_ptr.

(** The lines [EnvironmentImpl::Get] writes to [cerr]. *)
Inductive Diagnostic :=
| NoValueForVariable (varname : string)
| NoValueOfType (varname : string) (slot_type : cpp_type) (perhaps : string).

(** [EnvironmentImpl::Get<T>], a [const] method: it returns the lines
    written to [cerr], and either a fatal error or the returned flag with
    the value written into [*value], if any.  [VarMap<T>::Get] (not part of
    the sources) is the lookup in [vars_]. *)
Definition Get (s : State) (this : EnvironmentImpl) (T : cpp_type)
    (varname : string) : list Diagnostic * Result (bool * option value) :=
  match types_ this !! varname with
  | None =>
      ((if bool_decide (1 <= debug_ this) then [NoValueForVariable varname]
        else []),
       OK (false, None))
  | Some type =>
      match var_map_ this !! type with
      | None => ([], Fatal GetOutOfSync)
      | Some p =>
          match varmaps s !! p with
          | None => ([], Undefined "dangling VarMap pointer")
          | Some var_map =>
              if bool_decide (vm_type var_map = T) then
                match vars_ var_map !! varname with
                | Some v => ([], OK (true, Some v))
                | None => ([], Fatal (GetNoValueOutOfSync varname))
                end
              else ([NoValueOfType varname T type], OK (false, None))
          end
      end
  end.

(** ** factory.h *)

(** [MemberInitializer] with the members of [TypedMemberInitializer<T>]:
    [member_type] is [T], and [member_] points to a data member of an
    object in the store ([None] is [nullptr]). *)
Record MemberInitializer := mkMemberInitializer {
  name_ : string;
  initialized_ : Z;
  required_ : bool;
  member_type : cpp_type;
  member_ : option (nat * string)
}.

Definition Name (mi : MemberInitializer) : string := name_ mi.
Definition Initialized (mi : MemberInitializer) : Z := initialized_ mi.
Definition Required (mi : MemberInitializer) : bool := required_ mi.

Definition INT_MAX : Z := 2 ^ 31 - 1.

(** The initializer after one more initialization was counted. *)
Definition counted (mi : MemberInitializer) : MemberInitializer :=
  mkMemberInitializer (name_ mi) (initialized_ mi + 1) (required_ mi)
                      (member_type mi) (member_ mi).

(** [++initialized_] on an [int]. *)
Definition incr_initialized (mi : MemberInitializer) : M MemberInitializer :=
  if bool_decide (initialized_ mi < INT_MAX) then ret (counted mi)
  else undefined "signed overflow of initialized_".

(** One call [initializers.Add(name, member, required)] made by a class in
    its [RegisterInitializers]; [add_member] names the data member whose
    address is passed, [None] for [static_cast<T *>(nullptr)]. *)
Record AddCall := mkAddCall {
  add_name : string;
  add_type : cpp_type;
  add_member : option string;
  add_required : bool
}.

(** [Initializers::Add], on the object at [instance]. *)
Definition Add (instance : nat) (a : AddCall)
    (initializers_ : gmap string MemberInitializer)
    : Result (gmap string MemberInitializer) :=
  match initializers_ !! add_name a with
  | Some _ => Fatal (TwoMembersSameName (add_name a))
  | None =>
      OK (<[add_name a :=
              mkMemberInitializer (add_name a) 0 (add_required a) (add_type a)
                ((fun member => (instance, member)) <$> add_member a)]>
            initializers_)
  end.

(** A [Constructor<T>] for a concrete class [TYPE]: the name [TYPE] is
    registered under, the data members of the object [new TYPE()] builds,
    and the calls the virtual [RegisterInitializers] of that object
    makes. *)
Record Constructor := mkConstructor {
  cons_type : string;
  cons_members : gmap string value;
  RegisterInitializers : list AddCall
}.

(** [Constructor<T>::NewInstance]: a fresh object, whose [PostInit] has
    not been called. *)
Definition NewInstance (c : Constructor) : Instance :=
  mkInstance (cons_type c) (cons_members c) [].

(** [instance->RegisterInitializers(initializers)]. *)
Fixpoint run_RegisterInitializers (instance : nat) (calls : list AddCall)
    (initializers_ : gmap string MemberInitializer)
    : Result (gmap string MemberInitializer) :=
  match calls with
  | [] => OK initializers_
  | a :: rest =>
      match Add instance a initializers_ with
      | OK initializers_' => run_RegisterInitializers instance rest initializers_'
      | Fatal e => Fatal e
      | Undefined w => Undefined w
      | OutOfFuel => OutOfFuel
      end
  end.

(** The initializer that [Initializers::Add] stores for one call:
    [new TypedMemberInitializer<T>(name, member, required)], with a count
    of zero. *)
Definition new_initializer (instance : nat) (a : AddCall) : MemberInitializer :=
  mkMemberInitializer (add_name a) 0 (add_required a) (add_type a)
    ((fun member => (instance, member)) <$> add_member a).

(** The static data members of [Factory<T>]; [cons_table_] is a pointer,
    null until the first registration. *)
Record Factory := mkFactory {
  base_name_ : string;
  f_initialized_ : Z;
  cons_table_ : option (gmap string Constructor)
}.

Definition BaseName (f : Factory) : string := base_name_ f.

(** The static data members of [FactoryContainer]; a factory object is
    known by its base name. *)
Record FactoryContainer := mkFactoryContainer {
  fc_initialized_ : Z;
  factories_ : list string
}.

(** [FactoryContainer::Add]. *)
Definition FactoryContainer_Add (c : FactoryContainer) (factory : string)
    : FactoryContainer :=
  let fs := if bool_decide (fc_initialized_ c = 0) then [] else factories_ c in
  mkFactoryContainer (if bool_decide (fc_initialized_ c = 0) then 1
                      else fc_initialized_ c)
                     (fs ++ [factory]).

(** What a call of [Factory<T>::Register] leaves behind: the returned
    constructor, the static data of the factory and of the container, and
    the constructor that was deleted, if any. *)
Record Registered := mkRegistered {
  reg_returned : Constructor;
  reg_factory : Factory;
  reg_container : FactoryContainer;
  reg_deleted : option Constructor
}.

(** [Factory<T>::Register]. *)
Definition Register (f : Factory) (c : FactoryContainer) (type : string)
    (p : Constructor) : Result Registered :=
  let '(f1, c1) :=
    if bool_decide (f_initialized_ f = 0) then
      (mkFactory (base_name_ f) 1 (Some ∅), FactoryContainer_Add c (BaseName f))
    else (f, c) in
  match cons_table_ f1 with
  | None => Undefined "null cons_table_"
  | Some table =>
      match table !! type with
      | None =>
          OK (mkRegistered p
                (mkFactory (base_name_ f1) (f_initialized_ f1)
                           (Some (<[type := p]> table)))
                c1 None)
      | Some existing => OK (mkRegistered existing f1 c1 (Some p))
      end
  end.

(** [Factory<T>::IsRegistered]. *)
Definition IsRegistered (f : Factory) (type : string) : Result bool :=
  if bool_decide (f_initialized_ f = 0) then OK false
  else match cons_table_ f with
       | None => Undefined "null cons_table_"
       | Some table => OK (bool_decide (is_Some (table !! type)))
       end.

(** [Factory<T>::CollectRegistered]: the names of the registered types are
    added to the set [registered]. *)
Definition CollectRegistered (f : Factory) (registered : gset string)
    : Result (gset string) :=
  if bool_decide (f_initialized_ f = 0) then OK registered
  else match cons_table_ f with
       | None => Undefined "null cons_table_"
       | Some table => OK (registered ∪ dom table)
       end.

(** The static initializers that a sequence of [REGISTER_NAMED(TYPE, NAME,
    BASE)] lines of one base class expands to, in the order they run: one
    call of [Factory<BASE>::Register] each. *)
Fixpoint REGISTER_NAMED_all (f : Factory) (c : FactoryContainer)
    (registrations : list (string * Constructor))
    : Result (Factory * FactoryContainer) :=
  match registrations with
  | [] => OK (f, c)
  | (name, p) :: rest =>
      match Register f c name p with
      | OK r => REGISTER_NAMED_all (reg_factory r) (reg_container r) rest
      | Fatal e => Fatal e
      | Undefined w => Undefined w
      | OutOfFuel => OutOfFuel
      end
  end.

(** [Factory<T>::CreateVarMap] and [Factory<T>::CreateVectorVarMap]. *)
Definition CreateVarMap (f : Factory) (env : nat) : VarMap :=
  mkVarMap (TSharedPtr (TObject (base_name_ f))) (BaseName f) None env false ∅.

Definition CreateVectorVarMap (f : Factory) (env : nat) : VarMap :=
  mkVarMap (TVector (TSharedPtr (TObject (base_name_ f))))
           (BaseName f ++ "[]") (Some (BaseName f)) env false ∅.

(** [*member_ = v] for a member pointer into the object store. *)
Definition write_member (member : nat * string) (v : value) : M unit :=
  fun s => match objects s !! member.1 with
           | Some o =>
               OK (tt, mkState (envs s) (varmaps s)
                         (<[member.1 := mkInstance (concrete o)
                                          (<[member.2 := v]> (members o))
                                          (post_init_calls o)]> (objects s))
                         (st s))
           | None => Undefined "dangling member pointer"
           end.

(** Modelled from the spec: [VarMap<T>::Get(varname, value)] (environment.h
    is not part of the sources): the typed read of section 4.3 on one
    per-type map, which writes [*value] iff the name is in the map. *)
Definition VarMap_Get (p : nat) (varname : string) (member : nat * string)
    : M bool :=
  m <- deref_varmap p ;;
  match vars_ m !! varname with
  | Some v => write_member member v ;;; ret true
  | None => ret false
  end.

(** [dynamic_cast<VarMap<T> *>(var_map)]. *)
Definition dynamic_cast (T : cpp_type) (var_map : option nat) : M (option nat) :=
  match var_map with
  | None => ret None
  | Some p =>
      m <- deref_varmap p ;;
      ret (if bool_decide (vm_type m = T) then Some p else None)
  end.

(** [instance->PostInit(env, init_str)].  [PostInit] is a virtual method;
    its body in [FactoryConstructible] is empty, and the environment is
    passed as a pointer to [const].  The model is this method, with the
    call recorded in the instance.  A host class may override it to
    complete the object: that code is not part of the headers, and the
    properties of an object after the call are stated for the recorded
    call only. *)
Definition PostInit (instance env : nat) (init_str : string) : M unit :=
  fun s => match objects s !! instance with
           | Some o =>
               OK (tt, mkState (envs s) (varmaps s)
                         (<[instance := mkInstance (concrete o) (members o)
                                          (post_init_calls o ++ [(env, init_str)])]>
                            (objects s))
                         (st s))
           | None => Undefined "dangling instance pointer"
           end.

Section CreateOrDie.

(** The two virtual methods of the abstract [Environment] that
    [factory.h] calls and that are implemented outside the headers:
    [env->ReadAndSet(varname, st, type)] and the static
    [Environment::CreateEmpty()]. *)
Variable ReadAndSet : nat -> string -> string -> M unit.
Variable CreateEmpty : M nat.

(** [TypedMemberInitializer<T>::Init]. *)
Definition Init (mi : MemberInitializer) (env : nat) : M MemberInitializer :=
  ReadAndSet env (Name mi) (TypeName (member_type mi)) ;;;
  match member_ mi with
  | Some member =>
      e <- deref_env env ;;
      var_map <- lift (GetVarMap e (Name mi)) ;;
      typed_var_map <- dynamic_cast (member_type mi) var_map ;;
      match typed_var_map with
      | Some p =>
          success <- VarMap_Get p (Name mi) member ;;
          if success : bool then incr_initialized mi else ret mi
      | None => ret mi
      end
  | None => incr_initialized mi
  end.

(** The body of the [while] loop of [CreateOrDie]: one
    [member_name '(' ... ')'] with its optional comma. *)
Definition member_init (type : string) (env_ptr : nat)
    (initializers : gmap string MemberInitializer)
    : M (gmap string MemberInitializer) :=
  token_type <- st_PeekTokenType ;;
  pos <- st_PeekTokenStart ;;
  tok0 <- st_Peek ;;
  when bool_decide (token_type ≠ IDENTIFIER)
    fail ExpectedIdentifier pos token_type tok0 ;;
  member_name_start <- st_PeekTokenStart ;;
  member_name <- st_Next ;;
  match initializers !! member_name with
  | None => Error (UnknownMemberName member_name type member_name_start)
  | Some member_initializer =>
      tok1 <- st_Peek ;;
      pos1 <- st_PeekTokenStart ;;
      when bool_decide (tok1 ≠ "(")
        fail MemberExpectedOpenParen member_name pos1 tok1 ;;
      st_Next ;;;
      member_initializer' <- Init member_initializer env_ptr ;;
      tok2 <- st_Peek ;;
      pos2 <- st_PeekTokenStart ;;
      when bool_decide (tok2 ≠ ")")
        fail MemberExpectedCloseParen member_name pos2 tok2 ;;
      st_Next ;;;
      tok3 <- st_Peek ;;
      pos3 <- st_PeekTokenStart ;;
      when bool_decide (tok3 ≠ ",") && bool_decide (tok3 ≠ ")")
        fail MemberExpectedCommaOrCloseParen member_name pos3 tok3 ;;
      (if bool_decide (tok3 = ",") then st_Next ;;; ret tt else ret tt) ;;;
      ret (<[member_name := member_initializer']> initializers)
  end.

(** The [while (st.Peek() != ")")] loop. *)
Fixpoint member_init_list (fuel : nat) (type : string) (env_ptr : nat)
    (initializers : gmap string MemberInitializer)
    : M (gmap string MemberInitializer) :=
  tok <- st_Peek ;;
  if bool_decide (tok = ")") then ret initializers
  else match fuel with
       | O => out_of_fuel
       | S fuel' =>
           initializers' <- member_init type env_ptr initializers ;;
           member_init_list fuel' type env_ptr initializers'
       end.

(** The [for] loop that runs through all member initializers.  The
    order in which an [unordered_map] is run through is not fixed by the
    language; the loop is given the entries in a list, and the properties
    below do not say which of several missing members is reported. *)
Fixpoint check_required (entries : list (string * MemberInitializer))
    : M unit :=
  match entries with
  | [] => ret tt
  | (name, member_initializer) :: rest =>
      if Required member_initializer
         && bool_decide (Initialized member_initializer = 0)
      then pos <- st_tellg ;; Error (RequiredNotFound name pos)
      else check_required rest
  end.

(** The number of iterations the loop is given: one more than the number
    of unread tokens (an iteration reads at least the member name). *)
Definition unread (t : StreamTokenizer) : nat :=
  (length (token_ t) - next_token_idx_ t)%nat.

(** The local variables of [CreateOrDie] that are live across the
    loop. *)
Record Locals := mkLocals {
  env_ptr : nat;
  start : nat;
  type : string;
  instance : nat
}.

(** [CreateOrDie] from its first statement to the call of
    [RegisterInitializers]; [None] is the early [return shared_ptr<T>()]
    on [nullptr] or [NULL]. *)
Definition CreateOrDie_begin (f : Factory) (env : option nat)
    : M (option (Locals * gmap string MemberInitializer)) :=
  env_ptr <- match env with
             | None => CreateEmpty
             | Some e => Copy e
             end ;;
  start <- st_PeekTokenStart ;;
  token_type <- st_PeekTokenType ;;
  tok0 <- st_Peek ;;
  if bool_decide (token_type = RESERVED_WORD)
     && (bool_decide (tok0 = "nullptr") || bool_decide (tok0 = "NULL"))
  then st_Next ;;; ret None
  else
  when bool_decide (token_type ≠ IDENTIFIER)
    fail ExpectedTypeSpecifier token_type ;;
  type <- st_Next ;;
  tok1 <- st_Peek ;;
  pos1 <- st_PeekTokenStart ;;
  when bool_decide (tok1 ≠ "(") fail ExpectedOpenParen pos1 tok1 ;;
  st_Next ;;;
  match cons_table_ f with
  | None => undefined "null cons_table_"
  | Some table =>
      match table !! type with
      | None => Error (UnknownType type)
      | Some cons_it =>
          instance <- new_object (NewInstance cons_it) ;;
          initializers <-
            lift (run_RegisterInitializers instance
                    (RegisterInitializers cons_it) ∅) ;;
          ret (Some (mkLocals env_ptr start type instance, initializers))
      end
  end.

(** [CreateOrDie] after the loop: the closing parenthesis, the check of
    the required members, and [PostInit]. *)
Definition CreateOrDie_end (l : Locals)
    (initializers : gmap string MemberInitializer) : M (option nat) :=
  tok2 <- st_Peek ;;
  pos2 <- st_PeekTokenStart ;;
  when bool_decide (tok2 ≠ ")")
    fail ListEndExpectedCloseParen pos2 tok2 ;;
  st_Next ;;;
  check_required (map_to_list initializers) ;;;
  end_ <- st_tellg ;;
  stream_str <- st_str ;;
  init_str <- lift (substr stream_str (start l) (size_t_sub end_ (start l))) ;;
  PostInit (instance l) (env_ptr l) init_str ;;;
  ret (Some (instance l)).

(** [Factory<T>::CreateOrDie(StreamTokenizer &st, Environment *env)]; the
    result [None] is the null [shared_ptr<T>]. *)
Definition CreateOrDie (f : Factory) (env : option nat) : M (option nat) :=
  b <- CreateOrDie_begin f env ;;
  match b with
  | None => ret None
  | Some (l, initializers) =>
      s <- get_state ;;
      initializers' <-
        member_init_list (S (unread (st s))) (type l) (env_ptr l)
                         initializers ;;
      CreateOrDie_end l initializers'
  end.

End CreateOrDie.

(** ** The parts of the repository outside the two headers *)

(** *** Scanning a script into tokens *)

Module Lexer.

Definition code (c : ascii) : nat := nat_of_ascii c.
Definition is_digit (c : ascii) : bool :=
  (48 <=? code c)%nat && (code c <=? 57)%nat.
Definition is_alpha (c : ascii) : bool :=
  ((65 <=? code c)%nat && (code c <=? 90)%nat)
  || ((97 <=? code c)%nat && (code c <=? 122)%nat)
  || (code c =? 95)%nat.
Definition is_space (c : ascii) : bool :=
  (code c =? 32)%nat || (code c =? 9)%nat || (code c =? 10)%nat
  || (code c =? 13)%nat.
Definition is_punct (c : ascii) : bool :=
  existsb (fun n => (code c =? n)%nat) [61; 40; 41; 44; 59; 123; 125; 91; 93]%nat.
Definition is_number_char (c : ascii) : bool :=
  is_digit c || existsb (fun n => (code c =? n)%nat) [46; 101; 69; 45; 43]%nat.
Definition dquote : ascii := ascii_of_nat 34.
Definition backslash : ascii := ascii_of_nat 92.

Fixpoint span (p : ascii -> bool) (cs : list ascii)
    : list ascii * list ascii :=
  match cs with
  | c :: rest =>
      if p c then let '(a, b) := span p rest in (c :: a, b) else ([], cs)
  | [] => ([], [])
  end.

(** The body of a string literal, after its opening quote: the content,
    the number of characters read including the closing quote, and the
    rest of the input.  Only an escaped quote and an escaped backslash
    are recognized. *)
Fixpoint string_body (cs : list ascii)
    : option (list ascii * nat * list ascii) :=
  match cs with
  | [] => None
  | c :: rest =>
      if bool_decide (c = dquote) then Some ([], 1%nat, rest)
      else if bool_decide (c = backslash) then
        match rest with
        | d :: rest' =>
            if bool_decide (d = dquote) || bool_decide (d = backslash) then
              '(body, n, r) ← string_body rest' ; Some (d :: body, S (S n), r)
            else
              '(body, n, r) ← string_body rest ; Some (c :: body, S n, r)
        | [] => None
        end
      else '(body, n, r) ← string_body rest ; Some (c :: body, S n, r)
  end.

Definition reserved_word (w : string) : bool :=
  bool_decide (w = "true") || bool_decide (w = "false")
  || bool_decide (w = "nullptr") || bool_decide (w = "NULL").

Definition word_token (w : list ascii) (pos : nat) : Token :=
  let text := string_of_list_ascii w in
  mkToken text pos (pos + length w)
          (if reserved_word text then RESERVED_WORD else IDENTIFIER).

Fixpoint lex (fuel pos : nat) (cs : list ascii) : option (list Token) :=
  match fuel, cs with
  | _, [] => Some []
  | O, _ => None
  | S fuel', c :: rest =>
      if is_space c then lex fuel' (S pos) rest
      else if (code c =? 47)%nat
              && match rest with d :: _ => (code d =? 47)%nat | [] => false end
      then let '(cmt, rest') := span (fun d => negb (code d =? 10)%nat) cs in
           lex fuel' (pos + length cmt)%nat rest'
      else if bool_decide (c = dquote) then
        '(body, n, rest') ← string_body rest ;
        ts ← lex fuel' (pos + 1 + n)%nat rest' ;
        Some (mkToken (string_of_list_ascii body) pos (pos + 1 + n) STRING :: ts)
      else if is_punct c then
        ts ← lex fuel' (S pos) rest ;
        Some (mkToken (string_of_list_ascii [c]) pos (S pos) RESERVED_CHAR :: ts)
      else if is_digit c || (code c =? 45)%nat || (code c =? 46)%nat then
        let '(w, rest') := span is_number_char rest in
        ts ← lex fuel' (pos + S (length w))%nat rest' ;
        Some (mkToken (string_of_list_ascii (c :: w)) pos (pos + S (length w))
                      NUMBER :: ts)
      else if is_alpha c then
        let '(w, rest') := span (fun d => is_alpha d || is_digit d) rest in
        ts ← lex fuel' (pos + S (length w))%nat rest' ;
        Some (word_token (c :: w) pos :: ts)
      else None
  end.

(** Modelled from the spec: the constructor [StreamTokenizer(const
    string &)] (stream-tokenizer.h is not part of the sources).  Sections
    4.1 and 6: identifiers, the four reserved words, double-quoted
    strings, numbers, the punctuation [= ( ) , ; { } [ ]]; white space
    and [//] comments are skipped; offsets are byte offsets. *)
Definition tokenize (src : string) : option StreamTokenizer :=
  ts ← lex (S (String.length src)) 0 (list_ascii_of_string src) ;
  Some (mkStreamTokenizer src ts 0).

End Lexer.

(** *** Reading a value *)

Definition digit_value (c : ascii) : option Z :=
  if Lexer.is_digit c then Some (Z.of_nat (nat_of_ascii c) - 48) else None.

Fixpoint parse_digits (acc : Z) (cs : list ascii) : option Z :=
  match cs with
  | [] => Some acc
  | c :: rest => d ← digit_value c ; parse_digits (10 * acc + d) rest
  end.

(** The text of a [NUMBER] token as an integer, when it is one. *)
Definition parse_int (text : string) : option Z :=
  match list_ascii_of_string text with
  | [] => None
  | c :: rest =>
      if (nat_of_ascii c =? 45)%nat then
        match rest with [] => None | _ => Z.opp <$> parse_digits 0 rest end
      else parse_digits 0 (c :: rest)
  end.

Definition is_decimal_text (text : string) : bool :=
  existsb (fun c => existsb (fun n => (nat_of_ascii c =? n)%nat) [46; 101; 69]%nat)
          (list_ascii_of_string text).

Definition peek_at (t : StreamTokenizer) (ahead : nat) : option Token :=
  token_ t !! (next_token_idx_ t + ahead)%nat.

Definition tok_is (t : option Token) (text : string) : bool :=
  match t with Some t => bool_decide (tok t = text) | None => false end.

(** Modelled from the spec: [EnvironmentImpl::InferType]
    (environment-impl.cc is not part of the sources), the table of section
    4.4 on the token [t] and the token [next] after it; the empty string
    means that no tag can be inferred. *)
Definition infer_at (this : EnvironmentImpl) (t next : option Token) : string :=
  match t with
  | None => EmptyString
  | Some t =>
      match tok_type t with
      | RESERVED_WORD =>
          if bool_decide (tok t = "true") || bool_decide (tok t = "false")
          then "bool" else EmptyString
      | NUMBER => if is_decimal_text (tok t) then "double" else "int"
      | STRING => "string"
      | IDENTIFIER =>
          if tok_is next "(" then
            default EmptyString (concrete_to_factory_type_ this !! tok t)
          else default EmptyString (types_ this !! tok t)
      | _ => EmptyString
      end
  end.

Definition InferType (this : EnvironmentImpl) (t : StreamTokenizer) : string :=
  if tok_is (peek_at t 0) "{" then
    let element := infer_at this (peek_at t 1) (peek_at t 2) in
    if bool_decide (element = EmptyString) then EmptyString else element ++ "[]"
  else infer_at this (peek_at t 0) (peek_at t 1).

Section ReadAndSet.

(** [Factory<T>().CreateOrDie(st, env)] for the abstract type with the
    given base name. *)
Variable create : string -> nat -> M (option nat).

(** Modelled from the spec: the value decoder of section 4.4 for one
    value that is not a vector ([VarMap<T>::ReadAndSet] in environment.h,
    which is not part of the sources): a reference to a defined variable
    of the target type, a literal of a primitive type, or an object
    specification handed to the factory of its abstract type. *)
Definition read_scalar (env : nat) (varname : string) (T : cpp_type)
    : M value :=
  e <- deref_env env ;;
  s <- get_state ;;
  let token_type := PeekTokenType (st s) in
  let text := Peek (st s) in
  let pos := PeekTokenStart (st s) in
  if bool_decide (token_type = IDENTIFIER)
     && negb (tok_is (peek_at (st s) 1) "(") && Defined e text
  then
    match (Get s e T text).2 with
    | OK (true, Some v) => st_Next ;;; ret v
    | _ => Error (CannotParse varname (TypeName T) pos)
    end
  else
    match T with
    | TBool =>
        if bool_decide (token_type = RESERVED_WORD)
           && (bool_decide (text = "true") || bool_decide (text = "false"))
        then st_Next ;;; ret (VBool (bool_decide (text = "true")))
        else Error (CannotParse varname "bool" pos)
    | TInt =>
        match (if bool_decide (token_type = NUMBER) then parse_int text
               else None) with
        | Some z => st_Next ;;; ret (VInt z)
        | None => Error (CannotParse varname "int" pos)
        end
    | TDouble =>
        if bool_decide (token_type = NUMBER)
        then st_Next ;;; ret (VDouble text)
        else Error (CannotParse varname "double" pos)
    | TString =>
        if bool_decide (token_type = STRING)
        then st_Next ;;; ret (VString text)
        else Error (CannotParse varname "string" pos)
    | TSharedPtr (TObject base) => p <- create base env ;; ret (VPtr p)
    | _ => Error (CannotParse varname (TypeName T) pos)
    end.

(** The elements of a vector after its opening brace, up to and
    including the closing brace; a trailing comma is allowed. *)
Fixpoint read_elements (fuel : nat) (env : nat) (varname : string)
    (T : cpp_type) : M (list value) :=
  tok0 <- st_Peek ;;
  if bool_decide (tok0 = "}") then st_Next ;;; ret []
  else match fuel with
       | O => out_of_fuel
       | S fuel' =>
           v <- read_scalar env varname T ;;
           tok1 <- st_Peek ;;
           pos <- st_PeekTokenStart ;;
           if bool_decide (tok1 = ",") then
             st_Next ;;;
             vs <- read_elements fuel' env varname T ;;
             ret (v :: vs)
           else if bool_decide (tok1 = "}") then st_Next ;;; ret [v]
           else Error (CannotParse varname (TypeName T ++ "[]") pos)
       end.

Definition read_value (env : nat) (varname : string) (T : cpp_type)
    : M value :=
  match T with
  | TVector T' =>
      tok0 <- st_Peek ;;
      pos <- st_PeekTokenStart ;;
      when bool_decide (tok0 ≠ "{")
        fail CannotParse varname (TypeName T) pos ;;
      st_Next ;;;
      s <- get_state ;;
      vs <- read_elements (S (length (token_ (st s)) - next_token_idx_ (st s)))
                          env varname T' ;;
      ret (VVector vs)
  | _ => read_scalar env varname T
  end.

(** Modelled from the spec: [EnvironmentImpl::ReadAndSet]
    (environment-impl.cc is not part of the sources).  Section 4.3:
    parses the next value as the declared type tag and records the name,
    its tag and the value; fails if the name already exists, if type
    inference disagrees with the declared tag, or if the parse fails.
    The per-type map is found with [GetVarMapForType], and the tag that
    is recorded is the one the map is stored under. *)
Definition ReadAndSet_impl (this : nat) (varname type : string) : M unit :=
  e <- deref_env this ;;
  when Defined e varname fail AlreadyDefined varname ;;
  s <- get_state ;;
  let inferred := InferType e (st s) in
  when bool_decide (type ≠ EmptyString) && bool_decide (inferred ≠ EmptyString)
       && bool_decide (type ≠ inferred)
    fail TypeDisagrees varname type inferred ;;
  let tag := if bool_decide (type = EmptyString) then inferred else type in
  when bool_decide (tag = EmptyString)
    fail CannotParse varname EmptyString (PeekTokenStart (st s)) ;;
  match GetVarMapForType e tag with
  | None => Error (NoVarMapForType tag)
  | Some p =>
      var_map <- deref_varmap p ;;
      v <- read_value this varname (vm_type var_map) ;;
      var_map' <- deref_varmap p ;;
      store_varmap p
        (mkVarMap (vm_type var_map') (vm_name var_map')
                  (vm_element_typename var_map') (vm_env var_map')
                  (vm_is_primitive var_map')
                  (<[varname := v]> (vars_ var_map'))) ;;;
      e' <- deref_env this ;;
      store_env this
        (mkEnvironmentImpl
           (<[varname := default tag (concrete_to_factory_type_ e !! tag)]>
              (types_ e'))
           (var_map_ e') (concrete_to_factory_type_ e') (debug_ e'))
  end.

End ReadAndSet.

Section Registry.

(** The static data of every [Factory<T>] of the process, in the order
    of the [FactoryContainer]. *)
Variable all_factories : list Factory.

Definition registered_names (f : Factory) : list string :=
  match cons_table_ f with
  | Some table => (map_to_list table).*1
  | None => []
  end.

Definition primitive_var_maps (env : nat) : list VarMap :=
  flat_map (fun T => [mkVarMap T (TypeName T) None env true ∅;
                      mkVarMap (TVector T) (TypeName (TVector T))
                               (Some (TypeName T)) env true ∅])
           [TBool; TInt; TDouble; TString].

Definition factory_var_maps (env : nat) : list VarMap :=
  flat_map (fun f => [CreateVarMap f env; CreateVectorVarMap f env])
           all_factories.

Definition concrete_to_factory : gmap string string :=
  list_to_map
    (flat_map (fun f => (fun c => (c, BaseName f)) <$> registered_names f)
              all_factories).

(** The table of the per-type maps [maps] that are stored from the address
    [first] on: each under its name. *)
Definition var_map_table (first : nat) (maps : list VarMap) : gmap string nat :=
  list_to_map (imap (fun i m => (vm_name m, (first + i)%nat)) maps).

(** Modelled from the spec: the constructor [EnvironmentImpl(int debug)]
    (environment-impl.cc is not part of the sources).  Sections 3 and
    4.2: no variables, one per-type map for every primitive type tag and
    every registered abstract type, and for the vectors of each, and the
    concrete-to-abstract map of the registry. *)
Definition new_EnvironmentImpl (debug : Z) : M nat :=
  fun s =>
    let env := length (envs s) in
    let maps := (primitive_var_maps env ++ factory_var_maps env)%list in
    let table := var_map_table (length (varmaps s)) maps in
    OK (env, mkState (envs s ++ [mkEnvironmentImpl ∅ table concrete_to_factory
                                                   debug])
                     (varmaps s ++ maps) (objects s) (st s)).

(** Modelled from the spec: [Environment::CreateEmpty()] (environment.h
    is not part of the sources): a new environment without variables. *)
Definition CreateEmpty_impl : M nat := new_EnvironmentImpl 0.

Definition factory_named (base : string) : option Factory :=
  List.find (fun f => bool_decide (BaseName f = base)) all_factories.

(** [Factory<T>::CreateOrDie] with [ReadAndSet] tied to its
    implementation; [depth] bounds the nesting of object specifications
    inside one another. *)
Fixpoint Factory_CreateOrDie (depth : nat) (base : string)
    (env : option nat) : M (option nat) :=
  match depth with
  | O => out_of_fuel
  | S depth' =>
      match factory_named base with
      | Some f =>
          CreateOrDie
            (ReadAndSet_impl
               (fun base' env' => Factory_CreateOrDie depth' base' (Some env')))
            CreateEmpty_impl f env
      | None => undefined "no factory for this type"
      end
  end.

(** [EnvironmentImpl::ReadAndSet], for specifications nested at most
    [depth] deep. *)
Definition EnvironmentImpl_ReadAndSet (depth : nat)
    : nat -> string -> string -> M unit :=
  ReadAndSet_impl
    (fun base env => Factory_CreateOrDie depth base (Some env)).

End Registry.

(** ** A small registry to run the code on *)

(** The abstract type [Animal] with two concrete classes.  [Cow] has a
    required [string] member [name] and an optional [int] member [age];
    [Sheep] has a required member [name] and an optional temporary
    [age], which exists in the environment only. *)
Module Farm.

Definition quoted (s : string) : string :=
  String Lexer.dquote (s ++ String Lexer.dquote EmptyString).

Definition Cow : Constructor :=
  mkConstructor "Cow"
    (<["name" := VString EmptyString]> (<["age" := VInt 0]> ∅))
    [mkAddCall "name" TString (Some "name") true;
     mkAddCall "age" TInt (Some "age") false].

Definition Sheep : Constructor :=
  mkConstructor "Sheep" (<["name" := VString EmptyString]> ∅)
    [mkAddCall "name" TString (Some "name") true;
     mkAddCall "age" TInt None false].

(** A second class that asks to be registered as ["Cow"]. *)
Definition Ox : Constructor :=
  mkConstructor "Ox" ∅ [].

(** [IMPLEMENT_FACTORY(Animal)], before any registration. *)
Definition Animal0 : Factory := mkFactory "Animal" 0 None.

(** After [REGISTER_NAMED(Cow, Cow, Animal)] and
    [REGISTER_NAMED(Sheep, Sheep, Animal)]. *)
Definition Animal : Factory :=
  mkFactory "Animal" 1 (Some (<["Sheep" := Sheep]> (<["Cow" := Cow]> ∅))).

Definition nothing : State :=
  mkState [] [] [] (mkStreamTokenizer EmptyString [] 0).

(** The store after [new EnvironmentImpl(debug)], as [Interpreter] does
    it, reading [src]. *)
Definition fresh (debug : Z) (src : string) : State :=
  match Lexer.tokenize src, new_EnvironmentImpl [Animal] debug nothing with
  | Some t, OK (_, s) => with_st s t
  | _, _ => nothing
  end.

Definition ReadAndSet := EnvironmentImpl_ReadAndSet [Animal] 3.
Definition CreateEmpty := CreateEmpty_impl [Animal].

(** [Factory<Animal>().CreateOrDie(st, env)] on the tokens of [src],
    with the environment 0 of [fresh] as the calling environment. *)
Definition create (src : string) : Result (option nat * State) :=
  CreateOrDie ReadAndSet CreateEmpty Animal (Some 0%nat) (fresh 0 src).

(** Four object specifications. *)
Definition bessie : string := "Cow(name(" ++ quoted "Bessie" ++ "), age(5))".
Definition dolly : string := "Sheep(age(3), name(" ++ quoted "Dolly" ++ "))".
Definition nameless : string := "Cow(age(5))".
Definition twice : string := "Cow(age(5), age(6))".

(** The store after the statement [x = 3;] at debug level [debug]. *)
Definition with_x (debug : Z) : State :=
  match ReadAndSet 0%nat "x" EmptyString (fresh debug "3;") with
  | OK (_, s) => s
  | _ => nothing
  end.

(** The store of [fresh 0 src] with a new [Cow] in it, as [CreateOrDie]
    has it when it calls [Init]. *)
Definition with_cow (src : string) : State :=
  mkState (envs (fresh 0 src)) (varmaps (fresh 0 src))
          [NewInstance Cow] (st (fresh 0 src)).

(** A store in which [types_] and the per-type map are out of step: the
    variable [age] has the type tag [int] and no value. *)
Definition out_of_sync : State :=
  mkState [mkEnvironmentImpl (<["age" := "int"]> ∅) (<["int" := 0%nat]> ∅) ∅ 0]
          [mkVarMap TInt "int" None 0 true ∅]
          [NewInstance Cow]
          (mkStreamTokenizer EmptyString [] 0).

(** What can be seen of a result: the returned pointer, the objects with
    their members and [PostInit] calls, the variables of each
    environment with their type tags, and the number of tokens read. *)
Definition observe (r : Result (option nat * State)) :=
  match r with
  | OK (p, s) =>
      OK (p,
          (fun o => (concrete o, map_to_list (members o), post_init_calls o))
            <$> objects s,
          (fun e => map_to_list (types_ e)) <$> envs s,
          next_token_idx_ (st s))
  | Fatal e => Fatal e
  | Undefined w => Undefined w
  | OutOfFuel => OutOfFuel
  end.

End Farm.

(** ** The vocabulary of the properties *)

(** The value of a variable as an environment holds it: in the per-type
    map stored under a type tag. *)
Definition var_value (s : State) (e : EnvironmentImpl) (tag x : string)
    : option value :=
  p ← var_map_ e !! tag ; m ← varmaps s !! p ; vars_ m !! x.

(** Nothing that is in the store [l] is changed or removed in [l']. *)
Definition unchanged {A} (l l' : list A) : Prop :=
  forall i x, l !! i = Some x -> l' !! i = Some x.

(** The stream is the same and has not been moved backwards. *)
Definition stream_advances (t t' : StreamTokenizer) : Prop :=
  str_ t' = str_ t /\ token_ t' = token_ t
  /\ (next_token_idx_ t <= next_token_idx_ t')%nat.

(** Every cell of the store of [s] is in the store of [s'] with the same
    content: [s'] has new cells at most. *)
Record extends (s s' : State) : Prop := mkExtends {
  ext_envs : unchanged (envs s) (envs s');
  ext_varmaps : unchanged (varmaps s) (varmaps s');
  ext_objects : unchanged (objects s) (objects s');
  ext_st : stream_advances (st s) (st s')
}.

(** The per-type maps of the environment at [env]. *)
Definition owns (s : State) (env p : nat) : Prop :=
  exists e tag, envs s !! env = Some e /\ var_map_ e !! tag = Some p.

(** From [s] to [s'] the only cells that were changed are the environment
    at [env], where variables were added at most, and its per-type maps;
    new cells may have been added. *)
Record writes_only_to (env : nat) (s s' : State) : Prop := mkWritesOnlyTo {
  wo_envs : forall i e, i <> env -> envs s !! i = Some e -> envs s' !! i = Some e;
  wo_self : forall e, envs s !! env = Some e ->
            exists e', envs s' !! env = Some e'
                       /\ var_map_ e' = var_map_ e
                       /\ forall y, is_Some (types_ e !! y) ->
                                    is_Some (types_ e' !! y);
  wo_varmaps : forall i m, ~ owns s env i -> varmaps s !! i = Some m ->
               varmaps s' !! i = Some m;
  wo_objects : unchanged (objects s) (objects s');
  wo_st : stream_advances (st s) (st s')
}.

(** The contract of [Environment::ReadAndSet] towards its caller: it
    changes the environment it is called on, and nothing else that
    exists. *)
Definition ReadAndSet_frame (R : nat -> string -> string -> M unit) : Prop :=
  forall env x ty s u s', R env x ty s = OK (u, s') -> writes_only_to env s s'.

(** After [ReadAndSet] the variable is defined. *)
Definition ReadAndSet_defines (R : nat -> string -> string -> M unit) : Prop :=
  forall env x ty s u s',
    R env x ty s = OK (u, s') ->
    exists e', envs s' !! env = Some e' /\ is_Some (types_ e' !! x).

(** [ReadAndSet] fails when the name already exists. *)
Definition ReadAndSet_rejects_defined (R : nat -> string -> string -> M unit)
    : Prop :=
  forall env x ty s e,
    envs s !! env = Some e -> is_Some (types_ e !! x) ->
    R env x ty s = Fatal (AlreadyDefined x).

(** The store after [Init] is the store after its call of [ReadAndSet],
    but for the data member that was assigned, if any. *)
Definition assigns_member (member : option (nat * string)) (s1 s' : State)
    : Prop :=
  envs s' = envs s1 /\ varmaps s' = varmaps s1 /\ st s' = st s1
  /\ (objects s' = objects s1
      \/ exists m o v,
           member = Some m /\ objects s1 !! m.1 = Some o
           /\ objects s' = <[m.1 := mkInstance (concrete o)
                                      (<[m.2 := v]> (members o))
                                      (post_init_calls o)]> (objects s1)).

(** What holds of the store while [CreateOrDie], entered in state [s0],
    runs its loop: nothing that existed at the entry has changed; the
    environment the members are read into, its per-type maps and the
    instance are new cells; the member pointers of the initializers point
    into the instance; and [PostInit] has not been called. *)
Record loop_inv (s0 : State) (l : Locals)
    (inits : gmap string MemberInitializer) (cur : State) : Prop := mkLoopInv {
  li_extends : extends s0 cur;
  li_env_ptr : (length (envs s0) <= env_ptr l)%nat;
  li_env : is_Some (envs cur !! env_ptr l);
  li_owned : forall p, owns cur (env_ptr l) p -> (length (varmaps s0) <= p)%nat;
  li_instance_new : (length (objects s0) <= instance l)%nat;
  li_instance : exists o, objects cur !! instance l = Some o
                          /\ post_init_calls o = [];
  li_members : forall n mi m, inits !! n = Some mi -> member_ mi = Some m ->
               m.1 = instance l;
  li_names : forall n mi, inits !! n = Some mi -> name_ mi = n;
  li_started : (next_token_idx_ (st s0) < next_token_idx_ (st cur))%nat
}.

(** The environment at [p] and its per-type maps are new cells of [s1],
    and nothing else differs from [s]. *)
Record new_environment (s : State) (p : nat) (s1 : State) : Prop :=
  mkNewEnvironment {
  ne_envs : unchanged (envs s) (envs s1);
  ne_varmaps : unchanged (varmaps s) (varmaps s1);
  ne_objects : objects s1 = objects s;
  ne_st : st s1 = st s;
  ne_ptr : (length (envs s) <= p)%nat;
  ne_env : is_Some (envs s1 !! p);
  ne_owned : forall q, owns s1 p q -> (length (varmaps s) <= q)%nat
}.

(** The contract of [Environment::CreateEmpty]. *)
Definition CreateEmpty_new (CE : M nat) : Prop :=
  forall s p s1, CE s = OK (p, s1) -> new_environment s p s1.

(** A required member that no initialization was counted for. *)
Definition missing (entry : string * MemberInitializer) : bool :=
  Required entry.2 && bool_decide (Initialized entry.2 = 0).

(** The store [PostInit] leaves. *)
Definition after_PostInit (l : Locals) (o : Instance) (init_str : string)
    (s : State) : State :=
  mkState (envs s) (varmaps s)
    (<[instance l := mkInstance (concrete o) (members o)
                       (post_init_calls o ++ [(env_ptr l, init_str)])]>
       (objects s))
    (advance (st s)).

(** The contract of [Factory<T>::CreateOrDie] towards [ReadAndSet]. *)
Definition create_extends (create : string -> nat -> M (option nat)) : Prop :=
  forall base env s r s', create base env s = OK (r, s') -> extends s s'.

(** Every per-type map of the environment is in the store. *)
Definition env_ok (s : State) (e : EnvironmentImpl) : Prop :=
  forall tag p, var_map_ e !! tag = Some p -> is_Some (varmaps s !! p).

(** [e'], in the store [s'], is a deep copy of [e], in the store [s]: the
    same type tags, the same registry data and debug level, per-type maps
    under the same tags, held in cells that [s] does not have, and the
    same value for every variable. *)
Record deep_copy (s : State) (e : EnvironmentImpl) (s' : State)
    (e' : EnvironmentImpl) : Prop := mkDeepCopy {
  dc_types : types_ e' = types_ e;
  dc_concrete : concrete_to_factory_type_ e' = concrete_to_factory_type_ e;
  dc_debug : debug_ e' = debug_ e;
  dc_tags : dom (var_map_ e') = dom (var_map_ e);
  dc_new : forall tag q, var_map_ e' !! tag = Some q ->
           (length (varmaps s) <= q)%nat;
  dc_values : env_ok s e ->
              forall tag x, var_value s' e' tag x = var_value s e tag x
}.

(** The offsets of the tokens are those of consecutive, non-overlapping
    pieces of a text of [len] bytes, from the offset [from] on. *)
Fixpoint tokens_ok (len from : nat) (ts : list Token) : bool :=
  match ts with
  | [] => true
  | t :: rest =>
      (from <=? tok_start t)%nat && (tok_start t <=? curr_pos t)%nat
      && (curr_pos t <=? len)%nat && tokens_ok len (curr_pos t) rest
  end.

(** The tokens of the stream lie in its text, in order, and the text is
    one a [string] can hold. *)
Definition stream_ok (t : StreamTokenizer) : Prop :=
  tokens_ok (String.length (str_ t)) 0 (token_ t) = true
  /\ Z.of_nat (String.length (str_ t)) < 2 ^ 64.

(** The iterations of the loop of [CreateOrDie]: from the initializers
    [inits] and the state [s], the loop has read the member names [names],
    in this order, each with its value, and stands at the top of its body
    with the initializers [inits'] and the state [s']. *)
Inductive loop_reaches (R : nat -> string -> string -> M unit)
    (type : string) (env_ptr : nat)
    (inits : gmap string MemberInitializer) (s : State)
    : list string -> gmap string MemberInitializer -> State -> Prop :=
| reaches_start : loop_reaches R type env_ptr inits s [] inits s
| reaches_next names inits1 s1 inits2 s2 :
    loop_reaches R type env_ptr inits s names inits1 s1 ->
    Peek (st s1) <> ")" ->
    member_init R type env_ptr inits1 s1 = OK (inits2, s2) ->
    loop_reaches R type env_ptr inits s (names ++ [Peek (st s1)]) inits2 s2.

(** The variables [names] are defined in the environment at [env]. *)
Definition all_defined (s : State) (env : nat) (names : list string) : Prop :=
  exists e, envs s !! env = Some e
            /\ forall n, n ∈ names -> is_Some (types_ e !! n).

(** * Properties *)

(** ** Reasoning about the monad *)

Lemma bind_OK {A B} (m : M A) (k : A -> M B) s b s' :
  bind m k s = OK (b, s') ->
  exists a s1, m s = OK (a, s1) /\ k a s1 = OK (b, s').
Proof.
  unfold bind. destruct (m s) as [[a s1]| | |]; try discriminate.
  intros H. by exists a, s1.
Qed.

Lemma bind_eq {A B} (m : M A) (k : A -> M B) s a s1 :
  m s = OK (a, s1) -> bind m k s = k a s1.
Proof. unfold bind. by intros ->. Qed.

Lemma bind_Fatal {A B} (m : M A) (k : A -> M B) s e :
  m s = Fatal e -> bind m k s = Fatal e.
Proof. unfold bind. by intros ->. Qed.

Lemma lift_OK {A} (r : Result A) s a s' :
  lift r s = OK (a, s') -> r = OK a /\ s' = s.
Proof. destruct r; simpl; intros H; by simplify_eq. Qed.

(** Splits a hypothesis [H : (x <- m ;; k) s = OK _] into the steps it
    went through. *)
Ltac inv_bind H :=
  let a := fresh "a" in
  let s1 := fresh "s" in
  let H1 := fresh H "a" in
  apply bind_OK in H as (a & s1 & H1 & H).

(** ** Type names (factory.h, the [TypeName] templates) *)

(** C10: the type name of [vector<T>] is the type name of [T] followed by
    the two characters of an empty pair of brackets, and the type name of
    [shared_ptr<T>] is the type name of [T]; so a pointer wrapper never
    shows in a type tag, inside or outside a vector. *)
Theorem TypeName_vector_and_shared_ptr (T : cpp_type) :
  TypeName (TVector T) = TypeName T ++ "[]"
  /\ TypeName (TSharedPtr T) = TypeName T
  /\ TypeName (TVector (TSharedPtr T)) = TypeName (TVector T)
  /\ TypeName (TSharedPtr (TVector T)) = TypeName (TVector T).
Proof. repeat split. Qed.

(** ** The typed environment (environment-impl.h) *)

Lemma GetType_defined (this : EnvironmentImpl) (varname type : string) :
  types_ this !! varname = Some type -> GetType this varname = OK type.
Proof. unfold GetType. by intros ->. Qed.

Lemma GetType_not_defined (this : EnvironmentImpl) (varname : string) :
  types_ this !! varname = None ->
  GetType this varname = Undefined "dereference of types_.end()".
Proof. unfold GetType. by intros ->. Qed.

(** C6, on the code: in an environment without variables, [GetType] of a
    name neither fails with an error nor returns a type tag of the
    environment; it dereferences the past-the-end iterator of [types_].
    A defined name gets its stored tag. *)
Theorem GetType_of_undefined_name_is_not_an_error :
  let this := mkEnvironmentImpl ∅ ∅ ∅ 0 in
  Defined this "x" = false
  /\ GetType this "x" = Undefined "dereference of types_.end()"
  /\ is_Fatal (GetType this "x") = false
  /\ GetType (mkEnvironmentImpl (<["x" := "int"]> ∅) ∅ ∅ 0) "x" = OK "int".
Proof. repeat split. Qed.

(** C3, as stated, fails: in the environment of an interpreter made with
    debug level 0 that has read [x = 3;], reading [x] into a [string] slot
    returns false without an error, and the line about the mismatch is
    written to [cerr] all the same. *)
Lemma Get_mismatch_is_reported_at_debug_level_0 :
  exists this,
    envs (Farm.with_x 0) !! 0%nat = Some this
    /\ debug_ this = 0
    /\ types_ this !! "x" = Some "int"
    /\ Get (Farm.with_x 0) this TString "x"
       = ([NoValueOfType "x" TString "int"], OK (false, None)).
Proof. eexists. repeat split; vm_compute; reflexivity. Qed.

(** C3, amended: [Get] returns true and writes the slot exactly when the
    name has a type tag, the per-type map stored under that tag is a
    [VarMap<T>] for the type [T] of the slot, and that map holds the name;
    the slot is written iff true is returned.  When the name is missing, or
    when the map under its tag is of another type, [Get] returns false
    without a fatal error.  The line for a missing name is written only at
    debug level 1 or more; the line for a type mismatch is written at every
    debug level. *)
Theorem Get_typed_read (s : State) (this : EnvironmentImpl) (T : cpp_type)
    (varname : string) :
  (forall v,
     (Get s this T varname).2 = OK (true, Some v)
     <-> exists type p var_map,
           types_ this !! varname = Some type
           /\ var_map_ this !! type = Some p
           /\ varmaps s !! p = Some var_map
           /\ vm_type var_map = T
           /\ vars_ var_map !! varname = Some v)
  /\ (forall b slot,
        (Get s this T varname).2 = OK (b, slot) -> (b = true <-> is_Some slot))
  /\ (types_ this !! varname = None ->
      Get s this T varname
      = ((if bool_decide (1 <= debug_ this) then [NoValueForVariable varname]
          else []),
         OK (false, None)))
  /\ (forall type p var_map,
        types_ this !! varname = Some type ->
        var_map_ this !! type = Some p ->
        varmaps s !! p = Some var_map ->
        vm_type var_map <> T ->
        Get s this T varname
        = ([NoValueOfType varname T type], OK (false, None))).
Proof.
  unfold Get. repeat split.
  - destruct (types_ this !! varname) as [type|] eqn:Ht; [|done].
    destruct (var_map_ this !! type) as [p|] eqn:Hp; [|done].
    destruct (varmaps s !! p) as [var_map|] eqn:Hm; [|done].
    case_bool_decide; [|done].
    destruct (vars_ var_map !! varname) as [w|] eqn:Hw; [|done].
    simpl. intros [= <-]. by exists type, p, var_map.
  - intros (type & p & var_map & -> & -> & -> & HT & ->).
    by rewrite bool_decide_true.
  - intros ->.
    destruct (types_ this !! varname) as [type|]; [|by simplify_eq/=].
    destruct (var_map_ this !! type) as [p|]; [|done].
    destruct (varmaps s !! p) as [var_map|]; [|done].
    case_bool_decide; [|by simplify_eq/=].
    destruct (vars_ var_map !! varname); by simplify_eq/=.
  - intros Hs.
    destruct (types_ this !! varname) as [type|];
      [|simplify_eq/=; by destruct Hs].
    destruct (var_map_ this !! type) as [p|]; [|done].
    destruct (varmaps s !! p) as [var_map|]; [|done].
    case_bool_decide; [|simplify_eq/=; by destruct Hs].
    destruct (vars_ var_map !! varname); by simplify_eq/=.
  - by intros ->.
  - intros type p var_map -> -> -> HT. by rewrite bool_decide_false.
Qed.

(** ** The deep copy of an environment *)

Lemma unchanged_refl {A} (l : list A) : unchanged l l.
Proof. by intros i x. Qed.

Lemma unchanged_trans {A} (l1 l2 l3 : list A) :
  unchanged l1 l2 -> unchanged l2 l3 -> unchanged l1 l3.
Proof. intros H1 H2 i x Hi. eauto. Qed.

Lemma unchanged_app {A} (l k : list A) : unchanged l (l ++ k).
Proof. intros i x Hi. by apply lookup_app_l_Some. Qed.

Lemma unchanged_length {A} (l l' : list A) :
  unchanged l l' -> (length l <= length l')%nat.
Proof.
  intros H. destruct (decide (length l <= length l')%nat) as [|Hn]; [done|].
  destruct (lookup_lt_is_Some_2 l (length l')) as [x Hx]; [lia|].
  apply H, lookup_lt_Some in Hx. lia.
Qed.

Lemma unchanged_insert_ge {A} (l l' : list A) (i : nat) (x : A) :
  unchanged l l' -> (length l <= i)%nat -> unchanged l (<[i := x]> l').
Proof.
  intros H Hi j y Hj. rewrite list_lookup_insert_ne; [by apply H|].
  apply lookup_lt_Some in Hj. lia.
Qed.

Lemma copy_var_maps_spec (n : nat) (entries : list (string * nat))
    (table table' : gmap string nat) (s s' : State) :
  copy_var_maps n entries table s = OK (table', s') ->
  envs s' = envs s /\ objects s' = objects s /\ st s' = st s
  /\ unchanged (varmaps s) (varmaps s')
  /\ (forall k, k ∉ entries.*1 -> table' !! k = table !! k)
  /\ (NoDup entries.*1 ->
      forall k p, (k, p) ∈ entries ->
        exists q, table' !! k = Some q
                  /\ (length (varmaps s) <= q)%nat
                  /\ forall m, varmaps s !! p = Some m ->
                               varmaps s' !! q = Some (VarMap_Copy m n)).
Proof.
  revert table s. induction entries as [|[k0 p0] rest IH]; intros table s H.
  - simpl in H. injection H as <- <-.
    repeat split; auto using unchanged_refl.
    intros _ k p Hin. by apply elem_of_nil in Hin.
  - simpl in H. inv_bind H. inv_bind H.
    unfold deref_varmap in Ha.
    destruct (varmaps s !! p0) as [m0|] eqn:Hm0; [|done].
    injection Ha as <- <-. unfold new_varmap in Ha0. injection Ha0 as <- <-.
    apply IH in H as (He & Ho & Hst & Hun & Hout & Hin). simpl in *.
    repeat split; try done.
    + eapply unchanged_trans; [apply unchanged_app|done].
    + intros k Hk. apply not_elem_of_cons in Hk as [Hk Hk'].
      rewrite Hout by done. by rewrite lookup_insert_ne.
    + intros Hnd k p Hkp. apply NoDup_cons in Hnd as [Hk0 Hnd].
      apply elem_of_cons in Hkp as [[= -> ->]|Hkp].
      * exists (length (varmaps s)). rewrite Hout by done.
        rewrite lookup_insert_eq. repeat split; [lia|].
        intros m Hm. assert (m = m0) as -> by congruence.
        apply Hun. by rewrite lookup_app_r, Nat.sub_diag by lia.
      * destruct (Hin Hnd k p Hkp) as (q & Hq & Hlen & Hq').
        exists q. rewrite length_app in Hlen. simpl in Hlen.
        repeat split; [done|lia|].
        intros m Hm. apply Hq'. by apply lookup_app_l_Some.
Qed.

(** What [Copy] returns and leaves in the store: a new environment after
    all existing ones, with the same variables and type tags, whose
    per-type maps are new cells holding what the maps of the original
    hold. *)
Lemma Copy_spec (this : nat) (s s1 : State) (p : nat) :
  Copy this s = OK (p, s1) ->
  p = length (envs s)
  /\ objects s1 = objects s /\ st s1 = st s
  /\ unchanged (envs s) (envs s1)
  /\ unchanged (varmaps s) (varmaps s1)
  /\ exists e e',
      envs s !! this = Some e /\ envs s1 !! p = Some e'
      /\ types_ e' = types_ e
      /\ concrete_to_factory_type_ e' = concrete_to_factory_type_ e
      /\ debug_ e' = debug_ e
      /\ dom (var_map_ e') = dom (var_map_ e)
      /\ (forall tag q, var_map_ e' !! tag = Some q ->
            (length (varmaps s) <= q)%nat)
      /\ (forall tag q m, var_map_ e !! tag = Some q ->
            varmaps s !! q = Some m ->
            exists q', var_map_ e' !! tag = Some q'
                       /\ varmaps s1 !! q' = Some (VarMap_Copy m p)).
Proof.
  unfold Copy. intros H. inv_bind H. inv_bind H. inv_bind H. inv_bind H.
  injection H as <- <-.
  unfold deref_env in Ha. destruct (envs s !! this) as [e|] eqn:He; [|done].
  injection Ha as <- <-. unfold new_env in Ha0. injection Ha0 as <- <-.
  apply copy_var_maps_spec in Ha1 as (Henvs & Hobj & Hst & Hun & Hout & Hin).
  unfold store_env in Ha2. injection Ha2 as _ <-. simpl in *.
  specialize (Hin (NoDup_fst_map_to_list _)).
  rewrite Henvs. repeat split; try done.
  - apply unchanged_insert_ge; [apply unchanged_app|done].
  - eexists e, _. split; [done|]. split.
    { rewrite list_lookup_insert_eq; [done|]. rewrite length_app. simpl. lia. }
    simpl. repeat split.
    + apply set_eq. intros tag. rewrite !elem_of_dom.
      destruct (var_map_ e !! tag) as [q|] eqn:Hq.
      * apply elem_of_map_to_list in Hq.
        destruct (Hin _ _ Hq) as (q' & -> & _). by split; eauto.
      * rewrite Hout; [by rewrite Hq|].
        intros Hk. apply list_elem_of_fmap in Hk as ([k q] & -> & Hk).
        apply elem_of_map_to_list in Hk. simpl in Hq. congruence.
    + intros tag q Hq.
      destruct (var_map_ e !! tag) as [q0|] eqn:Hq0.
      * apply elem_of_map_to_list in Hq0.
        destruct (Hin _ _ Hq0) as (q' & Hq' & Hlen & _).
        assert (q' = q) as -> by congruence. lia.
      * rewrite Hout in Hq; [congruence|].
        intros Hk. apply list_elem_of_fmap in Hk as ([k q1] & -> & Hk).
        apply elem_of_map_to_list in Hk. simpl in Hq0. congruence.
    + intros tag q m Hq Hm. apply elem_of_map_to_list in Hq.
      destruct (Hin _ _ Hq) as (q' & Hq' & _ & Hcopy). eauto.
Qed.

(** ** What a call may change *)

Lemma stream_advances_refl t : stream_advances t t.
Proof. by repeat split. Qed.

Lemma stream_advances_trans t1 t2 t3 :
  stream_advances t1 t2 -> stream_advances t2 t3 -> stream_advances t1 t3.
Proof.
  intros (? & ? & ?) (? & ? & ?). repeat split; [congruence..|lia].
Qed.

Lemma stream_advances_advance t : stream_advances t (advance t).
Proof. repeat split. simpl. lia. Qed.

Lemma extends_refl s : extends s s.
Proof. split; auto using unchanged_refl, stream_advances_refl. Qed.

Lemma extends_trans s1 s2 s3 : extends s1 s2 -> extends s2 s3 -> extends s1 s3.
Proof.
  intros [] []. split; eauto using unchanged_trans, stream_advances_trans.
Qed.

Lemma incr_initialized_OK mi mi' s s' :
  incr_initialized mi s = OK (mi', s') ->
  s' = s /\ name_ mi' = name_ mi /\ required_ mi' = required_ mi
  /\ member_type mi' = member_type mi /\ member_ mi' = member_ mi
  /\ initialized_ mi' = initialized_ mi + 1.
Proof.
  unfold incr_initialized. case_bool_decide; [|done].
  intros [= <- <-]. by repeat split.
Qed.

Lemma write_member_OK m v u s s' :
  write_member m v s = OK (u, s') ->
  envs s' = envs s /\ varmaps s' = varmaps s /\ st s' = st s
  /\ exists o, objects s !! m.1 = Some o
               /\ objects s' = <[m.1 := mkInstance (concrete o)
                                          (<[m.2 := v]> (members o))
                                          (post_init_calls o)]> (objects s).
Proof.
  unfold write_member. destruct (objects s !! m.1) as [o|] eqn:Ho; [|done].
  intros [= _ <-]. simpl. repeat split. by exists o.
Qed.

Lemma Init_inv R mi env s mi' s' :
  Init R mi env s = OK (mi', s') ->
  exists u s1,
    R env (Name mi) (TypeName (member_type mi)) s = OK (u, s1)
    /\ name_ mi' = name_ mi /\ required_ mi' = required_ mi
    /\ member_type mi' = member_type mi /\ member_ mi' = member_ mi
    /\ assigns_member (member_ mi) s1 s'.
Proof.
  unfold Init. intros H. inv_bind H. exists a, s0. split; [done|].
  destruct (member_ mi) as [member|] eqn:Hmember.
  - inv_bind H. inv_bind H. inv_bind H.
    unfold deref_env in Ha0. destruct (envs s0 !! env); [|done].
    injection Ha0 as <- <-. apply lift_OK in Ha1 as [Hvm ->].
    assert (s3 = s0) as ->.
    { unfold dynamic_cast in Ha2. destruct a1; [|by injection Ha2].
      inv_bind Ha2. unfold deref_varmap in Ha2a.
      destruct (varmaps s0 !! n); [|done]. injection Ha2a as <- <-.
      by injection Ha2. }
    destruct a2 as [p|]; [|injection H as <- <-;
                            repeat split; try done; try congruence; by left].
    inv_bind H. unfold VarMap_Get in Ha0. inv_bind Ha0.
    unfold deref_varmap in Ha0a. destruct (varmaps s0 !! p); [|done].
    injection Ha0a as <- <-.
    destruct (vars_ v !! Name mi) as [w|].
    + inv_bind Ha0. injection Ha0 as <- <-.
      apply write_member_OK in Ha0a as (He & Hv & Hst & o & Ho & Hobj).
      apply incr_initialized_OK in H as (-> & ? & ? & ? & ? & _).
      repeat split; try done; try congruence; right; by exists member, o, w.
    + injection Ha0 as <- <-. injection H as <- <-.
      repeat split; try done; try congruence; by left.
  - apply incr_initialized_OK in H as (-> & ? & ? & ? & ? & _).
    repeat split; try done; try congruence; by left.
Qed.

Lemma st_Next_OK a s s' :
  st_Next s = OK (a, s') ->
  a = Peek (st s) /\ s' = with_st s (advance (st s))
  /\ is_Some (token_ (st s) !! next_token_idx_ (st s)).
Proof.
  unfold st_Next, Peek.
  destruct (token_ (st s) !! next_token_idx_ (st s)); [|done].
  intros [= <- <-]. eauto.
Qed.

(** One iteration of the loop: the member name and the parenthesis are
    read, [Init] runs, and the closing parenthesis and the comma are
    read. *)
Lemma member_init_inv R type env_ptr inits s inits' s' :
  member_init R type env_ptr inits s = OK (inits', s') ->
  exists mi mi' s2,
    PeekTokenType (st s) = IDENTIFIER
    /\ inits !! Peek (st s) = Some mi
    /\ Init R mi env_ptr (with_st s (advance (advance (st s)))) = OK (mi', s2)
    /\ inits' = <[Peek (st s) := mi']> inits
    /\ envs s' = envs s2 /\ varmaps s' = varmaps s2 /\ objects s' = objects s2
    /\ stream_advances (st s2) (st s')
    /\ (next_token_idx_ (st s2) < next_token_idx_ (st s'))%nat
    /\ (next_token_idx_ (st s') <= length (token_ (st s')))%nat.
Proof.
  unfold member_init. intros H.
  inv_bind H. injection Ha as <- <-. inv_bind H. injection Ha as <- <-.
  inv_bind H. injection Ha as <- <-.
  case_bool_decide as Hid; [done|].
  inv_bind H. injection Ha as <- <-. inv_bind H.
  apply st_Next_OK in Ha as (-> & -> & _).
  destruct (inits !! Peek (st s)) as [mi|] eqn:Hmi; [|done].
  inv_bind H. injection Ha as <- <-. inv_bind H. injection Ha as <- <-.
  case_bool_decide; [done|].
  inv_bind H. apply st_Next_OK in Ha as (_ & -> & _).
  inv_bind H. rename a0 into mi', s0 into s2.
  inv_bind H. injection Ha0 as <- <-. inv_bind H. injection Ha0 as <- <-.
  case_bool_decide; [done|].
  inv_bind H. apply st_Next_OK in Ha0 as (_ & -> & Hclose).
  apply lookup_lt_is_Some_1 in Hclose.
  inv_bind H. injection Ha0 as <- <-. inv_bind H. injection Ha0 as <- <-.
  destruct (_ && _); [done|].
  inv_bind H. injection H as <- <-.
  assert (envs s0 = envs s2 /\ varmaps s0 = varmaps s2
          /\ objects s0 = objects s2 /\ str_ (st s0) = str_ (st s2)
          /\ token_ (st s0) = token_ (st s2)
          /\ (S (next_token_idx_ (st s2)) <= next_token_idx_ (st s0))%nat
          /\ (next_token_idx_ (st s0) <= length (token_ (st s0)))%nat)
    as (? & ? & ? & ? & ? & ? & ?).
  { case_bool_decide.
    - inv_bind Ha0. apply st_Next_OK in Ha0a as (_ & -> & Hcomma).
      apply lookup_lt_is_Some_1 in Hcomma. simpl in Hcomma.
      injection Ha0 as _ <-. repeat split; simpl; lia.
    - injection Ha0 as _ <-. repeat split; simpl; lia. }
  exists mi, mi', s2. repeat split; try done. lia.
Qed.

(** An invariant of the loop body is an invariant of the loop, and the
    loop ends in front of a closing parenthesis. *)
Lemma member_init_list_invariant R type env_ptr
    (P : gmap string MemberInitializer -> State -> Prop) :
  (forall inits s inits' s',
     P inits s -> member_init R type env_ptr inits s = OK (inits', s') ->
     P inits' s') ->
  forall fuel inits s inits' s',
    P inits s ->
    member_init_list R fuel type env_ptr inits s = OK (inits', s') ->
    P inits' s' /\ Peek (st s') = ")".
Proof.
  intros Hstep fuel. induction fuel as [|fuel IH]; intros inits s inits' s' HP H.
  - simpl in H. inv_bind H. injection Ha as <- <-.
    case_bool_decide; [|done]. by injection H as <- <-.
  - simpl in H. inv_bind H. injection Ha as <- <-.
    case_bool_decide; [by injection H as <- <-|].
    inv_bind H. eauto.
Qed.

Lemma with_st_advance_extends s0 s t :
  extends s0 s -> stream_advances (st s) t -> extends s0 (with_st s t).
Proof.
  intros [] Ht. split; simpl; try done.
  by eapply stream_advances_trans.
Qed.

Lemma loop_inv_step R s0 l inits s inits' s' :
  ReadAndSet_frame R ->
  loop_inv s0 l inits s ->
  member_init R (type l) (env_ptr l) inits s = OK (inits', s') ->
  loop_inv s0 l inits' s'.
Proof.
  intros HR [Hext Hptr [e He] Hown Hnew (o & Ho & Hcalls) Hmem Hnames Hidx] H.
  apply member_init_inv in H
    as (mi & mi' & s2 & _ & Hmi & HInit & -> & He' & Hv' & Ho' & Hst' & _ & _).
  apply Init_inv in HInit
    as (u & s1 & HRS & Hn & _ & _ & Hm & He2 & Hv2 & Hst2 & Ho2).
  apply HR in HRS as [Wenvs Wself Wvarmaps Wobjs Wst]. simpl in *.
  destruct (Wself e He) as (e1 & He1 & Hvm1 & _).
  destruct Hext as [Eenvs Evarmaps Eobjs Est].
  assert (unchanged (objects s0) (objects s2)) as Eobjs2.
  { destruct Ho2 as [->|(m & o2 & v & Hmm & Ho2 & ->)].
    - by eapply unchanged_trans.
    - apply unchanged_insert_ge; [by eapply unchanged_trans|].
      by rewrite (Hmem _ _ _ Hmi Hmm). }
  split.
  - split.
    + rewrite He', He2. intros i x Hi. apply Wenvs; [|by apply Eenvs].
      apply lookup_lt_Some in Hi. lia.
    + rewrite Hv', Hv2. intros i x Hi. apply Wvarmaps; [|by apply Evarmaps].
      intros Hown'. apply Hown in Hown'. apply lookup_lt_Some in Hi. lia.
    + by rewrite Ho'.
    + eapply stream_advances_trans; [apply Est|].
      eapply stream_advances_trans; [|apply Hst'].
      rewrite Hst2. eapply stream_advances_trans; [|apply Wst].
      eapply stream_advances_trans; apply stream_advances_advance.
  - done.
  - rewrite He', He2. eauto.
  - intros p (e' & tag & Hp & Htag). rewrite He', He2 in Hp.
    apply Hown. exists e, tag. split; [done|]. congruence.
  - done.
  - rewrite Ho'. destruct Ho2 as [->|(m & o2 & v & Hmm & Ho2 & ->)].
    + exists o. split; [by apply Wobjs|done].
    + rewrite (Hmem _ _ _ Hmi Hmm) in *.
      apply Wobjs in Ho. assert (o2 = o) as -> by congruence.
      exists (mkInstance (concrete o) (<[m.2:=v]> (members o))
                         (post_init_calls o)).
      split; [|done].
      apply list_lookup_insert_eq. by apply lookup_lt_Some in Ho.
  - intros n mi0 m. destruct (decide (n = Peek (st s))) as [->|Hne].
    + rewrite lookup_insert_eq. intros [= <-] Hmm. rewrite Hm in Hmm. eauto.
    + rewrite lookup_insert_ne by done. eauto.
  - intros n mi0. destruct (decide (n = Peek (st s))) as [->|Hne].
    + rewrite lookup_insert_eq. intros [= <-]. rewrite Hn. eauto.
    + rewrite lookup_insert_ne by done. eauto.
  - destruct Hst' as (_ & _ & Hle'). destruct Wst as (_ & _ & Hle).
    rewrite Hst2 in Hle'. simpl in Hle. lia.
Qed.

(** The number of iterations [CreateOrDie] gives its loop is enough: with
    more iterations than unread tokens, the result of the loop does not
    depend on their number. *)
Lemma member_init_list_fuel R fuel fuel' type env_ptr inits s :
  ReadAndSet_frame R ->
  (unread (st s) < fuel)%nat -> (unread (st s) < fuel')%nat ->
  member_init_list R fuel type env_ptr inits s
  = member_init_list R fuel' type env_ptr inits s.
Proof.
  intros HR. revert fuel' inits s.
  induction fuel as [|fuel IH]; intros fuel' inits s Hf Hf'; [lia|].
  destruct fuel' as [|fuel']; [lia|]. simpl.
  erewrite !(bind_eq st_Peek) by reflexivity.
  case_bool_decide; [done|]. unfold bind.
  destruct (member_init R type env_ptr inits s) as [[inits1 s1]| | |] eqn:Hstep;
    try done.
  pose proof Hstep as Hstep'.
  apply member_init_inv in Hstep'
    as (mi & mi' & s2 & _ & _ & HInit & _ & _ & _ & _ & Hadv & Hlt & Hlen).
  apply Init_inv in HInit as (u & s3 & HRS & _ & _ & _ & _ & _ & _ & Hst3 & _).
  apply HR in HRS as [_ _ _ _ (_ & Htok3 & Hidx3)]. simpl in Htok3, Hidx3.
  destruct Hadv as (_ & Htok2 & _). rewrite Hst3 in *.
  assert (unread (st s1) < unread (st s))%nat.
  { unfold unread in *. rewrite Htok2, Htok3 in *. lia. }
  apply IH; lia.
Qed.

Lemma Copy_new_environment this s p s1 :
  Copy this s = OK (p, s1) -> new_environment s p s1.
Proof.
  intros H. apply Copy_spec in H
    as (-> & Ho & Hst & He & Hv & e & e' & _ & He' & _ & _ & _ & _ & Hfresh & _).
  split; try done.
  intros q (e1 & tag & He1 & Hq). assert (e1 = e') as -> by congruence. eauto.
Qed.

Lemma run_RegisterInitializers_inv instance calls inits inits' :
  run_RegisterInitializers instance calls inits = OK inits' ->
  (forall n mi m, inits !! n = Some mi -> member_ mi = Some m -> m.1 = instance) ->
  (forall n mi, inits !! n = Some mi -> name_ mi = n) ->
  (forall n mi m, inits' !! n = Some mi -> member_ mi = Some m -> m.1 = instance)
  /\ (forall n mi, inits' !! n = Some mi -> name_ mi = n).
Proof.
  revert inits. induction calls as [|a calls IH]; intros inits H Hm Hn.
  - simpl in H. by injection H as <-.
  - simpl in H. destruct (Add instance a inits) as [inits1| | |] eqn:HAdd;
      try done.
    unfold Add in HAdd. destruct (inits !! add_name a) eqn:Hfree; [done|].
    injection HAdd as <-. apply IH in H; [done| |].
    + intros n mi m. destruct (decide (n = add_name a)) as [->|Hne].
      * rewrite lookup_insert_eq. intros [= <-]. simpl.
        destruct (add_member a); [|done]. by intros [= <-].
      * rewrite lookup_insert_ne by done. eauto.
    + intros n mi. destruct (decide (n = add_name a)) as [->|Hne].
      * rewrite lookup_insert_eq. by intros [= <-].
      * rewrite lookup_insert_ne by done. eauto.
Qed.

(** [CreateOrDie] up to its loop. *)
Lemma CreateOrDie_begin_inv CE f env s b s1 :
  CreateOrDie_begin CE f env s = OK (b, s1) ->
  exists p s_env,
    match env with None => CE | Some e => Copy e end s = OK (p, s_env)
    /\ match b with
       | None =>
           PeekTokenType (st s_env) = RESERVED_WORD
           /\ (Peek (st s_env) = "nullptr" \/ Peek (st s_env) = "NULL")
           /\ s1 = with_st s_env (advance (st s_env))
       | Some (l, inits) =>
           PeekTokenType (st s_env) = IDENTIFIER
           /\ env_ptr l = p
           /\ start l = PeekTokenStart (st s_env)
           /\ type l = Peek (st s_env)
           /\ instance l = length (objects s_env)
           /\ exists table cons_it,
                cons_table_ f = Some table
                /\ table !! type l = Some cons_it
                /\ run_RegisterInitializers (instance l)
                     (RegisterInitializers cons_it) ∅ = OK inits
                /\ s1 = mkState (envs s_env) (varmaps s_env)
                                (objects s_env ++ [NewInstance cons_it])
                                (advance (advance (st s_env)))
       end.
Proof.
  unfold CreateOrDie_begin. intros H. inv_bind H. exists a, s0.
  split; [done|]. clear Ha.
  inv_bind H. injection Ha as <- <-. inv_bind H. injection Ha as <- <-.
  inv_bind H. injection Ha as <- <-.
  destruct (bool_decide (PeekTokenType (st s0) = RESERVED_WORD)
            && (bool_decide (Peek (st s0) = "nullptr")
                || bool_decide (Peek (st s0) = "NULL"))) eqn:Hnull.
  - inv_bind H. apply st_Next_OK in Ha as (_ & -> & _). injection H as <- <-.
    apply andb_prop in Hnull as [H1 H2]. apply bool_decide_eq_true in H1.
    apply orb_prop in H2 as [H2|H2]; apply bool_decide_eq_true in H2; auto.
  - clear Hnull. case_bool_decide as Hid; [done|].
    inv_bind H. apply st_Next_OK in Ha as (-> & -> & _).
    inv_bind H. injection Ha as <- <-. inv_bind H. injection Ha as <- <-.
    case_bool_decide; [done|].
    inv_bind H. apply st_Next_OK in Ha as (_ & -> & _).
    destruct (cons_table_ f) as [table|]; [|done].
    destruct (table !! Peek (st s0)) as [cons_it|] eqn:Hcons; [|done].
    inv_bind H. unfold new_object in Ha. injection Ha as <- <-.
    inv_bind H. apply lift_OK in Ha as [Hreg ->].
    injection H as <- <-. simpl. repeat split; try done.
    by exists table, cons_it.
Qed.

Lemma CreateOrDie_begin_loop_inv CE f env s l inits s1 :
  (env = None -> CreateEmpty_new CE) ->
  CreateOrDie_begin CE f env s = OK (Some (l, inits), s1) ->
  loop_inv s l inits s1.
Proof.
  intros HCE H. apply CreateOrDie_begin_inv in H
    as (p & s_env & Henv & _ & <- & _ & _ & Hinst & table & cons_it
        & _ & _ & Hreg & ->).
  assert (new_environment s (env_ptr l) s_env) as [He Hv Ho Hst Hptr Hsome Hown].
  { destruct env; [by eapply Copy_new_environment|by eapply (HCE eq_refl)]. }
  apply run_RegisterInitializers_inv in Hreg as [Hm Hn];
    [|intros ? ? ?; by rewrite lookup_empty|intros ? ?; by rewrite lookup_empty].
  split; simpl; try done.
  - split; simpl; try done.
    + rewrite Ho. apply unchanged_app.
    + rewrite Hst. eapply stream_advances_trans; apply stream_advances_advance.
  - rewrite Hinst, Ho. lia.
  - exists (NewInstance cons_it). rewrite Hinst.
    split; [|done]. by rewrite lookup_app_r, Nat.sub_diag by lia.
  - rewrite Hst. lia.
Qed.

(** The [for] loop over the initializers stops at the first required
    member that was not initialized, with the current position of the
    stream. *)
Lemma check_required_find entries s :
  check_required entries s
  = match List.find missing entries with
    | Some (name, _) => Fatal (RequiredNotFound name (tellg (st s)))
    | None => OK (tt, s)
    end.
Proof.
  induction entries as [|[name mi] rest IH]; [done|].
  simpl. unfold missing at 1. simpl.
  destruct (Required mi && bool_decide (Initialized mi = 0)); [done|].
  apply IH.
Qed.

Lemma find_missing_None (inits : gmap string MemberInitializer) :
  List.find missing (map_to_list inits) = None
  <-> forall n mi, inits !! n = Some mi -> Required mi = true ->
                   Initialized mi <> 0.
Proof.
  split.
  - intros Hfind n mi Hmi Hreq Hzero.
    apply elem_of_map_to_list, list_elem_of_In in Hmi.
    eapply find_none in Hfind; [|done]. unfold missing in Hfind. simpl in Hfind.
    rewrite Hreq, bool_decide_true in Hfind by done. done.
  - intros Hall. destruct (List.find missing (map_to_list inits))
      as [[n mi]|] eqn:Hfind; [|done].
    apply find_some in Hfind as [Hin Hmiss].
    apply list_elem_of_In, elem_of_map_to_list in Hin.
    unfold missing in Hmiss. simpl in Hmiss.
    apply andb_prop in Hmiss as [Hreq Hzero].
    apply bool_decide_eq_true in Hzero. by destruct (Hall n mi).
Qed.

Lemma find_missing_Some (inits : gmap string MemberInitializer) n mi :
  List.find missing (map_to_list inits) = Some (n, mi) ->
  inits !! n = Some mi /\ Required mi = true /\ Initialized mi = 0.
Proof.
  intros Hfind. apply find_some in Hfind as [Hin Hmiss].
  apply list_elem_of_In, elem_of_map_to_list in Hin.
  unfold missing in Hmiss. simpl in Hmiss.
  apply andb_prop in Hmiss as [Hreq Hzero].
  by apply bool_decide_eq_true in Hzero.
Qed.

(** [CreateOrDie] after its loop, when it returns. *)
Lemma CreateOrDie_end_inv l inits s r s' :
  CreateOrDie_end l inits s = OK (r, s') ->
  Peek (st s) = ")"
  /\ r = Some (instance l)
  /\ List.find missing (map_to_list inits) = None
  /\ exists o init_str,
       objects s !! instance l = Some o
       /\ substr (str_ (st s)) (start l)
            (size_t_sub (tellg (advance (st s))) (start l)) = OK init_str
       /\ s' = after_PostInit l o init_str s.
Proof.
  unfold CreateOrDie_end. intros H.
  inv_bind H. injection Ha as <- <-. inv_bind H. injection Ha as <- <-.
  case_bool_decide as Hclose; [done|].
  inv_bind H. apply st_Next_OK in Ha as (_ & -> & _).
  inv_bind H. rewrite check_required_find in Ha.
  destruct (List.find missing (map_to_list inits)) as [[? ?]|]; [done|].
  injection Ha as _ <-.
  inv_bind H. injection Ha as <- <-. inv_bind H. injection Ha as <- <-.
  inv_bind H. apply lift_OK in Ha as [Hsub ->].
  inv_bind H. injection H as <- <-.
  unfold PostInit in Ha. simpl in Ha.
  destruct (objects s !! instance l) as [o|] eqn:Ho; [|done].
  injection Ha as _ <-. repeat split; try done.
  by exists o, a1.
Qed.

(** A call of [CreateOrDie] that returns went through its three parts. *)
Lemma CreateOrDie_inv R CE f env s r s' :
  CreateOrDie R CE f env s = OK (r, s') ->
  exists b s1,
    CreateOrDie_begin CE f env s = OK (b, s1)
    /\ match b with
       | None => r = None /\ s' = s1
       | Some (l, inits) =>
           exists inits' s2,
             member_init_list R (S (unread (st s1))) (type l) (env_ptr l)
                              inits s1 = OK (inits', s2)
             /\ CreateOrDie_end l inits' s2 = OK (r, s')
       end.
Proof.
  unfold CreateOrDie. intros H. inv_bind H. exists a, s0. split; [done|].
  destruct a as [[l inits]|]; [|by injection H as <- <-].
  inv_bind H. injection Ha0 as <- <-. inv_bind H. eauto.
Qed.

(** [CreateOrDie] changes nothing that exists when it is called. *)
Lemma CreateOrDie_extends R CE f env s r s' :
  ReadAndSet_frame R -> (env = None -> CreateEmpty_new CE) ->
  CreateOrDie R CE f env s = OK (r, s') ->
  extends s s'.
Proof.
  intros HR HCE H. apply CreateOrDie_inv in H as (b & s1 & Hbegin & H).
  destruct b as [[l inits]|].
  - destruct H as (inits' & s2 & Hloop & Hend).
    apply CreateOrDie_begin_loop_inv in Hbegin; [|done].
    eapply (member_init_list_invariant R (type l) (env_ptr l) (loop_inv s l))
      in Hloop as [Hinv _]; [|by eauto using loop_inv_step|done].
    apply CreateOrDie_end_inv in Hend as (_ & _ & _ & o & init_str & _ & _ & ->).
    destruct Hinv as [[He Hv Ho Hst] _ _ _ Hnew _ _ _ _].
    split; simpl; try done.
    + by apply unchanged_insert_ge.
    + eapply stream_advances_trans; [done|apply stream_advances_advance].
  - destruct H as [-> ->].
    apply CreateOrDie_begin_inv in Hbegin as (p & s_env & Henv & _ & _ & ->).
    assert (new_environment s p s_env) as [He Hv Ho Hst _ _ _].
    { destruct env; [by eapply Copy_new_environment|by eapply (HCE eq_refl)]. }
    split; simpl; try done.
    + rewrite Ho. apply unchanged_refl.
    + rewrite Hst. apply stream_advances_advance.
Qed.

(** ** The implementation of [ReadAndSet] keeps its contract *)

Lemma st_Next_extends a s s' : st_Next s = OK (a, s') -> extends s s'.
Proof.
  intros H. apply st_Next_OK in H as (_ & -> & _).
  apply with_st_advance_extends; [apply extends_refl|].
  apply stream_advances_advance.
Qed.

Lemma read_scalar_extends create env x T s v s' :
  create_extends create ->
  read_scalar create env x T s = OK (v, s') -> extends s s'.
Proof.
  intros Hc H. unfold read_scalar in H.
  inv_bind H. unfold deref_env in Ha. destruct (envs s !! env); [|done].
  injection Ha as <- <-. inv_bind H. injection Ha as <- <-.
  destruct (_ && _).
  - destruct ((Get _ _ _ _).2) as [[[] [w|]]| | |]; try done.
    inv_bind H. injection H as <- <-. by eapply st_Next_extends.
  - destruct T as [| | | | |T|]; try done.
    + destruct (_ && _); [|done]. inv_bind H. injection H as <- <-.
      by eapply st_Next_extends.
    + destruct (if bool_decide _ then _ else _); [|done].
      inv_bind H. injection H as <- <-. by eapply st_Next_extends.
    + destruct (bool_decide _); [|done]. inv_bind H. injection H as <- <-.
      by eapply st_Next_extends.
    + destruct (bool_decide _); [|done]. inv_bind H. injection H as <- <-.
      by eapply st_Next_extends.
    + destruct T; try done. inv_bind H. injection H as <- <-. by eapply Hc.
Qed.

Lemma read_elements_extends create fuel env x T s vs s' :
  create_extends create ->
  read_elements create fuel env x T s = OK (vs, s') -> extends s s'.
Proof.
  intros Hc. revert s vs s'. induction fuel as [|fuel IH]; intros s vs s' H.
  - simpl in H. inv_bind H. injection Ha as <- <-.
    case_bool_decide; [|done]. inv_bind H. injection H as <- <-.
    by eapply st_Next_extends.
  - simpl in H. inv_bind H. injection Ha as <- <-.
    case_bool_decide.
    { inv_bind H. injection H as <- <-. by eapply st_Next_extends. }
    inv_bind H. apply read_scalar_extends in Ha; [|done].
    inv_bind H. injection Ha0 as <- <-. inv_bind H. injection Ha0 as <- <-.
    eapply extends_trans; [done|].
    case_bool_decide.
    + inv_bind H. apply st_Next_extends in Ha0. inv_bind H.
      injection H as <- <-. eapply extends_trans; [done|]. by eapply IH.
    + case_bool_decide; [|done]. inv_bind H. injection H as <- <-.
      by eapply st_Next_extends.
Qed.

Lemma read_value_extends create env x T s v s' :
  create_extends create ->
  read_value create env x T s = OK (v, s') -> extends s s'.
Proof.
  intros Hc H. unfold read_value in H.
  destruct T; try by eapply read_scalar_extends.
  inv_bind H. injection Ha as <- <-. inv_bind H. injection Ha as <- <-.
  case_bool_decide; [done|].
  inv_bind H. apply st_Next_extends in Ha.
  inv_bind H. injection Ha0 as <- <-. inv_bind H. injection H as <- <-.
  eapply extends_trans; [done|]. by eapply read_elements_extends.
Qed.

(** What a call of the implementation of [ReadAndSet] that returns has
    done. *)
Lemma ReadAndSet_impl_inv create this x ty s u s' :
  ReadAndSet_impl create this x ty s = OK (u, s') ->
  exists e tag p v s1 var_map e1,
    envs s !! this = Some e
    /\ types_ e !! x = None
    /\ GetVarMapForType e tag = Some p
    /\ read_value create this x (vm_type var_map) s = OK (v, s1)
    /\ varmaps s !! p = Some var_map
    /\ envs s1 !! this = Some e1
    /\ envs s' = <[this := mkEnvironmentImpl
                     (<[x := default tag (concrete_to_factory_type_ e !! tag)]>
                        (types_ e1))
                     (var_map_ e1) (concrete_to_factory_type_ e1) (debug_ e1)]>
                   (envs s1)
    /\ (exists var_map', varmaps s' = <[p := var_map']> (varmaps s1))
    /\ objects s' = objects s1 /\ st s' = st s1.
Proof.
  unfold ReadAndSet_impl. intros H.
  inv_bind H. unfold deref_env in Ha.
  destruct (envs s !! this) as [e|] eqn:He; [|done]. injection Ha as <- <-.
  destruct (Defined e x) eqn:Hdef; [done|].
  inv_bind H. injection Ha as <- <-.
  destruct (_ && _); [done|]. case_bool_decide as Htag; [done|].
  destruct (GetVarMapForType e _) as [p|] eqn:Hp; [|done].
  inv_bind H. unfold deref_varmap in Ha.
  destruct (varmaps s !! p) as [var_map|] eqn:Hvm; [|done].
  injection Ha as <- <-.
  inv_bind H. rename s0 into s1. inv_bind H. unfold deref_varmap in Ha0.
  destruct (varmaps s1 !! p) as [var_map'|] eqn:Hvm'; [|done].
  injection Ha0 as <- <-.
  inv_bind H. unfold store_varmap in Ha0. injection Ha0 as _ <-.
  inv_bind H. unfold deref_env in Ha0. simpl in Ha0.
  destruct (envs s1 !! this) as [e1|] eqn:He1; [|done]. injection Ha0 as <- <-.
  unfold store_env in H. injection H as _ <-. simpl.
  eexists e, _, p, a, s1, var_map, e1. repeat split; try done.
  - unfold Defined in Hdef. apply bool_decide_eq_false in Hdef.
    by apply eq_None_not_Some.
  - eauto.
Qed.

Lemma ReadAndSet_impl_frame create :
  create_extends create -> ReadAndSet_frame (ReadAndSet_impl create).
Proof.
  intros Hc this x ty s u s' H.
  apply ReadAndSet_impl_inv in H
    as (e & tag & p & v & s1 & var_map & e1 & He & _ & Hp & Hread & Hvm & He1
        & Henvs & (var_map' & Hvarmaps) & Hobjs & Hst).
  apply read_value_extends in Hread as [Eenvs Evarmaps Eobjs Est]; [|done].
  assert (e1 = e) as -> by (apply Eenvs in He; congruence).
  split.
  - intros i e0 Hi Hi0. rewrite Henvs, list_lookup_insert_ne by done. eauto.
  - intros e0 He0. assert (e0 = e) as -> by congruence.
    eexists. split.
    { rewrite Henvs. apply list_lookup_insert_eq. by apply lookup_lt_Some in He1. }
    simpl. split; [done|]. intros y Hy.
    destruct (decide (x = y)) as [->|Hne].
    + rewrite lookup_insert_eq. eauto.
    + by rewrite lookup_insert_ne.
  - intros i m Hown Hi. rewrite Hvarmaps. rewrite list_lookup_insert_ne; [eauto|].
    intros <-. apply Hown. unfold GetVarMapForType in Hp. by eexists e, _.
  - by rewrite Hobjs.
  - by rewrite Hst.
Qed.

Lemma ReadAndSet_impl_defines create :
  create_extends create -> ReadAndSet_defines (ReadAndSet_impl create).
Proof.
  intros Hc this x ty s u s' H.
  apply ReadAndSet_impl_inv in H
    as (e & tag & p & v & s1 & var_map & e1 & _ & _ & _ & _ & _ & He1
        & Henvs & _).
  eexists. split.
  { rewrite Henvs. apply list_lookup_insert_eq. by apply lookup_lt_Some in He1. }
  simpl. rewrite lookup_insert_eq. eauto.
Qed.

Lemma ReadAndSet_impl_rejects_defined create :
  ReadAndSet_rejects_defined (ReadAndSet_impl create).
Proof.
  intros this x ty s e He Hx. unfold ReadAndSet_impl.
  erewrite bind_eq; [|unfold deref_env; by rewrite He].
  unfold Defined. by rewrite bool_decide_true.
Qed.

Lemma var_map_table_new first maps tag q :
  var_map_table first maps !! tag = Some q -> (first <= q)%nat.
Proof.
  unfold var_map_table. intros Hq.
  apply elem_of_list_to_map_2, elem_of_lookup_imap in Hq
    as (i & m & [= _ ->] & _). lia.
Qed.

Lemma new_EnvironmentImpl_new fs debug s p s1 :
  new_EnvironmentImpl fs debug s = OK (p, s1) -> new_environment s p s1.
Proof.
  unfold new_EnvironmentImpl. intros [= <- <-].
  split; cbn [envs varmaps objects st]; try done.
  - apply unchanged_app.
  - apply unchanged_app.
  - rewrite lookup_app_r, Nat.sub_diag by lia. eauto.
  - intros q (e & tag & He & Hq). cbn [envs] in He.
    rewrite lookup_app_r, Nat.sub_diag in He by lia. injection He as <-.
    cbn [var_map_] in Hq. by apply var_map_table_new in Hq.
Qed.

Lemma CreateEmpty_impl_new fs : CreateEmpty_new (CreateEmpty_impl fs).
Proof. intros s p s1. exact (new_EnvironmentImpl_new fs 0 s p s1). Qed.

Lemma Factory_CreateOrDie_extends fs depth base env s r s' :
  Factory_CreateOrDie fs depth base env s = OK (r, s') -> extends s s'.
Proof.
  revert base env s r s'. induction depth as [|depth IH];
    intros base env s r s' H; [done|].
  simpl in H. destruct (factory_named fs base) as [f|]; [|done].
  eapply CreateOrDie_extends in H;
    [done| |intros _; apply CreateEmpty_impl_new].
  apply ReadAndSet_impl_frame. intros base' env' s0 r0 s0'. apply IH.
Qed.

Lemma EnvironmentImpl_ReadAndSet_frame fs depth :
  ReadAndSet_frame (EnvironmentImpl_ReadAndSet fs depth).
Proof.
  apply ReadAndSet_impl_frame. intros base env s r s'.
  apply Factory_CreateOrDie_extends.
Qed.

Lemma EnvironmentImpl_ReadAndSet_defines fs depth :
  ReadAndSet_defines (EnvironmentImpl_ReadAndSet fs depth).
Proof.
  apply ReadAndSet_impl_defines. intros base env s r s'.
  apply Factory_CreateOrDie_extends.
Qed.

Lemma EnvironmentImpl_ReadAndSet_rejects_defined fs depth :
  ReadAndSet_rejects_defined (EnvironmentImpl_ReadAndSet fs depth).
Proof. apply ReadAndSet_impl_rejects_defined. Qed.

(** ** The claims about the factory *)

(** C7: when the next token is the reserved word [nullptr] or the reserved
    word [NULL], [CreateOrDie] reads exactly that token and returns the
    null pointer.  The store it leaves is the store after the calling
    environment was copied (or an empty one created), whichever of the two
    words was read, and whatever is registered in the factory. *)
Theorem CreateOrDie_nullptr R CE f env s env_ptr s1 :
  match env with None => CE | Some e => Copy e end s = OK (env_ptr, s1) ->
  st s1 = st s ->
  PeekTokenType (st s) = RESERVED_WORD ->
  Peek (st s) = "nullptr" \/ Peek (st s) = "NULL" ->
  CreateOrDie R CE f env s = OK (None, with_st s1 (advance (st s)))
  /\ next_token_idx_ (advance (st s)) = S (next_token_idx_ (st s)).
Proof.
  intros Henv Hst Htype Hword. split; [|done].
  assert (is_Some (token_ (st s) !! next_token_idx_ (st s))) as [t Ht].
  { unfold Peek in Hword. destruct (token_ (st s) !! next_token_idx_ (st s));
      [eauto|by destruct Hword]. }
  assert (bool_decide (Peek (st s) = "nullptr")
          || bool_decide (Peek (st s) = "NULL") = true) as Hnull.
  { destruct Hword as [-> | ->]; by vm_compute. }
  assert (CreateOrDie_begin CE f env s
          = OK (None, with_st s1 (advance (st s)))) as Hbegin.
  { unfold CreateOrDie_begin. erewrite bind_eq by exact Henv.
    unfold st_PeekTokenStart, st_PeekTokenType, st_Peek, bind at 1 2 3.
    rewrite Hst, Htype, Hnull, bool_decide_true by done. simpl.
    unfold bind, st_Next. by rewrite Hst, Ht. }
  unfold CreateOrDie. by erewrite bind_eq by exact Hbegin.
Qed.

(** On the script [NULL], with the environment of a new interpreter as
    the calling environment. *)
Lemma CreateOrDie_nullptr_witness :
  exists s1,
    CreateOrDie Farm.ReadAndSet Farm.CreateEmpty Farm.Animal (Some 0%nat)
                (Farm.fresh 0 "NULL")
    = OK (None, with_st s1 (advance (st (Farm.fresh 0 "NULL"))))
    /\ next_token_idx_ (advance (st (Farm.fresh 0 "NULL"))) = 1%nat.
Proof.
  assert (exists p s1, Copy 0%nat (Farm.fresh 0 "NULL") = OK (p, s1)
                       /\ st s1 = st (Farm.fresh 0 "NULL"))
    as (p & s1 & HCopy & Hst).
  { eexists _, _. split; vm_compute; reflexivity. }
  exists s1.
  exact (CreateOrDie_nullptr Farm.ReadAndSet Farm.CreateEmpty Farm.Animal
           (Some 0%nat) _ p s1 HCopy Hst eq_refl (or_intror eq_refl)).
Defined.

(** C9: once [ReadAndSet] has returned, [Init] counts a parameter without
    a member pointer as initialized at once.  A parameter with a member
    pointer is counted only when the per-type map of the variable's type
    tag exists, is a [VarMap<T>] for the type [T] of the member, and holds
    the variable, whose value is then assigned to the member; in the three
    other cases [Init] returns without an error and the initializer and
    the object are as before.  To count is to add one to the count of the
    initializer and to change nothing else of it; to assign is to store
    the value of the variable in the data member the pointer points to,
    and to change nothing else.  A required parameter that is left with a
    count of zero makes the check after the argument list fail. *)
Theorem Init_counts R mi env s u s1 :
  R env (Name mi) (TypeName (member_type mi)) s = OK (u, s1) ->
  Initialized mi < INT_MAX ->
  (member_ mi = None -> Init R mi env s = OK (counted mi, s1))
  /\ (forall member e tag,
        member_ mi = Some member ->
        envs s1 !! env = Some e ->
        types_ e !! Name mi = Some tag ->
        match GetVarMapForType e tag with
        | None => Init R mi env s = OK (mi, s1)
        | Some p =>
            forall var_map, varmaps s1 !! p = Some var_map ->
              if bool_decide (vm_type var_map = member_type mi) then
                match vars_ var_map !! Name mi with
                | Some v =>
                    forall s2, write_member member v s1 = OK (tt, s2) ->
                               Init R mi env s = OK (counted mi, s2)
                | None => Init R mi env s = OK (mi, s1)
                end
              else Init R mi env s = OK (mi, s1)
        end)
  /\ (forall (inits : gmap string MemberInitializer) n mi' s',
        inits !! n = Some mi' -> Required mi' = true -> Initialized mi' = 0 ->
        exists n', check_required (map_to_list inits) s'
                   = Fatal (RequiredNotFound n' (tellg (st s'))))
  /\ (Initialized (counted mi) = Initialized mi + 1
      /\ Name (counted mi) = Name mi
      /\ Required (counted mi) = Required mi
      /\ member_type (counted mi) = member_type mi
      /\ member_ (counted mi) = member_ mi)
  /\ (forall member e tag p var_map v o,
        member_ mi = Some member ->
        envs s1 !! env = Some e ->
        types_ e !! Name mi = Some tag ->
        GetVarMapForType e tag = Some p ->
        varmaps s1 !! p = Some var_map ->
        vm_type var_map = member_type mi ->
        vars_ var_map !! Name mi = Some v ->
        objects s1 !! member.1 = Some o ->
        exists mi' s2,
          Init R mi env s = OK (mi', s2)
          /\ Initialized mi' = Initialized mi + 1
          /\ objects s2 !! member.1
             = Some (mkInstance (concrete o) (<[member.2 := v]> (members o))
                                (post_init_calls o))
          /\ (forall i, i <> member.1 -> objects s2 !! i = objects s1 !! i)
          /\ envs s2 = envs s1 /\ varmaps s2 = varmaps s1 /\ st s2 = st s1).
Proof.
  intros HR Hmax.
  assert (forall member e tag,
            member_ mi = Some member ->
            envs s1 !! env = Some e ->
            types_ e !! Name mi = Some tag ->
            match GetVarMapForType e tag with
            | None => Init R mi env s = OK (mi, s1)
            | Some p =>
                forall var_map, varmaps s1 !! p = Some var_map ->
                  if bool_decide (vm_type var_map = member_type mi) then
                    match vars_ var_map !! Name mi with
                    | Some v =>
                        forall s2, write_member member v s1 = OK (tt, s2) ->
                                   Init R mi env s = OK (counted mi, s2)
                    | None => Init R mi env s = OK (mi, s1)
                    end
                  else Init R mi env s = OK (mi, s1)
            end) as Hmember.
  { unfold Init. erewrite bind_eq by exact HR.
    intros member e tag -> He Htag.
    erewrite bind_eq by (unfold deref_env; by rewrite He).
    unfold GetVarMap, GetType. rewrite Htag. simpl.
    destruct (GetVarMapForType e tag) as [p|]; [|done].
    intros var_map Hp.
    case_bool_decide as HT; [destruct (vars_ var_map !! Name mi) as [v|] eqn:Hv|].
    + intros s2 Hs2.
      cbv [bind lift dynamic_cast deref_varmap VarMap_Get ret].
      rewrite Hp, bool_decide_true, Hp, Hv, Hs2 by done.
      unfold incr_initialized. by rewrite bool_decide_true.
    + cbv [bind lift dynamic_cast deref_varmap VarMap_Get ret].
      by rewrite Hp, bool_decide_true, Hp, Hv by done.
    + cbv [bind lift dynamic_cast deref_varmap VarMap_Get ret].
      by rewrite Hp, bool_decide_false by done. }
  split_and!.
  - intros Hnone. unfold Init. erewrite bind_eq by exact HR.
    rewrite Hnone. unfold incr_initialized. by rewrite bool_decide_true.
  - exact Hmember.
  - intros inits n mi' s' Hmi' Hreq Hzero. rewrite check_required_find.
    destruct (List.find missing (map_to_list inits)) as [[n' ?]|] eqn:Hfind;
      [by exists n'|].
    by destruct (proj1 (find_missing_None inits) Hfind n mi').
  - reflexivity.
  - reflexivity.
  - reflexivity.
  - reflexivity.
  - reflexivity.
  - intros member e tag p var_map v o Hm He Htag Hp Hvm HT Hv Ho.
    pose proof (Hmember member e tag Hm He Htag) as H.
    rewrite Hp in H. specialize (H var_map Hvm).
    rewrite bool_decide_true, Hv in H by done.
    assert (write_member member v s1
            = OK (tt, mkState (envs s1) (varmaps s1)
                        (<[member.1 := mkInstance (concrete o)
                                         (<[member.2 := v]> (members o))
                                         (post_init_calls o)]> (objects s1))
                        (st s1))) as Hwrite
      by (unfold write_member; by rewrite Ho).
    eexists _, _. split; [exact (H _ Hwrite)|]. cbn [envs varmaps objects st].
    split_and!; try done.
    + apply list_lookup_insert_eq. by apply lookup_lt_Some in Ho.
    + intros i Hi. by apply list_lookup_insert_ne.
Qed.

(** Four initializers for [age], on the script [5]: a temporary; an [int]
    member of a [Cow], which is assigned; a [shared_ptr<int>] member, whose
    type name is [int] too, for which the downcast of the map of [int]
    fails; and an [int] member when the map of [int] has no value for the
    name. *)
Lemma Init_counts_witness :
  (exists s1,
     Init Farm.ReadAndSet (mkMemberInitializer "age" 0 false TInt None) 0%nat
          (Farm.fresh 0 "5")
     = OK (mkMemberInitializer "age" 1 false TInt None, s1))
  /\ (exists mi' s2 o,
        Init Farm.ReadAndSet
             (mkMemberInitializer "age" 0 false TInt (Some (0%nat, "age")))
             0%nat (Farm.with_cow "5") = OK (mi', s2)
        /\ Initialized mi' = 1
        /\ objects s2 !! 0%nat = Some o
        /\ members o !! "age" = Some (VInt 5))
  /\ (exists s1,
        Init Farm.ReadAndSet
             (mkMemberInitializer "age" 0 false (TSharedPtr TInt)
                                  (Some (0%nat, "age")))
             0%nat (Farm.with_cow "5")
        = OK (mkMemberInitializer "age" 0 false (TSharedPtr TInt)
                                  (Some (0%nat, "age")), s1)
        /\ objects s1 = objects (Farm.with_cow "5"))
  /\ Init (fun _ _ _ => ret tt)
          (mkMemberInitializer "age" 0 false TInt (Some (0%nat, "age")))
          0%nat Farm.out_of_sync
     = OK (mkMemberInitializer "age" 0 false TInt (Some (0%nat, "age")),
           Farm.out_of_sync).
Proof.
  split_and!.
  - evar (s1 : State).
    assert (Farm.ReadAndSet 0%nat "age" "int" (Farm.fresh 0 "5") = OK (tt, s1))
      as HR by (subst s1; vm_compute; reflexivity).
    exists s1.
    exact (proj1 (Init_counts Farm.ReadAndSet
                    (mkMemberInitializer "age" 0 false TInt None) 0%nat
                    (Farm.fresh 0 "5") tt s1 HR eq_refl) eq_refl).
  - evar (s1 : State). evar (e : EnvironmentImpl). evar (p : nat).
    evar (var_map : VarMap). evar (o : Instance).
    assert (Farm.ReadAndSet 0%nat "age" "int" (Farm.with_cow "5") = OK (tt, s1))
      as HR by (subst s1; vm_compute; reflexivity).
    assert (envs s1 !! 0%nat = Some e) as He
      by (subst s1 e; vm_compute; reflexivity).
    assert (types_ e !! "age" = Some "int") as Htag
      by (subst e; vm_compute; reflexivity).
    assert (GetVarMapForType e "int" = Some p) as Hp
      by (subst e p; vm_compute; reflexivity).
    assert (varmaps s1 !! p = Some var_map) as Hvm
      by (subst s1 p var_map; vm_compute; reflexivity).
    assert (vm_type var_map = TInt) as HT by (subst var_map; reflexivity).
    assert (vars_ var_map !! "age" = Some (VInt 5)) as Hv
      by (subst var_map; vm_compute; reflexivity).
    assert (objects s1 !! 0%nat = Some o) as Ho
      by (subst s1 o; vm_compute; reflexivity).
    destruct (proj2 (proj2 (proj2 (proj2
                (Init_counts Farm.ReadAndSet
                   (mkMemberInitializer "age" 0 false TInt
                                        (Some (0%nat, "age")))
                   0%nat (Farm.with_cow "5") tt s1 HR eq_refl))))
                (0%nat, "age") e "int" p var_map (VInt 5) o
                eq_refl He Htag Hp Hvm HT Hv Ho)
      as (mi' & s2 & HInit & Hcount & Hobj & _).
    exists mi', s2. eexists. split; [exact HInit|]. split; [exact Hcount|].
    split; [exact Hobj|]. cbn [members snd]. apply lookup_insert_eq.
  - evar (s1 : State). evar (e : EnvironmentImpl). evar (p : nat).
    evar (var_map : VarMap).
    assert (Farm.ReadAndSet 0%nat "age" "int" (Farm.with_cow "5") = OK (tt, s1))
      as HR by (subst s1; vm_compute; reflexivity).
    assert (envs s1 !! 0%nat = Some e) as He
      by (subst s1 e; vm_compute; reflexivity).
    assert (types_ e !! "age" = Some "int") as Htag
      by (subst e; vm_compute; reflexivity).
    assert (GetVarMapForType e "int" = Some p) as Hp
      by (subst e p; vm_compute; reflexivity).
    assert (varmaps s1 !! p = Some var_map) as Hvm
      by (subst s1 p var_map; vm_compute; reflexivity).
    assert (vm_type var_map <> TSharedPtr TInt) as HT
      by (subst var_map; discriminate).
    pose proof (proj1 (proj2
                  (Init_counts Farm.ReadAndSet
                     (mkMemberInitializer "age" 0 false (TSharedPtr TInt)
                                          (Some (0%nat, "age")))
                     0%nat (Farm.with_cow "5") tt s1 HR eq_refl))
                  (0%nat, "age") e "int" eq_refl He Htag) as H.
    rewrite Hp in H. specialize (H var_map Hvm).
    rewrite (bool_decide_false _ HT) in H.
    exists s1. split; [exact H|]. subst s1. vm_compute. reflexivity.
  - pose proof (proj1 (proj2
                  (Init_counts (fun _ _ _ => ret tt)
                     (mkMemberInitializer "age" 0 false TInt
                                          (Some (0%nat, "age")))
                     0%nat Farm.out_of_sync tt Farm.out_of_sync eq_refl eq_refl))
                  (0%nat, "age") _ "int" eq_refl eq_refl eq_refl) as H.
    exact (H _ eq_refl).
Defined.

Lemma Copy_deep_copy this s p s1 :
  Copy this s = OK (p, s1) ->
  exists e e', envs s !! this = Some e /\ envs s1 !! p = Some e'
               /\ deep_copy s e s1 e'.
Proof.
  intros H. apply Copy_spec in H
    as (-> & _ & _ & _ & _ & e & e' & He & He' & Ht & Hc & Hd & Hdom & Hnew
        & Hval).
  exists e, e'. repeat split; try done.
  intros Hok tag x. unfold var_value.
  destruct (var_map_ e !! tag) as [q|] eqn:Hq.
  - destruct (Hok _ _ Hq) as [m Hm].
    destruct (Hval _ _ _ Hq Hm) as (q' & -> & Hq'). simpl.
    by rewrite Hq', Hm.
  - apply not_elem_of_dom in Hq. rewrite <- Hdom in Hq.
    apply not_elem_of_dom in Hq. by rewrite Hq.
Qed.

(** C1: a call of [CreateOrDie] with a calling environment first makes a
    deep copy of that environment, in new cells of the store.  When the
    call returns, every environment, per-type map and object that existed
    at the call is as it was, the calling environment and the values of
    its variables included: all that was written during the construction
    went to cells made by the call.  The environment passed to [PostInit]
    of the returned instance is that copy. *)
Theorem CreateOrDie_writes_to_a_copy R CE f env s r s' :
  ReadAndSet_frame R ->
  CreateOrDie R CE f (Some env) s = OK (r, s') ->
  exists copy s1 e e',
    Copy env s = OK (copy, s1)
    /\ copy = length (envs s)
    /\ envs s !! env = Some e /\ envs s1 !! copy = Some e'
    /\ deep_copy s e s1 e'
    /\ extends s s'
    /\ envs s' !! env = Some e
    /\ (env_ok s e -> forall tag x, var_value s' e tag x = var_value s e tag x)
    /\ (forall o, r = Some o ->
          exists inst init_str,
            objects s' !! o = Some inst
            /\ post_init_calls inst = [(copy, init_str)]).
Proof.
  intros HR H.
  pose proof (CreateOrDie_extends R CE f (Some env) s r s' HR
                ltac:(done) H) as Hext.
  apply CreateOrDie_inv in H as (b & s1 & Hbegin & H).
  pose proof Hbegin as Hb.
  apply CreateOrDie_begin_inv in Hb as (copy & s_env & HCopy & Hb).
  destruct (Copy_deep_copy _ _ _ _ HCopy) as (e & e' & He & He' & Hdeep).
  exists copy, s_env, e, e'.
  split; [done|]. split; [by apply Copy_spec in HCopy as [? _]|].
  split_and!; try done.
  - by apply (ext_envs _ _ Hext).
  - intros Hok tag x. unfold var_value.
    destruct (var_map_ e !! tag) as [q|] eqn:Hq; [|done]. simpl.
    destruct (Hok _ _ Hq) as [m Hm].
    by rewrite Hm, (ext_varmaps _ _ Hext _ _ Hm).
  - intros o ->. destruct b as [[l inits]|]; [|by destruct H].
    destruct H as (inits' & s2 & Hloop & Hend).
    destruct Hb as (_ & Hl & _).
    apply CreateOrDie_begin_loop_inv in Hbegin; [|done].
    eapply (member_init_list_invariant R (type l) (env_ptr l) (loop_inv s l))
      in Hloop as [Hinv _]; [|by eauto using loop_inv_step|done].
    apply CreateOrDie_end_inv in Hend
      as (_ & [= ->] & _ & o & init_str & Ho & _ & ->).
    destruct (li_instance _ _ _ _ Hinv) as (o' & Ho' & Hcalls).
    assert (o' = o) as -> by congruence.
    eexists _, init_str. simpl. split.
    + apply list_lookup_insert_eq. by apply lookup_lt_Some in Ho.
    + simpl. by rewrite Hcalls, Hl.
Qed.

Lemma tokens_ok_lookup len from ts i t :
  tokens_ok len from ts = true -> ts !! i = Some t ->
  (from <= tok_start t <= curr_pos t)%nat /\ (curr_pos t <= len)%nat.
Proof.
  revert from i. induction ts as [|t0 ts IH]; intros from i Hok Hi; [done|].
  simpl in Hok. repeat (apply andb_prop in Hok as [Hok ?]).
  apply Nat.leb_le in Hok. repeat match goal with
    | H : (_ <=? _)%nat = true |- _ => apply Nat.leb_le in H end.
  destruct i as [|i].
  - injection Hi as <-. lia.
  - simpl in Hi. destruct (IH _ _ ltac:(done) Hi). lia.
Qed.

Lemma tokens_ok_order len from ts i j ti tj :
  tokens_ok len from ts = true -> (i < j)%nat ->
  ts !! i = Some ti -> ts !! j = Some tj ->
  (curr_pos ti <= tok_start tj)%nat.
Proof.
  revert from i j. induction ts as [|t0 ts IH]; intros from i j Hok Hij Hi Hj;
    [done|].
  simpl in Hok. repeat (apply andb_prop in Hok as [Hok ?]).
  destruct i as [|i], j as [|j]; try lia.
  - injection Hi as <-. simpl in Hj.
    destruct (tokens_ok_lookup _ _ _ _ _ ltac:(done) Hj). lia.
  - simpl in Hi, Hj. eapply IH; [done| |done..]. lia.
Qed.

Lemma size_t_sub_nat (a b : nat) :
  (b <= a)%nat -> Z.of_nat a < 2 ^ 64 -> size_t_sub a b = (a - b)%nat.
Proof.
  intros Hle Hlt. unfold size_t_sub. rewrite Z.mod_small by lia. lia.
Qed.

(** The text between the start of the token the stream [t0] is in front
    of and the end of the token the later stream [t] is in front of. *)
Lemma substr_between t0 t tk0 tk :
  stream_ok t0 -> stream_advances t0 t ->
  (next_token_idx_ t0 < next_token_idx_ t)%nat ->
  token_ t0 !! next_token_idx_ t0 = Some tk0 ->
  token_ t !! next_token_idx_ t = Some tk ->
  PeekTokenStart t0 = tok_start tk0
  /\ tellg (advance t) = curr_pos tk
  /\ (tok_start tk0 <= curr_pos tk <= String.length (str_ t0))%nat
  /\ substr (str_ t) (PeekTokenStart t0)
            (size_t_sub (tellg (advance t)) (PeekTokenStart t0))
     = OK (String.substring (tok_start tk0) (curr_pos tk - tok_start tk0)
                            (str_ t0)).
Proof.
  intros [Hok Hlen] (Hstr & Htok & _) Hlt H0 H.
  rewrite Htok in H.
  destruct (tokens_ok_lookup _ _ _ _ _ Hok H0) as [? ?].
  destruct (tokens_ok_lookup _ _ _ _ _ Hok H) as [? ?].
  pose proof (tokens_ok_order _ _ _ _ _ _ _ Hok Hlt H0 H).
  assert (PeekTokenStart t0 = tok_start tk0) as Hstart
    by (unfold PeekTokenStart; by rewrite H0).
  assert (tellg (advance t) = curr_pos tk) as Hend
    by (unfold tellg; simpl; by rewrite Htok, H).
  rewrite Hstart, Hend, Hstr. repeat split; try lia.
  unfold substr. rewrite bool_decide_false by lia.
  rewrite size_t_sub_nat by lia. done.
Qed.

Lemma Peek_token t text :
  Peek t = text -> text <> EmptyString ->
  exists tk, token_ t !! next_token_idx_ t = Some tk /\ tok tk = text.
Proof.
  unfold Peek. destruct (token_ t !! next_token_idx_ t) as [tk|]; [eauto|].
  by intros <-.
Qed.

Lemma PeekTokenType_token t :
  PeekTokenType t = IDENTIFIER ->
  exists tk, token_ t !! next_token_idx_ t = Some tk
             /\ tok_type tk = IDENTIFIER.
Proof.
  unfold PeekTokenType.
  destruct (token_ t !! next_token_idx_ t) as [tk|]; [eauto|done].
Qed.

(** The state of a call of [CreateOrDie] that has read the type name and
    gone through its loop: the stream was at the token [first] when the
    call was entered and is now at the token [closing]. *)
Lemma CreateOrDie_at_closing R CE f env s l inits s1 inits' s2 :
  ReadAndSet_frame R -> (env = None -> CreateEmpty_new CE) ->
  CreateOrDie_begin CE f env s = OK (Some (l, inits), s1) ->
  member_init_list R (S (unread (st s1))) (type l) (env_ptr l) inits s1
  = OK (inits', s2) ->
  loop_inv s l inits' s2
  /\ start l = PeekTokenStart (st s)
  /\ (env_ptr l = length (envs s) \/ env = None)
  /\ (next_token_idx_ (st s) < next_token_idx_ (st s2))%nat
  /\ exists first closing,
       token_ (st s) !! next_token_idx_ (st s) = Some first
       /\ tok_type first = IDENTIFIER
       /\ token_ (st s2) !! next_token_idx_ (st s2) = Some closing
       /\ tok closing = ")".
Proof.
  intros HR HCE Hbegin Hloop.
  pose proof (CreateOrDie_begin_loop_inv _ _ _ _ _ _ _ HCE Hbegin) as Hinv.
  apply CreateOrDie_begin_inv in Hbegin
    as (p & s_env & Henv & Hid & Hp & Hstart & _ & _ & table & cons_it & _ & _
        & _ & Hs1).
  subst s1.
  assert (st s_env = st s /\ (p = length (envs s) \/ env = None)) as [Hst Hcopy].
  { destruct env as [e|].
    - apply Copy_spec in Henv as (? & _ & ? & _). auto.
    - split; [|by right]. by apply (HCE eq_refl) in Henv as [_ _ _ ? _ _ _]. }
  rewrite Hst in *.
  eapply (member_init_list_invariant R (type l) (env_ptr l) (loop_inv s l))
    in Hloop as [Hinv2 Hclose]; [|by eauto using loop_inv_step|done].
  apply PeekTokenType_token in Hid as (first & Hfirst & Hfirst').
  apply Peek_token in Hclose as (closing & Hclosing & Hclosing'); [|done].
  split_and!; try done.
  - destruct Hcopy; [left; congruence|by right].
  - apply (li_started _ _ _ _ Hinv2).
  - by exists first, closing.
Qed.

Lemma CreateOrDie_eq R CE f env s l inits s1 inits' s2 :
  CreateOrDie_begin CE f env s = OK (Some (l, inits), s1) ->
  member_init_list R (S (unread (st s1))) (type l) (env_ptr l) inits s1
  = OK (inits', s2) ->
  CreateOrDie R CE f env s = CreateOrDie_end l inits' s2.
Proof.
  intros Hbegin Hloop. unfold CreateOrDie.
  erewrite bind_eq by exact Hbegin. unfold bind at 1, get_state.
  by erewrite bind_eq by exact Hloop.
Qed.

(** [CreateOrDie] after its loop, in front of the closing parenthesis. *)
Lemma CreateOrDie_end_eq l inits s closing :
  token_ (st s) !! next_token_idx_ (st s) = Some closing ->
  tok closing = ")" ->
  CreateOrDie_end l inits s
  = match List.find missing (map_to_list inits) with
    | Some (n, _) => Fatal (RequiredNotFound n (tellg (advance (st s))))
    | None =>
        match substr (str_ (st s)) (start l)
                     (size_t_sub (tellg (advance (st s))) (start l)) with
        | OK init_str =>
            match objects s !! instance l with
            | Some o => OK (Some (instance l), after_PostInit l o init_str s)
            | None => Undefined "dangling instance pointer"
            end
        | Fatal e => Fatal e
        | Undefined w => Undefined w
        | OutOfFuel => OutOfFuel
        end
    end.
Proof.
  intros Hclosing Htok. unfold CreateOrDie_end.
  assert (Peek (st s) = ")") as HP by (unfold Peek; by rewrite Hclosing).
  erewrite (bind_eq st_Peek) by reflexivity.
  erewrite (bind_eq st_PeekTokenStart) by reflexivity.
  rewrite HP, bool_decide_false by (by intros []).
  erewrite (bind_eq st_Next)
    by (unfold st_Next; rewrite Hclosing; reflexivity).
  unfold bind at 1. rewrite check_required_find.
  destruct (List.find missing (map_to_list inits)) as [[n ?]|]; [done|].
  erewrite (bind_eq st_tellg) by reflexivity.
  erewrite (bind_eq st_str) by reflexivity.
  unfold bind at 1, lift. simpl.
  destruct (substr _ _ _) as [init_str| | |]; try done.
  unfold bind, PostInit. simpl.
  by destruct (objects s !! instance l).
Qed.

(** C4: a call of [CreateOrDie] that returns an instance has called the
    [PostInit] of that instance once, and not before the loop over the
    named arguments had ended: the store it returns is the one the loop
    left, with the closing parenthesis read and the call recorded.  The
    environment passed is the one the arguments were read into (the copy of
    the calling environment, when there is one), and the text passed is
    the part of the whole source from the first byte of the token the call
    started at, an identifier, to the byte after the closing
    parenthesis. *)
Theorem CreateOrDie_calls_PostInit_once R CE f env s o s' :
  ReadAndSet_frame R -> (env = None -> CreateEmpty_new CE) ->
  stream_ok (st s) ->
  CreateOrDie R CE f env s = OK (Some o, s') ->
  exists l inits s1 inits' s2 before first closing init_str,
    CreateOrDie_begin CE f env s = OK (Some (l, inits), s1)
    /\ member_init_list R (S (unread (st s1))) (type l) (env_ptr l) inits s1
       = OK (inits', s2)
    /\ o = instance l
    /\ (forall e, env = Some e ->
          exists s_env, Copy e s = OK (env_ptr l, s_env)
                        /\ env_ptr l = length (envs s))
    /\ objects s2 !! o = Some before /\ post_init_calls before = []
    /\ token_ (st s) !! next_token_idx_ (st s) = Some first
    /\ tok_type first = IDENTIFIER
    /\ token_ (st s) !! next_token_idx_ (st s2) = Some closing
    /\ tok closing = ")"
    /\ (tok_start first <= curr_pos closing <= String.length (str_ (st s)))%nat
    /\ init_str = String.substring (tok_start first)
                    (curr_pos closing - tok_start first) (str_ (st s))
    /\ s' = after_PostInit l before init_str s2
    /\ exists inst, objects s' !! o = Some inst
                    /\ post_init_calls inst = [(env_ptr l, init_str)].
Proof.
  intros HR HCE Hok H. apply CreateOrDie_inv in H as (b & s1 & Hbegin & H).
  destruct b as [[l inits]|]; [|by destruct H].
  destruct H as (inits' & s2 & Hloop & Hend).
  destruct (CreateOrDie_at_closing _ _ _ _ _ _ _ _ _ _ HR HCE Hbegin Hloop)
    as (Hinv & Hstart & Hcopy & Hlt & first & closing & Hfirst & Hid
        & Hclosing & Hclose).
  pose proof (ext_st _ _ (li_extends _ _ _ _ Hinv)) as Hadv.
  destruct (substr_between _ _ _ _ Hok Hadv Hlt Hfirst Hclosing)
    as (_ & _ & Hrange & Hsub).
  rewrite (CreateOrDie_end_eq _ _ _ _ Hclosing Hclose) in Hend.
  destruct (List.find missing (map_to_list inits')) as [[? ?]|]; [done|].
  rewrite Hstart, Hsub in Hend.
  destruct (li_instance _ _ _ _ Hinv) as (before & Hbefore & Hcalls).
  rewrite Hbefore in Hend. injection Hend as <- <-.
  eexists l, inits, s1, inits', s2, before, first, closing, _.
  split_and!; try done.
  - intros e ->.
    apply CreateOrDie_begin_inv in Hbegin as (p & s_env & HCopy & _ & <- & _).
    exists s_env. split; [done|]. by destruct Hcopy.
  - destruct Hadv as (_ & <- & _). done.
  - lia.
  - lia.
  - eexists. split.
    + simpl. apply list_lookup_insert_eq. by apply lookup_lt_Some in Hbefore.
    + simpl. by rewrite Hcalls.
Qed.

(** C2, as stated, fails: for [Cow(age(5))] the required member [name] is
    missing and the call fails, but the position it reports is 11, the
    offset just past the closing parenthesis, which stands at offset 10. *)
Lemma CreateOrDie_reports_the_offset_after_the_parenthesis :
  exists closing,
    token_ (st (Farm.fresh 0 "Cow(age(5))")) !! 6%nat = Some closing
    /\ tok closing = ")"
    /\ token_ (st (Farm.fresh 0 "Cow(age(5))")) !! 7%nat = None
    /\ tok_start closing = 10%nat
    /\ Farm.create "Cow(age(5))" = Fatal (RequiredNotFound "name" 11).
Proof. eexists. split_and!; vm_compute; reflexivity. Qed.

(** C2, amended: when the argument list has been read to its closing
    parenthesis, [CreateOrDie] fails with the error for a missing required
    member if some initializer is required and has a count of zero, and
    the position it reports is the offset just past the closing
    parenthesis; otherwise it returns the instance it constructed. *)
Theorem CreateOrDie_required_members R CE f env s l inits s1 inits' s2 :
  ReadAndSet_frame R -> (env = None -> CreateEmpty_new CE) ->
  stream_ok (st s) ->
  CreateOrDie_begin CE f env s = OK (Some (l, inits), s1) ->
  member_init_list R (S (unread (st s1))) (type l) (env_ptr l) inits s1
  = OK (inits', s2) ->
  exists closing,
    token_ (st s2) !! next_token_idx_ (st s2) = Some closing
    /\ tok closing = ")"
    /\ ((exists n mi, inits' !! n = Some mi /\ Required mi = true
                      /\ Initialized mi = 0) ->
        exists n mi, inits' !! n = Some mi /\ Required mi = true
                     /\ Initialized mi = 0
                     /\ CreateOrDie R CE f env s
                        = Fatal (RequiredNotFound n (curr_pos closing)))
    /\ ((forall n mi, inits' !! n = Some mi -> Required mi = true ->
                      Initialized mi <> 0) ->
        exists s', CreateOrDie R CE f env s = OK (Some (instance l), s')).
Proof.
  intros HR HCE Hok Hbegin Hloop.
  destruct (CreateOrDie_at_closing _ _ _ _ _ _ _ _ _ _ HR HCE Hbegin Hloop)
    as (Hinv & Hstart & _ & Hlt & first & closing & Hfirst & _
        & Hclosing & Hclose).
  pose proof (ext_st _ _ (li_extends _ _ _ _ Hinv)) as Hadv.
  destruct (substr_between _ _ _ _ Hok Hadv Hlt Hfirst Hclosing)
    as (_ & Hend & _ & Hsub).
  exists closing. split_and!; try done.
  - intros (n & mi & Hmi & Hreq & Hzero).
    rewrite (CreateOrDie_eq _ _ _ _ _ _ _ _ _ _ Hbegin Hloop).
    rewrite (CreateOrDie_end_eq _ _ _ _ Hclosing Hclose).
    destruct (List.find missing (map_to_list inits')) as [[n' mi']|] eqn:Hfind.
    + apply find_missing_Some in Hfind as (? & ? & ?).
      exists n', mi'. by rewrite Hend.
    + by destruct (proj1 (find_missing_None inits') Hfind n mi).
  - intros Hall.
    rewrite (CreateOrDie_eq _ _ _ _ _ _ _ _ _ _ Hbegin Hloop).
    rewrite (CreateOrDie_end_eq _ _ _ _ Hclosing Hclose).
    rewrite (proj2 (find_missing_None inits') Hall), Hstart, Hsub.
    destruct (li_instance _ _ _ _ Hinv) as (before & -> & _). eauto.
Qed.

(** The loop from the start is the loop from any iteration it reaches. *)
Lemma loop_reaches_unroll R type env_ptr inits s names inits' s' fuel :
  loop_reaches R type env_ptr inits s names inits' s' ->
  member_init_list R (length names + fuel) type env_ptr inits s
  = member_init_list R fuel type env_ptr inits' s'.
Proof.
  intros H. revert fuel. induction H as [|names inits1 s1 inits2 s2 H IH Hne Hstep];
    intros fuel; [done|].
  rewrite length_app. simpl.
  replace (length names + 1 + fuel)%nat with (length names + S fuel)%nat by lia.
  rewrite IH. simpl. erewrite (bind_eq st_Peek) by reflexivity.
  rewrite bool_decide_false by done. by erewrite bind_eq by exact Hstep.
Qed.

Lemma member_init_defines R type env_ptr inits s inits' s' names :
  ReadAndSet_frame R -> ReadAndSet_defines R ->
  (forall n mi, inits !! n = Some mi -> name_ mi = n) ->
  all_defined s env_ptr names ->
  member_init R type env_ptr inits s = OK (inits', s') ->
  all_defined s' env_ptr (names ++ [Peek (st s)]).
Proof.
  intros HR HD Hnames (e & He & Hdef) H.
  apply member_init_inv in H
    as (mi & mi' & s2 & _ & Hmi & HInit & _ & He' & _).
  apply Init_inv in HInit as (u & s1 & HRS & _ & _ & _ & _ & He2 & _).
  pose proof (HD _ _ _ _ _ _ HRS) as (e1 & He1 & Hx).
  apply HR in HRS as [_ Wself _ _ _].
  destruct (Wself e He) as (e1' & He1' & _ & Hmono).
  assert (e1' = e1) as -> by congruence.
  exists e1. split; [congruence|].
  intros n Hn. apply elem_of_app in Hn as [Hn|Hn]; [auto|].
  apply list_elem_of_singleton in Hn as ->.
  unfold Name in Hx. by rewrite (Hnames _ _ Hmi) in Hx.
Qed.

(** The second occurrence of a member name is a fatal error. *)
Lemma member_init_already_defined R type env_ptr inits s :
  ReadAndSet_rejects_defined R ->
  (forall n mi, inits !! n = Some mi -> name_ mi = n) ->
  all_defined s env_ptr [Peek (st s)] ->
  exists err, member_init R type env_ptr inits s = Fatal err.
Proof.
  intros HRej Hnames (e & He & Hdef).
  specialize (Hdef _ ltac:(by apply list_elem_of_singleton)).
  unfold member_init.
  erewrite (bind_eq st_PeekTokenType) by reflexivity.
  erewrite (bind_eq st_PeekTokenStart) by reflexivity.
  erewrite (bind_eq st_Peek) by reflexivity.
  case_bool_decide as Hid; [by eexists|].
  apply PeekTokenType_token in Hid as (tk & Htk & _).
  erewrite (bind_eq st_PeekTokenStart) by reflexivity.
  erewrite (bind_eq st_Next)
    by (unfold st_Next, Peek; rewrite Htk; reflexivity).
  assert (tok tk = Peek (st s)) as -> by (unfold Peek; by rewrite Htk).
  destruct (inits !! Peek (st s)) as [mi|] eqn:Hmi; [|by eexists].
  erewrite (bind_eq st_Peek) by reflexivity.
  erewrite (bind_eq st_PeekTokenStart) by reflexivity.
  case_bool_decide as Hopen; [by eexists|].
  destruct (Peek_token _ _ Hopen ltac:(done)) as (tk1 & Htk1 & _).
  erewrite (bind_eq st_Next)
    by (unfold st_Next; rewrite Htk1; reflexivity).
  exists (AlreadyDefined (Peek (st s))).
  apply bind_Fatal. unfold Init. apply bind_Fatal.
  unfold Name. rewrite (Hnames _ _ Hmi). by eapply HRej.
Qed.

Lemma loop_reaches_inv R s0 l inits s1 names inits2 s2 :
  ReadAndSet_frame R -> ReadAndSet_defines R -> ReadAndSet_rejects_defined R ->
  loop_inv s0 l inits s1 ->
  loop_reaches R (type l) (env_ptr l) inits s1 names inits2 s2 ->
  loop_inv s0 l inits2 s2
  /\ all_defined s2 (env_ptr l) names
  /\ NoDup names
  /\ (forall n, n ∈ names -> n <> ")")
  /\ (length names + next_token_idx_ (st s1) <= next_token_idx_ (st s2))%nat
  /\ (names <> [] -> next_token_idx_ (st s2) <= length (token_ (st s2)))%nat
  /\ token_ (st s2) = token_ (st s1).
Proof.
  intros HR HD HRej Hinv H.
  induction H as [|names inits1 s1' inits2 s2 H IH Hne Hstep].
  - split_and!; try done.
    + destruct (li_env _ _ _ _ Hinv) as [e He]. exists e. split; [done|].
      intros n Hn. by apply elem_of_nil in Hn.
    + constructor.
    + intros n Hn. by apply elem_of_nil in Hn.
  - destruct IH as (Hinv1 & Hdef & Hnd & Hclose & Hidx & _ & Htok).
    pose proof (member_init_defines _ _ _ _ _ _ _ _ HR HD
                  (li_names _ _ _ _ Hinv1) Hdef Hstep) as Hdef2.
    pose proof (loop_inv_step _ _ _ _ _ _ _ HR Hinv1 Hstep) as Hinv2.
    pose proof Hstep as Hstep'.
    apply member_init_inv in Hstep'
      as (mi & mi' & s3 & _ & _ & HInit & _ & _ & _ & _ & Hadv & Hlt & Hlen).
    apply Init_inv in HInit as (u & s4 & HRS & _ & _ & _ & _ & _ & _ & Hst4 & _).
    apply HR in HRS as [_ _ _ _ (_ & Htok4 & Hidx4)]. simpl in Htok4, Hidx4.
    destruct Hadv as (_ & Htok3 & _).
    split_and!; try done.
    + apply NoDup_app. split_and!; [done| |apply NoDup_singleton].
      intros n Hn Hn'. apply list_elem_of_singleton in Hn' as ->.
      destruct Hdef as (e & He & Hdef).
      destruct (member_init_already_defined R (type l) (env_ptr l) inits1 s1'
                  HRej (li_names _ _ _ _ Hinv1)) as [err Herr]; [|congruence].
      exists e. split; [done|]. intros n Hn'.
      apply list_elem_of_singleton in Hn' as ->. auto.
    + intros n Hn. apply elem_of_app in Hn as [Hn|Hn]; [auto|].
      by apply list_elem_of_singleton in Hn as ->.
    + rewrite length_app. simpl. rewrite Hst4 in Hlt. lia.
    + congruence.
Qed.

(** C5: in one invocation the member names that [CreateOrDie] has read and
    initialized are all different, and when the next member name is one
    that was read before in this invocation, [CreateOrDie] fails with a
    fatal error. *)
Theorem CreateOrDie_member_at_most_once R CE f env s l inits s1 names inits2 s2 :
  ReadAndSet_frame R -> ReadAndSet_defines R -> ReadAndSet_rejects_defined R ->
  (env = None -> CreateEmpty_new CE) ->
  CreateOrDie_begin CE f env s = OK (Some (l, inits), s1) ->
  loop_reaches R (type l) (env_ptr l) inits s1 names inits2 s2 ->
  NoDup names
  /\ (Peek (st s2) ∈ names ->
      exists err, CreateOrDie R CE f env s = Fatal err).
Proof.
  intros HR HD HRej HCE Hbegin Hreach.
  pose proof (CreateOrDie_begin_loop_inv _ _ _ _ _ _ _ HCE Hbegin) as Hinv.
  destruct (loop_reaches_inv _ _ _ _ _ _ _ _ HR HD HRej Hinv Hreach)
    as (Hinv2 & (e & He & Hdef) & Hnd & Hclose & Hidx & Hlen & Htok).
  split; [done|]. intros Hin.
  destruct (member_init_already_defined R (type l) (env_ptr l) inits2 s2
              HRej (li_names _ _ _ _ Hinv2)) as [err Herr].
  { exists e. split; [done|]. intros n Hn.
    apply list_elem_of_singleton in Hn as ->. auto. }
  exists err. unfold CreateOrDie. erewrite bind_eq by exact Hbegin.
  unfold bind at 1, get_state. apply bind_Fatal.
  assert (exists fuel, S (unread (st s1)) = (length names + S fuel)%nat)
    as [fuel ->].
  { exists (unread (st s1) - length names)%nat. unfold unread.
    destruct names as [|n names]; [simpl; lia|].
    specialize (Hlen ltac:(done)). rewrite Htok in Hlen. lia. }
  rewrite (loop_reaches_unroll _ _ _ _ _ _ _ _ _ Hreach). simpl.
  erewrite (bind_eq st_Peek) by reflexivity.
  rewrite bool_decide_false by auto. by apply bind_Fatal.
Qed.

(** ** The claims on the small registry *)

Lemma Farm_ReadAndSet_frame : ReadAndSet_frame Farm.ReadAndSet.
Proof. apply EnvironmentImpl_ReadAndSet_frame. Qed.

Lemma Farm_ReadAndSet_defines : ReadAndSet_defines Farm.ReadAndSet.
Proof. apply EnvironmentImpl_ReadAndSet_defines. Qed.

Lemma Farm_ReadAndSet_rejects_defined :
  ReadAndSet_rejects_defined Farm.ReadAndSet.
Proof. apply EnvironmentImpl_ReadAndSet_rejects_defined. Qed.

Lemma called_with_environment CE (e : nat) :
  Some e = None -> CreateEmpty_new CE.
Proof. done. Qed.

Lemma Farm_stream_ok src t :
  Lexer.tokenize src = Some t ->
  (tokens_ok (String.length (str_ t)) 0 (token_ t)
   && bool_decide (Z.of_nat (String.length (str_ t)) < 2 ^ 64)) = true ->
  stream_ok t.
Proof.
  intros _ H. apply andb_prop in H as [H1 H2].
  split; [done|]. by apply bool_decide_eq_true in H2.
Qed.

(** [Sheep(age(3), name("Dolly"))], called with the environment of a new
    interpreter: the environment 0 is as it was, and [PostInit] got the
    environment 1, the copy. *)
Lemma CreateOrDie_writes_to_a_copy_witness :
  exists r s',
    Farm.create Farm.dolly = OK (r, s')
    /\ exists copy s1 e e',
         Copy 0%nat (Farm.fresh 0 Farm.dolly) = OK (copy, s1)
         /\ copy = length (envs (Farm.fresh 0 Farm.dolly))
         /\ envs (Farm.fresh 0 Farm.dolly) !! 0%nat = Some e
         /\ envs s1 !! copy = Some e'
         /\ deep_copy (Farm.fresh 0 Farm.dolly) e s1 e'
         /\ extends (Farm.fresh 0 Farm.dolly) s'
         /\ envs s' !! 0%nat = Some e
         /\ (env_ok (Farm.fresh 0 Farm.dolly) e ->
             forall tag x,
               var_value s' e tag x = var_value (Farm.fresh 0 Farm.dolly) e tag x)
         /\ (forall o, r = Some o ->
               exists inst init_str,
                 objects s' !! o = Some inst
                 /\ post_init_calls inst = [(copy, init_str)]).
Proof.
  eexists _, _.
  refine (let H := _ in
          conj H (CreateOrDie_writes_to_a_copy Farm.ReadAndSet Farm.CreateEmpty
                    Farm.Animal 0%nat (Farm.fresh 0 Farm.dolly) _ _
                    Farm_ReadAndSet_frame H)).
  vm_compute. reflexivity.
Defined.

(** [Cow(age(5))]: the required [name] is missing, and the position
    reported is the one after the closing parenthesis. *)
Lemma CreateOrDie_required_members_witness :
  exists closing n mi,
    tok closing = ")" /\ Required mi = true /\ Initialized mi = 0
    /\ Farm.create Farm.nameless = Fatal (RequiredNotFound n (curr_pos closing)).
Proof.
  evar (l : Locals). evar (inits : gmap string MemberInitializer).
  evar (s1 : State). evar (inits' : gmap string MemberInitializer).
  evar (s2 : State).
  assert (CreateOrDie_begin Farm.CreateEmpty Farm.Animal (Some 0%nat)
            (Farm.fresh 0 Farm.nameless) = OK (Some (l, inits), s1)) as Hbegin.
  { subst l inits s1. vm_compute. reflexivity. }
  assert (member_init_list Farm.ReadAndSet (S (unread (st s1))) (type l)
            (env_ptr l) inits s1 = OK (inits', s2)) as Hloop.
  { subst l inits s1 inits' s2. vm_compute. reflexivity. }
  destruct (CreateOrDie_required_members Farm.ReadAndSet Farm.CreateEmpty
              Farm.Animal (Some 0%nat) (Farm.fresh 0 Farm.nameless)
              l inits s1 inits' s2 Farm_ReadAndSet_frame (called_with_environment _ _)
              (Farm_stream_ok Farm.nameless _ eq_refl eq_refl) Hbegin Hloop)
    as (closing & _ & Hclose & Hmissing & _).
  destruct Hmissing as (n & mi & _ & Hreq & Hzero & Hfatal).
  { exists "name", (mkMemberInitializer "name" 0 true TString (Some (0%nat, "name"))).
    subst inits'. split_and!; vm_compute; reflexivity. }
  exists closing, n, mi.
  split; [exact Hclose|]. split; [exact Hreq|]. split; [exact Hzero|].
  exact Hfatal.
Defined.

(** [Cow(name("Bessie"), age(5))]: [PostInit] is called once, with the
    copy of the calling environment and the whole specification. *)
Lemma CreateOrDie_calls_PostInit_once_witness :
  exists s',
    Farm.create Farm.bessie = OK (Some 0%nat, s')
    /\ (exists inst, objects s' !! 0%nat = Some inst
                     /\ post_init_calls inst = [(1%nat, Farm.bessie)]
                     /\ members inst !! "name" = Some (VString "Bessie")
                     /\ members inst !! "age" = Some (VInt 5))
    /\ exists l inits s1 inits' s2 before first closing init_str,
         CreateOrDie_begin Farm.CreateEmpty Farm.Animal (Some 0%nat)
                           (Farm.fresh 0 Farm.bessie)
         = OK (Some (l, inits), s1)
         /\ member_init_list Farm.ReadAndSet (S (unread (st s1))) (type l)
                             (env_ptr l) inits s1 = OK (inits', s2)
         /\ 0%nat = instance l
         /\ (forall e, Some 0%nat = Some e ->
               exists s_env,
                 Copy e (Farm.fresh 0 Farm.bessie) = OK (env_ptr l, s_env)
                 /\ env_ptr l = length (envs (Farm.fresh 0 Farm.bessie)))
         /\ objects s2 !! 0%nat = Some before /\ post_init_calls before = []
         /\ token_ (st (Farm.fresh 0 Farm.bessie))
              !! next_token_idx_ (st (Farm.fresh 0 Farm.bessie)) = Some first
         /\ tok_type first = IDENTIFIER
         /\ token_ (st (Farm.fresh 0 Farm.bessie)) !! next_token_idx_ (st s2)
            = Some closing
         /\ tok closing = ")"
         /\ (tok_start first <= curr_pos closing
             <= String.length (str_ (st (Farm.fresh 0 Farm.bessie))))%nat
         /\ init_str = String.substring (tok_start first)
                         (curr_pos closing - tok_start first)
                         (str_ (st (Farm.fresh 0 Farm.bessie)))
         /\ s' = after_PostInit l before init_str s2
         /\ exists inst, objects s' !! 0%nat = Some inst
                         /\ post_init_calls inst = [(env_ptr l, init_str)].
Proof.
  evar (s' : State).
  assert (Farm.create Farm.bessie = OK (Some 0%nat, s')) as H.
  { subst s'. vm_compute. reflexivity. }
  exists s'. split; [exact H|]. split.
  - subst s'. eexists. split_and!; vm_compute; reflexivity.
  - exact (CreateOrDie_calls_PostInit_once Farm.ReadAndSet Farm.CreateEmpty
             Farm.Animal (Some 0%nat) (Farm.fresh 0 Farm.bessie) 0%nat s'
             Farm_ReadAndSet_frame (called_with_environment _ _)
             (Farm_stream_ok Farm.bessie _ eq_refl eq_refl) H).
Defined.

(** [Cow(age(5), age(6))]: after [age(5)] the loop is in front of [age]
    again, and the call fails. *)
Lemma CreateOrDie_member_at_most_once_witness :
  NoDup ["age"] /\ exists err, Farm.create Farm.twice = Fatal err.
Proof.
  evar (l : Locals). evar (inits : gmap string MemberInitializer).
  evar (s1 : State). evar (inits2 : gmap string MemberInitializer).
  evar (s2 : State).
  assert (CreateOrDie_begin Farm.CreateEmpty Farm.Animal (Some 0%nat)
            (Farm.fresh 0 Farm.twice) = OK (Some (l, inits), s1)) as Hbegin.
  { subst l inits s1. vm_compute. reflexivity. }
  assert (member_init Farm.ReadAndSet (type l) (env_ptr l) inits s1
          = OK (inits2, s2)) as Hstep.
  { subst l inits s1 inits2 s2. vm_compute. reflexivity. }
  assert (Peek (st s1) = "age") as Hname by (subst s1; reflexivity).
  assert (Peek (st s2) = "age") as Hagain by (subst s2; reflexivity).
  assert (loop_reaches Farm.ReadAndSet (type l) (env_ptr l) inits s1
            ([] ++ [Peek (st s1)]) inits2 s2) as Hreach.
  { refine (reaches_next Farm.ReadAndSet (type l) (env_ptr l) inits s1
                          [] inits s1 inits2 s2
                          (reaches_start _ _ _ _ _) _ Hstep).
    rewrite Hname. discriminate. }
  destruct (CreateOrDie_member_at_most_once Farm.ReadAndSet Farm.CreateEmpty
              Farm.Animal (Some 0%nat) (Farm.fresh 0 Farm.twice)
              l inits s1 _ inits2 s2
              Farm_ReadAndSet_frame Farm_ReadAndSet_defines
              Farm_ReadAndSet_rejects_defined (called_with_environment _ _) Hbegin Hreach)
    as [Hnd Hfatal].
  rewrite Hname in Hnd. split; [exact Hnd|].
  apply Hfatal. rewrite Hagain, Hname. by apply list_elem_of_singleton.
Defined.

(** ** Further properties of the factory *)

(** *** Registration *)

Lemma run_RegisterInitializers_OK_inv instance calls inits inits' :
  run_RegisterInitializers instance calls inits = OK inits' ->
  NoDup (add_name <$> calls)
  /\ (forall a, a ∈ calls -> inits !! add_name a = None)
  /\ (forall a, a ∈ calls ->
        inits' !! add_name a = Some (new_initializer instance a))
  /\ (forall n, n ∉ add_name <$> calls -> inits' !! n = inits !! n).
Proof.
  revert inits. induction calls as [|a calls IH]; intros inits H.
  - simpl in H. injection H as <-. split_and!; [constructor|..|done].
    + intros a Ha. by apply elem_of_nil in Ha.
    + intros a Ha. by apply elem_of_nil in Ha.
  - simpl in H. unfold Add in H.
    destruct (inits !! add_name a) eqn:Hfree; [done|].
    fold (new_initializer instance a) in H.
    apply IH in H as (Hnd & Hrest & Hin & Hout).
    assert (add_name a ∉ add_name <$> calls) as Ha.
    { intros Hin'. apply list_elem_of_fmap in Hin' as (b & Heq & Hb).
      specialize (Hrest b Hb). by rewrite <- Heq, lookup_insert_eq in Hrest. }
    split_and!.
    + simpl. by constructor.
    + intros b Hb. apply elem_of_cons in Hb as [->|Hb]; [done|].
      specialize (Hrest b Hb).
      destruct (decide (add_name a = add_name b)) as [Heq|Hne].
      * by rewrite Heq, lookup_insert_eq in Hrest.
      * by rewrite lookup_insert_ne in Hrest.
    + intros b Hb. apply elem_of_cons in Hb as [->|Hb]; [|auto].
      by rewrite Hout, lookup_insert_eq.
    + intros n Hn. simpl in Hn. apply not_elem_of_cons in Hn as [Hne Hn].
      by rewrite Hout, lookup_insert_ne.
Qed.

Lemma run_RegisterInitializers_cases instance calls inits :
  (exists inits', run_RegisterInitializers instance calls inits = OK inits')
  \/ exists i name,
       (add_name <$> calls) !! i = Some name
       /\ NoDup (take i (add_name <$> calls))
       /\ (forall n, n ∈ take i (add_name <$> calls) -> inits !! n = None)
       /\ (is_Some (inits !! name) \/ name ∈ take i (add_name <$> calls))
       /\ run_RegisterInitializers instance calls inits
          = Fatal (TwoMembersSameName name).
Proof.
  revert inits. induction calls as [|a calls IH]; intros inits.
  - left. by eexists.
  - simpl. unfold Add. destruct (inits !! add_name a) as [mi|] eqn:Ha.
    + right. exists 0%nat, (add_name a). simpl. split_and!; try done.
      * constructor.
      * intros n Hn. by apply elem_of_nil in Hn.
      * left. eauto.
    + fold (new_initializer instance a).
      destruct (IH (<[add_name a := new_initializer instance a]> inits))
        as [?|(i & name & Hi & Hnd & Hfree & Hname & ->)]; [by left|].
      right. exists (S i), name. simpl.
      assert (add_name a ∉ take i (add_name <$> calls)) as Hfresh.
      { intros Hin. apply Hfree in Hin. by rewrite lookup_insert_eq in Hin. }
      split_and!; try done.
      * apply NoDup_cons. by split.
      * intros n Hn. apply elem_of_cons in Hn as [->|Hn]; [done|].
        pose proof (Hfree n Hn) as Hnone.
        rewrite lookup_insert_ne in Hnone; [done|]. by intros <-.
      * destruct Hname as [Hsome|Hin]; [|right; by right].
        destruct (decide (name = add_name a)) as [->|Hne].
        -- right. by left.
        -- left. by rewrite lookup_insert_ne in Hsome.
Qed.

Lemma run_RegisterInitializers_OK instance calls inits :
  (forall a, a ∈ calls -> inits !! add_name a = None) ->
  NoDup (add_name <$> calls) ->
  exists inits', run_RegisterInitializers instance calls inits = OK inits'.
Proof.
  revert inits. induction calls as [|a calls IH]; intros inits Hfree Hnd.
  - by eexists.
  - simpl. unfold Add. rewrite Hfree by apply list_elem_of_here.
    apply NoDup_cons in Hnd as [Ha Hnd]. apply IH; [|done].
    intros b Hb. rewrite lookup_insert_ne; [apply Hfree; by right|].
    intros Heq. apply Ha. rewrite Heq. by apply list_elem_of_fmap_2.
Qed.

(** X1: what [RegisterInitializers] leaves in a new [Initializers] object.
    When the names passed to [Add] are all different, every name is mapped
    to an initializer with that name, the type, the required flag and the
    member pointer of its call, and a count of zero, and there is no other
    entry.  When a name is passed twice, the registration is a fatal error
    at the first call whose name was passed before, and the error names
    that name. *)
Theorem RegisterInitializers_table (instance : nat) (calls : list AddCall) :
  (NoDup (add_name <$> calls) ->
   exists inits,
     run_RegisterInitializers instance calls ∅ = OK inits
     /\ (forall a, a ∈ calls ->
           inits !! add_name a = Some (new_initializer instance a))
     /\ (forall n, n ∉ add_name <$> calls -> inits !! n = None))
  /\ (~ NoDup (add_name <$> calls) ->
      exists i name,
        (add_name <$> calls) !! i = Some name
        /\ NoDup (take i (add_name <$> calls))
        /\ name ∈ take i (add_name <$> calls)
        /\ run_RegisterInitializers instance calls ∅
           = Fatal (TwoMembersSameName name)).
Proof.
  split.
  - intros Hnd.
    destruct (run_RegisterInitializers_OK instance calls ∅) as [inits H];
      [done..|].
    exists inits. split; [done|].
    pose proof (run_RegisterInitializers_OK_inv _ _ _ _ H)
      as (_ & _ & Hin & Hout).
    split; [done|]. intros n Hn. by rewrite Hout.
  - intros Hdup.
    destruct (run_RegisterInitializers_cases instance calls ∅)
      as [[inits H]|(i & name & Hi & Hnd & _ & [Hsome|Hin] & H)].
    + by apply run_RegisterInitializers_OK_inv in H as [? _].
    + rewrite lookup_empty in Hsome. by destruct Hsome.
    + by exists i, name.
Qed.

(** X2: after a call of [Register] for a name, [IsRegistered] of that name
    is true and the table holds the constructor that the call returned;
    for every other name [IsRegistered] answers as before the call.  The
    constructor passed in is deleted exactly when the name was registered
    before, and it is returned exactly when it was not. *)
Theorem Register_then_IsRegistered f c name p r :
  Register f c name p = OK r ->
  IsRegistered (reg_factory r) name = OK true
  /\ (exists table, cons_table_ (reg_factory r) = Some table
                    /\ table !! name = Some (reg_returned r))
  /\ (forall other, other <> name ->
        IsRegistered (reg_factory r) other = IsRegistered f other)
  /\ (IsRegistered f name = OK true -> reg_deleted r = Some p)
  /\ (IsRegistered f name = OK false ->
      reg_deleted r = None /\ reg_returned r = p).
Proof.
  unfold Register. intros H.
  destruct (decide (f_initialized_ f = 0)) as [Hz|Hnz].
  - rewrite bool_decide_true in H by done. simpl in H.
    rewrite lookup_empty in H. injection H as <-.
    unfold IsRegistered. simpl. rewrite (bool_decide_true _ Hz).
    rewrite lookup_insert_eq. split_and!; try done.
    + eexists. split; [done|]. by rewrite lookup_insert_eq.
    + intros other Hne. by rewrite lookup_insert_ne.
  - rewrite bool_decide_false in H by done.
    destruct (cons_table_ f) as [table|] eqn:Htable; [|done].
    destruct (table !! name) as [existing|] eqn:Hname.
    + injection H as <-. unfold IsRegistered. simpl.
      rewrite (bool_decide_false _ Hnz), Htable, Hname.
      split_and!; try done.
      by exists table.
    + injection H as <-. unfold IsRegistered. simpl.
      rewrite (bool_decide_false _ Hnz), Htable, Hname, lookup_insert_eq.
      split_and!; try done.
      * eexists. split; [done|]. by rewrite lookup_insert_eq.
      * intros other Hne. by rewrite lookup_insert_ne.
Qed.

(** [Ox] under the new name [Ox]: registered, and [Cow] still is. *)
Lemma Register_then_IsRegistered_witness :
  exists r,
    Register Farm.Animal (mkFactoryContainer 1 ["Animal"]) "Ox" Farm.Ox = OK r
    /\ IsRegistered (reg_factory r) "Ox" = OK true
    /\ IsRegistered (reg_factory r) "Cow" = OK true
    /\ reg_deleted r = None.
Proof.
  evar (r : Registered).
  assert (Register Farm.Animal (mkFactoryContainer 1 ["Animal"]) "Ox" Farm.Ox
          = OK r) as H by (subst r; vm_compute; reflexivity).
  destruct (Register_then_IsRegistered _ _ _ _ _ H)
    as (Hox & _ & Hother & _ & Hnew).
  exists r. split; [exact H|]. split; [exact Hox|]. split.
  - rewrite (Hother "Cow") by discriminate. vm_compute. reflexivity.
  - apply Hnew. vm_compute. reflexivity.
Defined.

Lemma union_list_to_map_cons_old (table : gmap string Constructor) name p rest :
  is_Some (table !! name) ->
  table ∪ list_to_map ((name, p) :: rest) = table ∪ list_to_map rest.
Proof.
  intros [existing Hname]. apply map_eq. intros i. simpl.
  rewrite !lookup_union. destruct (decide (i = name)) as [->|Hne].
  - rewrite Hname, lookup_insert_eq. by destruct (list_to_map rest !! name).
  - by rewrite lookup_insert_ne.
Qed.

Lemma union_list_to_map_cons_new (table : gmap string Constructor) name p rest :
  table !! name = None ->
  table ∪ list_to_map ((name, p) :: rest)
  = <[name := p]> table ∪ list_to_map rest.
Proof.
  intros Hname. apply map_eq. intros i. simpl.
  rewrite !lookup_union. destruct (decide (i = name)) as [->|Hne].
  - rewrite !lookup_insert_eq, Hname. by destruct (list_to_map rest !! name).
  - by rewrite !lookup_insert_ne.
Qed.

Lemma REGISTER_NAMED_all_initialized f c registrations table :
  f_initialized_ f <> 0 -> cons_table_ f = Some table ->
  REGISTER_NAMED_all f c registrations
  = OK (mkFactory (base_name_ f) (f_initialized_ f)
                  (Some (table ∪ list_to_map registrations)), c).
Proof.
  intros Hinit. revert f table Hinit.
  induction registrations as [|[name p] rest IH]; intros f table Hinit Htable.
  - simpl. rewrite (right_id_L ∅ (∪)). destruct f. simpl in *. by subst.
  - cbn [REGISTER_NAMED_all]. unfold Register.
    rewrite bool_decide_false by done.
    rewrite Htable. destruct (table !! name) as [existing|] eqn:Hname;
      cbn [reg_factory reg_container].
    + rewrite (IH f table) by done.
      by rewrite union_list_to_map_cons_old by eauto.
    + rewrite (IH _ (<[name := p]> table)) by done.
      cbn [base_name_ f_initialized_].
      by rewrite union_list_to_map_cons_new by done.
Qed.

(** X3: the registrations of one base class, run from the state in which
    the program starts.  The factory is added to the container once, with
    the first registration; the table maps every registered name to the
    constructor that was registered first under it, so later registrations
    of a name have no effect. *)
Theorem REGISTER_NAMED_first_wins f c registrations :
  f_initialized_ f = 0 -> registrations <> [] ->
  REGISTER_NAMED_all f c registrations
  = OK (mkFactory (base_name_ f) 1 (Some (list_to_map registrations)),
        FactoryContainer_Add c (BaseName f))
  /\ forall name,
       (list_to_map registrations : gmap string Constructor) !! name
       = snd <$> List.find (fun np => bool_decide (np.1 = name)) registrations.
Proof.
  intros Hz Hne. split.
  - destruct registrations as [|[name p] rest]; [done|].
    cbn [REGISTER_NAMED_all]. unfold Register.
    rewrite bool_decide_true by done. cbn [cons_table_].
    rewrite lookup_empty. cbn [reg_factory reg_container].
    rewrite (REGISTER_NAMED_all_initialized _ _ _ (<[name := p]> ∅)) by done.
    cbn [base_name_ f_initialized_].
    rewrite <- union_list_to_map_cons_new by done.
    by rewrite (left_id_L ∅ (∪)).
  - intros name. clear Hne. induction registrations as [|[n p] rest IH];
      [done|].
    simpl. case_bool_decide as Hn; simpl in Hn.
    + subst. by rewrite lookup_insert_eq.
    + by rewrite lookup_insert_ne.
Qed.

(** The registrations of the farm, with a late [Ox] that asks for the name
    of [Cow]. *)
Lemma REGISTER_NAMED_first_wins_witness :
  REGISTER_NAMED_all Farm.Animal0 (mkFactoryContainer 0 [])
    [("Cow", Farm.Cow); ("Sheep", Farm.Sheep); ("Cow", Farm.Ox)]
  = OK (Farm.Animal, mkFactoryContainer 1 ["Animal"]).
Proof.
  rewrite (proj1 (REGISTER_NAMED_first_wins Farm.Animal0
                    (mkFactoryContainer 0 [])
                    [("Cow", Farm.Cow); ("Sheep", Farm.Sheep); ("Cow", Farm.Ox)]
                    eq_refl ltac:(discriminate))).
  vm_compute. reflexivity.
Defined.

(** X4: [CollectRegistered] adds to the set exactly the names for which
    [IsRegistered] is true, and removes nothing from it. *)
Theorem CollectRegistered_IsRegistered f registered collected :
  CollectRegistered f registered = OK collected ->
  forall name,
    name ∈ collected <-> name ∈ registered \/ IsRegistered f name = OK true.
Proof.
  unfold CollectRegistered, IsRegistered. intros H name.
  case_bool_decide.
  - injection H as <-. split; [auto|]. by intros [?|[=]].
  - destruct (cons_table_ f) as [table|]; [|done]. injection H as <-.
    rewrite elem_of_union, elem_of_dom. split.
    + intros [?|?]; [by left|right]. by rewrite bool_decide_true.
    + intros [?|Hreg]; [by left|right].
      injection Hreg as Hreg. by apply bool_decide_eq_true in Hreg.
Qed.

Lemma CollectRegistered_IsRegistered_witness :
  exists collected,
    CollectRegistered Farm.Animal ∅ = OK collected
    /\ "Cow" ∈ collected /\ "Sheep" ∈ collected /\ "Ox" ∉ collected.
Proof.
  exists (dom (<["Sheep" := Farm.Sheep]> (<["Cow" := Farm.Cow]> ∅)
               : gmap string Constructor) : gset string).
  assert (CollectRegistered Farm.Animal ∅
          = OK (dom (<["Sheep" := Farm.Sheep]> (<["Cow" := Farm.Cow]> ∅)
                     : gmap string Constructor))) as H.
  { unfold CollectRegistered. simpl. by rewrite (left_id_L ∅ (∪)). }
  pose proof (CollectRegistered_IsRegistered _ _ _ H) as Hiff.
  split; [exact H|]. split_and!.
  - apply Hiff. right. vm_compute. reflexivity.
  - apply Hiff. right. vm_compute. reflexivity.
  - intros Hox. apply Hiff in Hox as [Hox|Hox].
    + by apply not_elem_of_empty in Hox.
    + vm_compute in Hox. discriminate.
Defined.

(** *** The errors of [CreateOrDie] *)

Lemma st_Next_eq s t :
  token_ (st s) !! next_token_idx_ (st s) = Some t ->
  st_Next s = OK (Peek (st s), with_st s (advance (st s))).
Proof. intros Ht. unfold st_Next, Peek. by rewrite Ht. Qed.

(** [CreateOrDie] up to the look-up of the type name, when the stream
    starts with an identifier and an opening parenthesis. *)
Lemma CreateOrDie_begin_head CE f env s p s1 :
  match env with None => CE | Some e => Copy e end s = OK (p, s1) ->
  st s1 = st s ->
  PeekTokenType (st s) = IDENTIFIER ->
  Peek (advance (st s)) = "(" ->
  CreateOrDie_begin CE f env s
  = match cons_table_ f with
    | None => Undefined "null cons_table_"
    | Some table =>
        match table !! Peek (st s) with
        | None => Fatal (UnknownType (Peek (st s)))
        | Some cons_it =>
            match run_RegisterInitializers (length (objects s1))
                    (RegisterInitializers cons_it) ∅ with
            | OK inits =>
                OK (Some (mkLocals p (PeekTokenStart (st s)) (Peek (st s))
                                   (length (objects s1)), inits),
                    mkState (envs s1) (varmaps s1)
                            (objects s1 ++ [NewInstance cons_it])
                            (advance (advance (st s))))
            | Fatal e => Fatal e
            | Undefined w => Undefined w
            | OutOfFuel => OutOfFuel
            end
        end
    end.
Proof.
  intros Henv Hst Hid Hparen.
  destruct (PeekTokenType_token _ Hid) as (t & Ht & _).
  destruct (Peek_token (advance (st s)) "(" Hparen ltac:(done)) as (t' & Ht' & _).
  unfold CreateOrDie_begin. erewrite bind_eq by exact Henv.
  unfold st_PeekTokenStart, st_PeekTokenType, st_Peek, bind at 1 2 3.
  rewrite Hst, Hid. cbn [andb bool_decide decide_rel TokenType_eq_dec].
  replace (bool_decide (IDENTIFIER = RESERVED_WORD)) with false by done.
  replace (bool_decide (IDENTIFIER ≠ IDENTIFIER)) with false
    by (symmetry; by apply bool_decide_eq_false; intros ?).
  cbn [andb].
  erewrite bind_eq by (eapply st_Next_eq; rewrite Hst; exact Ht).
  unfold bind at 1 2. cbn [st with_st]. rewrite ?Hst.
  rewrite Hparen. rewrite bool_decide_false by (intros ?; done).
  erewrite bind_eq by (eapply st_Next_eq; exact Ht').
  cbn [st with_st]. rewrite ?Hst.
  destruct (cons_table_ f) as [table|]; [|done].
  destruct (table !! Peek (st s)) as [cons_it|]; [|done].
  unfold bind, new_object, lift. cbn [objects envs varmaps st].
  by destruct (run_RegisterInitializers _ _ _).
Qed.


(** The loop of [CreateOrDie] reads at least one token for every member,
    and stays inside the tokens. *)
Lemma loop_reaches_progress R s0 l inits s1 names inits2 s2 :
  ReadAndSet_frame R ->
  loop_inv s0 l inits s1 ->
  loop_reaches R (type l) (env_ptr l) inits s1 names inits2 s2 ->
  loop_inv s0 l inits2 s2
  /\ dom inits2 = dom inits
  /\ (length names + next_token_idx_ (st s1) <= next_token_idx_ (st s2))%nat
  /\ (names <> [] -> next_token_idx_ (st s2) <= length (token_ (st s2)))%nat
  /\ token_ (st s2) = token_ (st s1).
Proof.
  intros HR Hinv H.
  induction H as [|names inits1 s1' inits2 s2 H IH Hne Hstep]; [done|].
  destruct IH as (Hinv1 & Hdom & Hidx & _ & Htok).
  pose proof (loop_inv_step _ _ _ _ _ _ _ HR Hinv1 Hstep) as Hinv2.
  apply member_init_inv in Hstep
    as (mi & mi' & s3 & _ & Hmi & HInit & -> & _ & _ & _ & Hadv & Hlt & Hlen).
  apply Init_inv in HInit as (u & s4 & HRS & _ & _ & _ & _ & _ & _ & Hst4 & _).
  apply HR in HRS as [_ _ _ _ (_ & Htok4 & Hidx4)]. simpl in Htok4, Hidx4.
  destruct Hadv as (_ & Htok3 & _).
  split_and!; try done.
  - by rewrite dom_insert_lookup_L by eauto.
  - rewrite length_app. simpl. rewrite Hst4 in Hlt. lia.
  - congruence.
Qed.

(** [CreateOrDie], when its loop has come to the top of its body in front
    of a token other than the closing parenthesis, runs the body on that
    token; an error of the body is the error of [CreateOrDie]. *)
Lemma CreateOrDie_error_in_the_loop R CE f env s l inits s1 names inits2 s2 e :
  ReadAndSet_frame R -> (env = None -> CreateEmpty_new CE) ->
  CreateOrDie_begin CE f env s = OK (Some (l, inits), s1) ->
  loop_reaches R (type l) (env_ptr l) inits s1 names inits2 s2 ->
  Peek (st s2) <> ")" ->
  member_init R (type l) (env_ptr l) inits2 s2 = Fatal e ->
  CreateOrDie R CE f env s = Fatal e.
Proof.
  intros HR HCE Hbegin Hreach Hne Herr.
  pose proof (CreateOrDie_begin_loop_inv _ _ _ _ _ _ _ HCE Hbegin) as Hinv.
  destruct (loop_reaches_progress _ _ _ _ _ _ _ _ HR Hinv Hreach)
    as (_ & _ & Hidx & Hlen & Htok).
  unfold CreateOrDie. erewrite bind_eq by exact Hbegin.
  unfold bind at 1, get_state. apply bind_Fatal.
  assert (exists fuel, S (unread (st s1)) = (length names + S fuel)%nat)
    as [fuel ->].
  { exists (unread (st s1) - length names)%nat. unfold unread.
    destruct names as [|n names]; [simpl; lia|].
    specialize (Hlen ltac:(done)). rewrite Htok in Hlen. lia. }
  rewrite (loop_reaches_unroll _ _ _ _ _ _ _ _ _ Hreach). simpl.
  erewrite (bind_eq st_Peek) by reflexivity.
  rewrite bool_decide_false by auto. by apply bind_Fatal.
Qed.

(** X5: the errors [CreateOrDie] reports before it constructs anything.
    A first token that is neither an identifier nor one of the two null
    words is reported with its kind, and so is the end of the input; after
    a type name, a token other than the opening parenthesis is reported
    with its offset and text, whether the type name is registered or not;
    a type name that is not in the table is reported only after the
    parenthesis has been read.  None of this depends on [ReadAndSet]. *)
Theorem CreateOrDie_head_errors R CE f env s p s1 :
  match env with None => CE | Some e => Copy e end s = OK (p, s1) ->
  st s1 = st s ->
  (PeekTokenType (st s) <> IDENTIFIER ->
   ~ (PeekTokenType (st s) = RESERVED_WORD
      /\ (Peek (st s) = "nullptr" \/ Peek (st s) = "NULL")) ->
   CreateOrDie R CE f env s
   = Fatal (ExpectedTypeSpecifier (PeekTokenType (st s))))
  /\ (token_ (st s) !! next_token_idx_ (st s) = None ->
      CreateOrDie R CE f env s = Fatal (ExpectedTypeSpecifier EOF_TYPE))
  /\ (PeekTokenType (st s) = IDENTIFIER ->
      Peek (advance (st s)) <> "(" ->
      CreateOrDie R CE f env s
      = Fatal (ExpectedOpenParen (PeekTokenStart (advance (st s)))
                                 (Peek (advance (st s)))))
  /\ (forall table,
        PeekTokenType (st s) = IDENTIFIER ->
        Peek (advance (st s)) = "(" ->
        cons_table_ f = Some table ->
        table !! Peek (st s) = None ->
        CreateOrDie R CE f env s = Fatal (UnknownType (Peek (st s)))).
Proof.
  intros Henv Hst.
  assert (PeekTokenType (st s) <> IDENTIFIER ->
          ~ (PeekTokenType (st s) = RESERVED_WORD
             /\ (Peek (st s) = "nullptr" \/ Peek (st s) = "NULL")) ->
          CreateOrDie R CE f env s
          = Fatal (ExpectedTypeSpecifier (PeekTokenType (st s)))) as Hkind.
  { intros Hid Hnull. unfold CreateOrDie. apply bind_Fatal.
    unfold CreateOrDie_begin. erewrite bind_eq by exact Henv.
    unfold st_PeekTokenStart, st_PeekTokenType, st_Peek, bind at 1 2 3.
    rewrite Hst.
    destruct (bool_decide (PeekTokenType (st s) = RESERVED_WORD)
              && (bool_decide (Peek (st s) = "nullptr")
                  || bool_decide (Peek (st s) = "NULL"))) eqn:Hb.
    - destruct Hnull. apply andb_prop in Hb as [H1 H2].
      apply bool_decide_eq_true in H1. split; [done|].
      apply orb_prop in H2 as [H2|H2]; apply bool_decide_eq_true in H2; auto.
    - by rewrite bool_decide_true. }
  split_and!.
  - exact Hkind.
  - intros Hnone.
    assert (PeekTokenType (st s) = EOF_TYPE) as Heof
      by (unfold PeekTokenType; by rewrite Hnone).
    rewrite <- Heof. apply Hkind; rewrite Heof; [done|]. by intros [? _].
  - intros Hid Hparen. unfold CreateOrDie. apply bind_Fatal.
    destruct (PeekTokenType_token _ Hid) as (t & Ht & _).
    unfold CreateOrDie_begin. erewrite bind_eq by exact Henv.
    unfold st_PeekTokenStart, st_PeekTokenType, st_Peek, bind at 1 2 3.
    rewrite Hst, Hid.
    replace (bool_decide (IDENTIFIER = RESERVED_WORD)) with false by done.
    replace (bool_decide (IDENTIFIER ≠ IDENTIFIER)) with false
      by (symmetry; by apply bool_decide_eq_false; intros ?).
    cbn [andb].
    erewrite bind_eq by (eapply st_Next_eq; rewrite Hst; exact Ht).
    unfold bind at 1 2. cbn [st with_st]. rewrite ?Hst.
    by rewrite bool_decide_true.
  - intros table Hid Hparen Htable Hnone. unfold CreateOrDie. apply bind_Fatal.
    rewrite (CreateOrDie_begin_head CE f env s p s1) by done.
    by rewrite Htable, Hnone.
Qed.

(** A script that ends after the type name, a type name followed by a
    member name, and a class that is not registered. *)
Lemma CreateOrDie_head_errors_witness :
  CreateOrDie Farm.ReadAndSet Farm.CreateEmpty Farm.Animal (Some 0%nat)
    (Farm.fresh 0 EmptyString)
  = Fatal (ExpectedTypeSpecifier EOF_TYPE)
  /\ CreateOrDie Farm.ReadAndSet Farm.CreateEmpty Farm.Animal (Some 0%nat)
       (Farm.fresh 0 "Goat name")
     = Fatal (ExpectedOpenParen 5 "name")
  /\ CreateOrDie Farm.ReadAndSet Farm.CreateEmpty Farm.Animal (Some 0%nat)
       (Farm.fresh 0 "Goat(name(3))")
     = Fatal (UnknownType "Goat").
Proof.
  split_and!.
  - evar (p : nat). evar (s1 : State).
    assert (Copy 0%nat (Farm.fresh 0 EmptyString) = OK (p, s1)) as HCopy
      by (subst p s1; vm_compute; reflexivity).
    exact (proj1 (proj2 (CreateOrDie_head_errors Farm.ReadAndSet
                           Farm.CreateEmpty Farm.Animal (Some 0%nat) _ p s1
                           HCopy eq_refl)) eq_refl).
  - evar (p : nat). evar (s1 : State).
    assert (Copy 0%nat (Farm.fresh 0 "Goat name") = OK (p, s1)) as HCopy
      by (subst p s1; vm_compute; reflexivity).
    exact (proj1 (proj2 (proj2 (CreateOrDie_head_errors Farm.ReadAndSet
                           Farm.CreateEmpty Farm.Animal (Some 0%nat) _ p s1
                           HCopy eq_refl))) eq_refl ltac:(vm_compute; discriminate)).
  - evar (p : nat). evar (s1 : State).
    assert (Copy 0%nat (Farm.fresh 0 "Goat(name(3))") = OK (p, s1)) as HCopy
      by (subst p s1; vm_compute; reflexivity).
    exact (proj2 (proj2 (proj2 (CreateOrDie_head_errors Farm.ReadAndSet
                           Farm.CreateEmpty Farm.Animal (Some 0%nat) _ p s1
                           HCopy eq_refl))) _ eq_refl eq_refl eq_refl eq_refl).
Defined.

(** X6: a factory for which nothing was registered.  [IsRegistered] tests
    [initialized_] and answers false for every name, and
    [CollectRegistered] adds no name to the set; [CreateOrDie] does not
    test it: once it has read a type name and the opening parenthesis it
    looks the name up through the null [cons_table_], instead of
    reporting an unknown type. *)
Theorem CreateOrDie_before_any_registration R CE f env s p s1 :
  f_initialized_ f = 0 -> cons_table_ f = None ->
  match env with None => CE | Some e => Copy e end s = OK (p, s1) ->
  st s1 = st s ->
  PeekTokenType (st s) = IDENTIFIER ->
  Peek (advance (st s)) = "(" ->
  (forall name, IsRegistered f name = OK false)
  /\ (forall registered, CollectRegistered f registered = OK registered)
  /\ CreateOrDie R CE f env s = Undefined "null cons_table_"
  /\ is_Fatal (CreateOrDie R CE f env s) = false.
Proof.
  intros Hz Hnull Henv Hst Hid Hparen.
  assert (CreateOrDie R CE f env s = Undefined "null cons_table_") as Hundef.
  { unfold CreateOrDie, bind.
    rewrite (CreateOrDie_begin_head CE f env s p s1) by done.
    by rewrite Hnull. }
  split_and!.
  - intros name. unfold IsRegistered. by rewrite bool_decide_true.
  - intros registered. unfold CollectRegistered. by rewrite bool_decide_true.
  - exact Hundef.
  - by rewrite Hundef.
Qed.

(** [Factory<Animal>] as [IMPLEMENT_FACTORY] leaves it, on [Cow()]. *)
Lemma CreateOrDie_before_any_registration_witness :
  IsRegistered Farm.Animal0 "Cow" = OK false
  /\ CreateOrDie Farm.ReadAndSet Farm.CreateEmpty Farm.Animal0 (Some 0%nat)
       (Farm.fresh 0 "Cow()")
     = Undefined "null cons_table_".
Proof.
  evar (p : nat). evar (s1 : State).
  assert (Copy 0%nat (Farm.fresh 0 "Cow()") = OK (p, s1)) as HCopy
    by (subst p s1; vm_compute; reflexivity).
  destruct (CreateOrDie_before_any_registration Farm.ReadAndSet
              Farm.CreateEmpty Farm.Animal0 (Some 0%nat) _ p s1
              eq_refl eq_refl HCopy eq_refl eq_refl eq_refl)
    as (Hreg & _ & Hundef & _).
  split; [exact (Hreg "Cow")|exact Hundef].
Defined.

(** X7: the errors in a member initializer that are found before its
    value is read, at any place of the argument list.  When the loop of
    [CreateOrDie] stands in front of a token other than the closing
    parenthesis: a token that is not an identifier is reported with its
    offset, kind and text; an identifier that is not a name the class
    registered is reported with the type name and the offset of the
    identifier, whatever follows it; a registered name that is not
    followed by an opening parenthesis is reported with the offset and the
    text of the token found in its place. *)
Theorem CreateOrDie_rejects_before_reading R CE f env s l inits s1 names
    inits2 s2 :
  ReadAndSet_frame R -> (env = None -> CreateEmpty_new CE) ->
  CreateOrDie_begin CE f env s = OK (Some (l, inits), s1) ->
  loop_reaches R (type l) (env_ptr l) inits s1 names inits2 s2 ->
  Peek (st s2) <> ")" ->
  (PeekTokenType (st s2) <> IDENTIFIER ->
   CreateOrDie R CE f env s
   = Fatal (ExpectedIdentifier (PeekTokenStart (st s2))
              (PeekTokenType (st s2)) (Peek (st s2))))
  /\ (PeekTokenType (st s2) = IDENTIFIER ->
      inits !! Peek (st s2) = None ->
      CreateOrDie R CE f env s
      = Fatal (UnknownMemberName (Peek (st s2)) (type l)
                 (PeekTokenStart (st s2))))
  /\ (PeekTokenType (st s2) = IDENTIFIER ->
      is_Some (inits !! Peek (st s2)) ->
      Peek (advance (st s2)) <> "(" ->
      CreateOrDie R CE f env s
      = Fatal (MemberExpectedOpenParen (Peek (st s2))
                 (PeekTokenStart (advance (st s2)))
                 (Peek (advance (st s2))))).
Proof.
  intros HR HCE Hbegin Hreach Hne.
  pose proof (CreateOrDie_begin_loop_inv _ _ _ _ _ _ _ HCE Hbegin) as Hinv.
  destruct (loop_reaches_progress _ _ _ _ _ _ _ _ HR Hinv Hreach)
    as (_ & Hdom & _).
  assert (forall n, inits2 !! n = None <-> inits !! n = None) as Hsame.
  { intros n. by rewrite <- !not_elem_of_dom, Hdom. }
  assert (PeekTokenType (st s2) = IDENTIFIER ->
          member_init R (type l) (env_ptr l) inits2 s2
          = match inits2 !! Peek (st s2) with
            | None => Fatal (UnknownMemberName (Peek (st s2)) (type l)
                               (PeekTokenStart (st s2)))
            | Some mi =>
                if bool_decide (Peek (advance (st s2)) ≠ "(")
                then Fatal (MemberExpectedOpenParen (Peek (st s2))
                              (PeekTokenStart (advance (st s2)))
                              (Peek (advance (st s2))))
                else member_init R (type l) (env_ptr l) inits2 s2
            end) as Hid.
  { intros Hid. destruct (PeekTokenType_token _ Hid) as (t & Ht & _).
    destruct (inits2 !! Peek (st s2)) as [mi|] eqn:Hmi.
    - case_bool_decide as Hparen; [|done].
      unfold member_init, st_PeekTokenType, st_PeekTokenStart, st_Peek,
        bind at 1 2 3.
      rewrite Hid, bool_decide_false by (by intros ?).
      unfold bind at 1. erewrite bind_eq by (eapply st_Next_eq; exact Ht).
      rewrite Hmi. unfold bind at 1 2. cbn [st with_st].
      by rewrite bool_decide_true.
    - unfold member_init, st_PeekTokenType, st_PeekTokenStart, st_Peek,
        bind at 1 2 3.
      rewrite Hid, bool_decide_false by (by intros ?).
      unfold bind at 1. erewrite bind_eq by (eapply st_Next_eq; exact Ht).
      by rewrite Hmi. }
  split_and!.
  - intros Hnid.
    apply (CreateOrDie_error_in_the_loop R CE f env s l inits s1 names
             inits2 s2); try done.
    unfold member_init, st_PeekTokenType, st_PeekTokenStart,
      st_Peek, bind at 1 2 3.
    by rewrite bool_decide_true.
  - intros H Hnone.
    apply (CreateOrDie_error_in_the_loop R CE f env s l inits s1 names
             inits2 s2); try done.
    by rewrite (Hid H), (proj2 (Hsame _) Hnone).
  - intros H [mi Hmi] Hparen.
    apply (CreateOrDie_error_in_the_loop R CE f env s l inits s1 names
             inits2 s2); try done.
    rewrite (Hid H).
    destruct (inits2 !! Peek (st s2)) as [mi2|] eqn:Hmi2;
      [|apply Hsame in Hmi2; congruence].
    by rewrite bool_decide_true.
Qed.

(** [Cow(age(5), colour(2))]: after [age], the member [colour] is not one
    of [Cow]. *)
Lemma CreateOrDie_rejects_before_reading_witness :
  Farm.create "Cow(age(5), colour(2))"
  = Fatal (UnknownMemberName "colour" "Cow" 12).
Proof.
  evar (l : Locals). evar (inits : gmap string MemberInitializer).
  evar (s1 : State). evar (inits2 : gmap string MemberInitializer).
  evar (s2 : State).
  assert (CreateOrDie_begin Farm.CreateEmpty Farm.Animal (Some 0%nat)
            (Farm.fresh 0 "Cow(age(5), colour(2))")
          = OK (Some (l, inits), s1)) as Hbegin.
  { subst l inits s1. vm_compute. reflexivity. }
  assert (member_init Farm.ReadAndSet (type l) (env_ptr l) inits s1
          = OK (inits2, s2)) as Hstep.
  { subst l inits s1 inits2 s2. vm_compute. reflexivity. }
  assert (Peek (st s1) = "age") as Hname by (subst s1; reflexivity).
  assert (loop_reaches Farm.ReadAndSet (type l) (env_ptr l) inits s1
            ([] ++ [Peek (st s1)]) inits2 s2) as Hreach.
  { refine (reaches_next Farm.ReadAndSet (type l) (env_ptr l) inits s1
                          [] inits s1 inits2 s2
                          (reaches_start _ _ _ _ _) _ Hstep).
    rewrite Hname. discriminate. }
  assert (Peek (st s2) <> ")") as Hne by (subst s2; discriminate).
  assert (PeekTokenType (st s2) = IDENTIFIER) as Hid
    by (subst s2; reflexivity).
  assert (inits !! Peek (st s2) = None) as Hnone
    by (subst inits s2; vm_compute; reflexivity).
  pose proof (proj1 (proj2
                (CreateOrDie_rejects_before_reading Farm.ReadAndSet
                   Farm.CreateEmpty Farm.Animal (Some 0%nat)
                   (Farm.fresh 0 "Cow(age(5), colour(2))") l inits s1 _
                   inits2 s2 Farm_ReadAndSet_frame
                   (called_with_environment _ _) Hbegin Hreach Hne))
                Hid Hnone) as Hfatal.
  unfold Farm.create. rewrite Hfatal. subst l s2. reflexivity.
Defined.

(** X8: the end of a member initializer.  When the value of a member has
    been read, the next token must be a closing parenthesis, and the one
    after it a comma or a closing parenthesis; each of the two errors
    reports the member name and the offset and text of the token found.
    A comma is read, a closing parenthesis is left for the test of the
    loop: so a comma may also stand in front of the parenthesis that closes
    the argument list.  The count that [Init] returned is stored under
    the member name. *)
Theorem member_init_after_reading R type env_ptr inits s mi mi' s3 :
  PeekTokenType (st s) = IDENTIFIER ->
  inits !! Peek (st s) = Some mi ->
  Peek (advance (st s)) = "(" ->
  Init R mi env_ptr (with_st s (advance (advance (st s)))) = OK (mi', s3) ->
  (Peek (st s3) <> ")" ->
   member_init R type env_ptr inits s
   = Fatal (MemberExpectedCloseParen (Peek (st s)) (PeekTokenStart (st s3))
                                     (Peek (st s3))))
  /\ (Peek (st s3) = ")" ->
      Peek (advance (st s3)) <> "," -> Peek (advance (st s3)) <> ")" ->
      member_init R type env_ptr inits s
      = Fatal (MemberExpectedCommaOrCloseParen (Peek (st s))
                 (PeekTokenStart (advance (st s3)))
                 (Peek (advance (st s3)))))
  /\ (Peek (st s3) = ")" -> Peek (advance (st s3)) = "," ->
      member_init R type env_ptr inits s
      = OK (<[Peek (st s) := mi']> inits,
            with_st s3 (advance (advance (st s3)))))
  /\ (Peek (st s3) = ")" -> Peek (advance (st s3)) = ")" ->
      member_init R type env_ptr inits s
      = OK (<[Peek (st s) := mi']> inits, with_st s3 (advance (st s3)))).
Proof.
  intros Hid Hmi Hopen HInit.
  destruct (PeekTokenType_token _ Hid) as (t & Ht & _).
  destruct (Peek_token _ _ Hopen ltac:(done)) as (t' & Ht' & _).
  assert (member_init R type env_ptr inits s
          = (tok2 <- st_Peek ;;
             pos2 <- st_PeekTokenStart ;;
             when bool_decide (tok2 ≠ ")")
               fail MemberExpectedCloseParen (Peek (st s)) pos2 tok2 ;;
             st_Next ;;;
             tok3 <- st_Peek ;;
             pos3 <- st_PeekTokenStart ;;
             when bool_decide (tok3 ≠ ",") && bool_decide (tok3 ≠ ")")
               fail MemberExpectedCommaOrCloseParen (Peek (st s)) pos3 tok3 ;;
             (if bool_decide (tok3 = ",") then st_Next ;;; ret tt else ret tt) ;;;
             ret (<[Peek (st s) := mi']> inits)) s3) as ->.
  { unfold member_init, st_PeekTokenType, st_PeekTokenStart, st_Peek,
      bind at 1 2 3.
    rewrite Hid, bool_decide_false by (by intros ?).
    unfold bind at 1. erewrite bind_eq by (eapply st_Next_eq; exact Ht).
    rewrite Hmi. unfold bind at 1 2. cbn [st with_st].
    rewrite bool_decide_false by (by intros ?).
    erewrite bind_eq by (eapply st_Next_eq; exact Ht').
    by erewrite bind_eq by exact HInit. }
  erewrite (bind_eq st_Peek) by reflexivity.
  erewrite (bind_eq st_PeekTokenStart) by reflexivity.
  split_and!.
  - intros Hne. by rewrite bool_decide_true.
  - intros Hclose Hnc Hnp.
    destruct (Peek_token _ _ Hclose ltac:(done)) as (t3 & Ht3 & _).
    rewrite (bool_decide_false (Peek (st s3) ≠ ")"))
      by (intros Hn; by apply Hn).
    erewrite bind_eq by (eapply st_Next_eq; exact Ht3).
    erewrite (bind_eq st_Peek) by reflexivity.
    erewrite (bind_eq st_PeekTokenStart) by reflexivity.
    cbn [st with_st].
    rewrite (bool_decide_true (_ ≠ ",")), (bool_decide_true (_ ≠ ")")) by done.
    reflexivity.
  - intros Hclose Hcomma.
    destruct (Peek_token _ _ Hclose ltac:(done)) as (t3 & Ht3 & _).
    destruct (Peek_token _ _ Hcomma ltac:(done)) as (t4 & Ht4 & _).
    rewrite (bool_decide_false (Peek (st s3) ≠ ")"))
      by (intros Hn; by apply Hn).
    erewrite bind_eq by (eapply st_Next_eq; exact Ht3).
    erewrite (bind_eq st_Peek) by reflexivity.
    erewrite (bind_eq st_PeekTokenStart) by reflexivity.
    cbn [st with_st]. rewrite Hcomma.
    rewrite (bool_decide_false ("," ≠ ",")) by (intros Hn; by apply Hn).
    cbn [andb]. rewrite (bool_decide_true ("," = ",")) by done.
    unfold bind at 1. erewrite bind_eq by (eapply st_Next_eq; exact Ht4).
    reflexivity.
  - intros Hclose Hparen.
    destruct (Peek_token _ _ Hclose ltac:(done)) as (t3 & Ht3 & _).
    rewrite (bool_decide_false (Peek (st s3) ≠ ")"))
      by (intros Hn; by apply Hn).
    erewrite bind_eq by (eapply st_Next_eq; exact Ht3).
    erewrite (bind_eq st_Peek) by reflexivity.
    erewrite (bind_eq st_PeekTokenStart) by reflexivity.
    cbn [st with_st]. rewrite Hparen.
    rewrite (bool_decide_false (")" ≠ ")")) by (intros Hn; by apply Hn).
    rewrite andb_false_r.
    rewrite (bool_decide_false (")" = ",")) by done. reflexivity.
Qed.

(** [Cow(age(5),)]: the comma after the only member is read, and the loop
    is left in front of the closing parenthesis. *)
Lemma member_init_after_reading_witness :
  exists l inits s1 mi' s3,
    CreateOrDie_begin Farm.CreateEmpty Farm.Animal (Some 0%nat)
      (Farm.fresh 0 "Cow(age(5),)") = OK (Some (l, inits), s1)
    /\ member_init Farm.ReadAndSet (type l) (env_ptr l) inits s1
       = OK (<["age" := mi']> inits, with_st s3 (advance (advance (st s3))))
    /\ Initialized mi' = 1
    /\ Peek (advance (advance (st s3))) = ")".
Proof.
  evar (l : Locals). evar (inits : gmap string MemberInitializer).
  evar (s1 : State). evar (mi' : MemberInitializer). evar (s3 : State).
  assert (CreateOrDie_begin Farm.CreateEmpty Farm.Animal (Some 0%nat)
            (Farm.fresh 0 "Cow(age(5),)") = OK (Some (l, inits), s1))
    as Hbegin.
  { subst l inits s1. vm_compute. reflexivity. }
  assert (Init Farm.ReadAndSet
            (mkMemberInitializer "age" 0 false TInt (Some (0%nat, "age")))
            (env_ptr l) (with_st s1 (advance (advance (st s1))))
          = OK (mi', s3)) as HInit.
  { subst l s1 mi' s3. vm_compute. reflexivity. }
  assert (PeekTokenType (st s1) = IDENTIFIER) as Hid
    by (subst s1; reflexivity).
  assert (Peek (st s1) = "age") as Hname by (subst s1; reflexivity).
  assert (inits !! Peek (st s1)
          = Some (mkMemberInitializer "age" 0 false TInt
                    (Some (0%nat, "age")))) as Hmi
    by (subst inits s1; vm_compute; reflexivity).
  assert (Peek (advance (st s1)) = "(") as Hopen by (subst s1; reflexivity).
  assert (Peek (st s3) = ")") as Hclose by (subst s3; reflexivity).
  assert (Peek (advance (st s3)) = ",") as Hcomma by (subst s3; reflexivity).
  pose proof (proj1 (proj2 (proj2
                (member_init_after_reading Farm.ReadAndSet (type l)
                   (env_ptr l) inits s1 _ mi' s3 Hid Hmi Hopen HInit)))
                Hclose Hcomma) as HOK.
  rewrite Hname in HOK.
  exists l, inits, s1, mi', s3.
  split; [exact Hbegin|]. split; [exact HOK|].
  split; subst mi' s3; reflexivity.
Defined.

(** X9: the test for a closing parenthesis that follows the loop over the
    member initializers never fails.  The loop is left only at a closing
    parenthesis, so when it is left [CreateOrDie] goes on to the check of
    the required members: the error "at initializer list end" is not
    among its outcomes. *)
Theorem CreateOrDie_list_end_is_a_parenthesis R CE f env s l inits s1 inits' s2 :
  CreateOrDie_begin CE f env s = OK (Some (l, inits), s1) ->
  member_init_list R (S (unread (st s1))) (type l) (env_ptr l) inits s1
  = OK (inits', s2) ->
  Peek (st s2) = ")"
  /\ (forall pos found,
        CreateOrDie R CE f env s <> Fatal (ListEndExpectedCloseParen pos found))
  /\ (CreateOrDie R CE f env s
      = (check_required (map_to_list inits') ;;;
         end_ <- st_tellg ;;
         stream_str <- st_str ;;
         init_str <- lift (substr stream_str (start l)
                             (size_t_sub end_ (start l))) ;;
         PostInit (instance l) (env_ptr l) init_str ;;;
         ret (Some (instance l))) (with_st s2 (advance (st s2)))).
Proof.
  intros Hbegin Hloop.
  destruct (member_init_list_invariant R (type l) (env_ptr l)
              (fun _ _ => True) ltac:(done) _ _ _ _ _ I Hloop) as [_ Hparen].
  destruct (Peek_token _ _ Hparen ltac:(done)) as (closing & Hclosing & Htok).
  rewrite (CreateOrDie_eq R CE f env s l inits s1 inits' s2 Hbegin Hloop).
  split_and!.
  - exact Hparen.
  - intros pos found. rewrite (CreateOrDie_end_eq l inits' s2 closing) by done.
    destruct (List.find missing (map_to_list inits')) as [[n mi]|]; [done|].
    unfold substr. case_bool_decide; [done|].
    by destruct (objects s2 !! instance l).
  - unfold CreateOrDie_end, st_Peek, st_PeekTokenStart, bind at 1 2.
    rewrite Hparen, bool_decide_false by (by intros ?).
    by erewrite bind_eq by (eapply st_Next_eq; exact Hclosing).
Qed.

(** [Cow(name("Bessie"), age(5))]. *)
Lemma CreateOrDie_list_end_is_a_parenthesis_witness :
  exists l inits s1 inits' s2,
    CreateOrDie_begin Farm.CreateEmpty Farm.Animal (Some 0%nat)
      (Farm.fresh 0 Farm.bessie) = OK (Some (l, inits), s1)
    /\ member_init_list Farm.ReadAndSet (S (unread (st s1))) (type l)
         (env_ptr l) inits s1 = OK (inits', s2)
    /\ Peek (st s2) = ")"
    /\ Farm.create Farm.bessie
       <> Fatal (ListEndExpectedCloseParen (PeekTokenStart (st s2))
                                           (Peek (st s2))).
Proof.
  evar (l : Locals). evar (inits : gmap string MemberInitializer).
  evar (s1 : State). evar (inits' : gmap string MemberInitializer).
  evar (s2 : State).
  assert (CreateOrDie_begin Farm.CreateEmpty Farm.Animal (Some 0%nat)
            (Farm.fresh 0 Farm.bessie) = OK (Some (l, inits), s1)) as Hbegin.
  { subst l inits s1. vm_compute. reflexivity. }
  assert (member_init_list Farm.ReadAndSet (S (unread (st s1))) (type l)
            (env_ptr l) inits s1 = OK (inits', s2)) as Hloop.
  { subst l inits s1 inits' s2. vm_compute. reflexivity. }
  destruct (CreateOrDie_list_end_is_a_parenthesis Farm.ReadAndSet
              Farm.CreateEmpty Farm.Animal (Some 0%nat)
              (Farm.fresh 0 Farm.bessie) l inits s1 inits' s2 Hbegin Hloop)
    as (Hparen & Hnever & _).
  exists l, inits, s1, inits', s2.
  split; [exact Hbegin|]. split; [exact Hloop|]. split; [exact Hparen|].
  exact (Hnever _ _).
Defined.

(** *** What [CreateOrDie] reads and writes *)

(** X10: an empty argument list.  For [T()] with a registered [T] whose
    members have different names, [ReadAndSet] is not called, so the
    outcome is the same for every environment implementation.  When [T]
    has a required member, [CreateOrDie] fails with the error for a missing
    required member, at the offset after the closing parenthesis; when it
    has none, [CreateOrDie] calls [PostInit] on the new object, which has
    the members that [NewInstance] gave it, with the environment made at
    the entry and the text of the specification, in a store that is
    otherwise the one the copy of the environment left, and returns the
    object when [PostInit] returns. *)
Theorem CreateOrDie_empty_argument_list R CE f env s p s1 table cons_it :
  match env with None => CE | Some e => Copy e end s = OK (p, s1) ->
  st s1 = st s ->
  stream_ok (st s) ->
  PeekTokenType (st s) = IDENTIFIER ->
  Peek (advance (st s)) = "(" ->
  Peek (advance (advance (st s))) = ")" ->
  cons_table_ f = Some table ->
  table !! Peek (st s) = Some cons_it ->
  NoDup (add_name <$> RegisterInitializers cons_it) ->
  (forall R', CreateOrDie R' CE f env s = CreateOrDie R CE f env s)
  /\ ((exists a, a ∈ RegisterInitializers cons_it /\ add_required a = true) ->
      exists a closing,
        a ∈ RegisterInitializers cons_it /\ add_required a = true
        /\ token_ (st s) !! (2 + next_token_idx_ (st s))%nat = Some closing
        /\ CreateOrDie R CE f env s
           = Fatal (RequiredNotFound (add_name a) (curr_pos closing)))
  /\ ((forall a, a ∈ RegisterInitializers cons_it -> add_required a = false) ->
      exists first closing,
        token_ (st s) !! next_token_idx_ (st s) = Some first
        /\ token_ (st s) !! (2 + next_token_idx_ (st s))%nat = Some closing
        /\ CreateOrDie R CE f env s
           = (PostInit (length (objects s1)) p
                (String.substring (tok_start first)
                   (curr_pos closing - tok_start first) (str_ (st s))) ;;;
              ret (Some (length (objects s1))))
               (mkState (envs s1) (varmaps s1)
                  (objects s1 ++ [NewInstance cons_it])
                  (advance (advance (advance (st s)))))).
Proof.
  intros Henv Hst Hok Hid Hopen Hclose Htable Hcons Hnodup.
  destruct (run_RegisterInitializers_OK (length (objects s1))
              (RegisterInitializers cons_it) ∅) as [inits Hinits];
    [intros; apply lookup_empty|done|].
  pose proof (CreateOrDie_begin_head CE f env s p s1 Henv Hst Hid Hopen)
    as Hbegin.
  rewrite Htable, Hcons, Hinits in Hbegin.
  set (l := mkLocals p (PeekTokenStart (st s)) (Peek (st s))
                     (length (objects s1))) in *.
  set (s2 := mkState (envs s1) (varmaps s1)
               (objects s1 ++ [NewInstance cons_it])
               (advance (advance (st s)))) in *.
  assert (forall R', member_init_list R' (S (unread (st s2))) (type l)
                       (env_ptr l) inits s2 = OK (inits, s2)) as Hloop.
  { intros R'. cbn [member_init_list]. unfold bind, st_Peek.
    by rewrite (bool_decide_true _ Hclose). }
  destruct (PeekTokenType_token _ Hid) as (first & Hfirst & _).
  destruct (Peek_token _ _ Hclose ltac:(done)) as (closing & Hclosing & Htok).
  assert (forall R', CreateOrDie R' CE f env s = CreateOrDie_end l inits s2)
    as Heq.
  { intros R'. exact (CreateOrDie_eq R' CE f env s l inits s2 inits s2
                        Hbegin (Hloop R')). }
  destruct (substr_between (st s) (st s2) first closing) as (_ & Htell & _ & Hsub);
    [done|by repeat split; simpl; lia|simpl; lia|done|done|].
  apply run_RegisterInitializers_OK_inv in Hinits as (_ & _ & Hin & Hnot).
  split_and!.
  - intros R'. by rewrite !Heq.
  - intros (a & Ha & Hreq). rewrite Heq.
    rewrite (CreateOrDie_end_eq l inits s2 closing) by done.
    destruct (List.find missing (map_to_list inits)) as [[n mi]|] eqn:Hfind.
    + apply find_missing_Some in Hfind as (Hn & Hreqd & _).
      destruct (decide (n ∈ add_name <$> RegisterInitializers cons_it))
        as [Hmem|Hmem].
      * apply list_elem_of_fmap in Hmem as (b & -> & Hb).
        rewrite (Hin b Hb) in Hn. injection Hn as <-.
        exists b, closing. split_and!; try done. by rewrite Htell.
      * by rewrite (Hnot n Hmem), lookup_empty in Hn.
    + exfalso.
      by apply (proj1 (find_missing_None inits) Hfind (add_name a) _
                  (Hin a Ha) Hreq).
  - intros Hnone. exists first, closing. split; [done|]. split; [done|].
    rewrite Heq, (CreateOrDie_end_eq l inits s2 closing) by done.
    destruct (List.find missing (map_to_list inits)) as [[n mi]|] eqn:Hfind.
    + apply find_missing_Some in Hfind as (Hn & Hreqd & _).
      destruct (decide (n ∈ add_name <$> RegisterInitializers cons_it))
        as [Hmem|Hmem].
      * apply list_elem_of_fmap in Hmem as (b & -> & Hb).
        rewrite (Hin b Hb) in Hn. injection Hn as <-.
        unfold Required in Hreqd. simpl in Hreqd.
        by rewrite (Hnone b Hb) in Hreqd.
      * by rewrite (Hnot n Hmem), lookup_empty in Hn.
    + cbn [start l] in *. fold l. rewrite Hsub.
      assert (objects s2 !! instance l = Some (NewInstance cons_it)) as Ho.
      { simpl. by rewrite lookup_app_r, Nat.sub_diag by lia. }
      rewrite Ho. unfold bind, PostInit.
      cbn [instance env_ptr l objects s2 with_st]. cbn [instance l] in Ho.
      cbn [objects s2] in Ho. by rewrite Ho.
Qed.

(** [Cow()] fails for the required [name]; [Ox()], for a factory in which
    [Ox] is registered, gives an object on which [PostInit] was called. *)
Lemma CreateOrDie_empty_argument_list_witness :
  Farm.create "Cow()" = Fatal (RequiredNotFound "name" 5)
  /\ exists s',
       CreateOrDie Farm.ReadAndSet Farm.CreateEmpty
         (mkFactory "Animal" 1 (Some (<["Ox" := Farm.Ox]> ∅))) (Some 0%nat)
         (Farm.fresh 0 "Ox()") = OK (Some 0%nat, s')
       /\ post_init_calls <$> objects s' = [[(1%nat, "Ox()")]].
Proof.
  split.
  - evar (p : nat). evar (s1 : State).
    assert (Copy 0%nat (Farm.fresh 0 "Cow()") = OK (p, s1)) as HCopy
      by (subst p s1; vm_compute; reflexivity).
    assert (NoDup (add_name <$> RegisterInitializers Farm.Cow)) as Hnodup.
    { apply NoDup_cons. split; [|apply NoDup_singleton].
      intros Hin. apply list_elem_of_singleton in Hin. discriminate. }
    assert (st s1 = st (Farm.fresh 0 "Cow()")) as Hst
      by (subst s1; vm_compute; reflexivity).
    assert (PeekTokenType (st (Farm.fresh 0 "Cow()")) = IDENTIFIER) as Hid
      by (vm_compute; reflexivity).
    assert (Peek (advance (st (Farm.fresh 0 "Cow()"))) = "(") as Hopen
      by (vm_compute; reflexivity).
    assert (Peek (advance (advance (st (Farm.fresh 0 "Cow()")))) = ")")
      as Hclose by (vm_compute; reflexivity).
    assert (cons_table_ Farm.Animal
            = Some (<["Sheep" := Farm.Sheep]> (<["Cow" := Farm.Cow]> ∅)))
      as Htable by reflexivity.
    assert ((<["Sheep" := Farm.Sheep]> (<["Cow" := Farm.Cow]> ∅) : gmap _ _)
              !! Peek (st (Farm.fresh 0 "Cow()")) = Some Farm.Cow) as Hcons
      by (vm_compute; reflexivity).
    destruct (proj1 (proj2
                (CreateOrDie_empty_argument_list Farm.ReadAndSet
                   Farm.CreateEmpty Farm.Animal (Some 0%nat)
                   (Farm.fresh 0 "Cow()") p s1 _ Farm.Cow HCopy Hst
                   (Farm_stream_ok "Cow()" _ eq_refl eq_refl)
                   Hid Hopen Hclose Htable Hcons Hnodup)))
      as (a & closing & Ha & Hreq & Hclosing & Hfatal).
    { exists (mkAddCall "name" TString (Some "name") true).
      split; [apply list_elem_of_here|reflexivity]. }
    assert (a = mkAddCall "name" TString (Some "name") true) as ->.
    { apply elem_of_cons in Ha as [->|Ha]; [reflexivity|].
      apply list_elem_of_singleton in Ha. subst a. discriminate Hreq. }
    vm_compute in Hclosing. injection Hclosing as <-.
    cbn [add_name curr_pos] in Hfatal. unfold Farm.create. exact Hfatal.
  - evar (p : nat). evar (s1 : State).
    assert (Copy 0%nat (Farm.fresh 0 "Ox()") = OK (p, s1)) as HCopy
      by (subst p s1; vm_compute; reflexivity).
    assert (st s1 = st (Farm.fresh 0 "Ox()")) as Hst
      by (subst s1; vm_compute; reflexivity).
    assert (PeekTokenType (st (Farm.fresh 0 "Ox()")) = IDENTIFIER) as Hid
      by (vm_compute; reflexivity).
    assert (Peek (advance (st (Farm.fresh 0 "Ox()"))) = "(") as Hopen
      by (vm_compute; reflexivity).
    assert (Peek (advance (advance (st (Farm.fresh 0 "Ox()")))) = ")")
      as Hclose by (vm_compute; reflexivity).
    assert ((<["Ox" := Farm.Ox]> ∅ : gmap _ _)
              !! Peek (st (Farm.fresh 0 "Ox()")) = Some Farm.Ox) as Hcons
      by (vm_compute; reflexivity).
    destruct (proj2 (proj2
                (CreateOrDie_empty_argument_list Farm.ReadAndSet
                   Farm.CreateEmpty
                   (mkFactory "Animal" 1 (Some (<["Ox" := Farm.Ox]> ∅)))
                   (Some 0%nat)
                   (Farm.fresh 0 "Ox()") p s1 _ Farm.Ox HCopy Hst
                   (Farm_stream_ok "Ox()" _ eq_refl eq_refl)
                   Hid Hopen Hclose eq_refl Hcons NoDup_nil_2)))
      as (first & closing & Hfirst & Hclosing & Hok).
    { intros a Ha. exact (False_ind _ (not_elem_of_nil a Ha)). }
    vm_compute in Hfirst, Hclosing.
    injection Hfirst as <-. injection Hclosing as <-.
    evar (s' : State).
    assert ((PostInit (length (objects s1)) p "Ox()" ;;; ret (Some (length (objects s1))))
              (mkState (envs s1) (varmaps s1)
                 (objects s1 ++ [NewInstance Farm.Ox])
                 (advance (advance (advance (st (Farm.fresh 0 "Ox()"))))))
            = OK (Some 0%nat, s')) as HPostInit
      by (subst p s1 s'; vm_compute; reflexivity).
    exists s'. split.
    + rewrite Hok. exact HPostInit.
    + subst s'. reflexivity.
Defined.

Lemma loop_inv_later s0 l inits cur t :
  loop_inv s0 l inits cur ->
  stream_advances t (st cur) ->
  (next_token_idx_ t < next_token_idx_ (st cur))%nat ->
  loop_inv (with_st s0 t) l inits cur.
Proof.
  intros [[He Hv Ho Hs] Hp Henv Hown Hnew Hinst Hm Hn Hstart] Ht Hlt.
  split; try done.
Qed.

(** X11: what a call of [CreateOrDie] that returns has read.  The text and
    the tokens of the stream are as they were and the stream stands
    inside them.  A null result has read exactly one token; an instance
    has read at least three, the type name and the two parentheses, and
    the last token read is the closing parenthesis. *)
Theorem CreateOrDie_reads_a_whole_specification R CE f env s r s' :
  ReadAndSet_frame R -> (env = None -> CreateEmpty_new CE) ->
  CreateOrDie R CE f env s = OK (r, s') ->
  str_ (st s') = str_ (st s) /\ token_ (st s') = token_ (st s)
  /\ (next_token_idx_ (st s') <= length (token_ (st s)))%nat
  /\ match r with
     | None => next_token_idx_ (st s') = S (next_token_idx_ (st s))
     | Some _ =>
         (next_token_idx_ (st s) + 3 <= next_token_idx_ (st s'))%nat
         /\ exists closing,
              token_ (st s) !! pred (next_token_idx_ (st s')) = Some closing
              /\ tok closing = ")"
     end.
Proof.
  intros HR HCE H.
  apply CreateOrDie_inv in H as (b & s1 & Hbegin & H).
  destruct b as [[l inits]|].
  - destruct H as (inits' & s2 & Hloop & Hend).
    pose proof (CreateOrDie_begin_loop_inv _ _ _ _ _ _ _ HCE Hbegin) as Hinv.
    pose proof Hbegin as Hb.
    apply CreateOrDie_begin_inv in Hb
      as (p & s_env & Henv & _ & _ & _ & _ & _ & table & cons_it & _ & _
          & _ & Hs1).
    assert (st s_env = st s) as Hst.
    { destruct env as [e|].
      - by apply Copy_spec in Henv as (? & _ & ? & _).
      - by apply (HCE eq_refl) in Henv as [_ _ _ ? _ _ _]. }
    assert (st s1 = advance (advance (st s))) as Hst1
      by (subst s1; simpl; by rewrite Hst).
    apply (loop_inv_later _ _ _ _ (advance (st s))) in Hinv;
      [|rewrite Hst1; apply stream_advances_advance|rewrite Hst1; simpl; lia].
    eapply (member_init_list_invariant R (type l) (env_ptr l)
              (loop_inv (with_st s (advance (st s))) l))
      in Hloop as [[[_ _ _ (Hstr & Htok & _)] _ _ _ _ _ _ _ Hlt] Hclose];
      [|by eauto using loop_inv_step|done].
    simpl in Hstr, Htok, Hlt.
    apply Peek_token in Hclose as (closing & Hclosing & Hclosing'); [|done].
    apply CreateOrDie_end_inv in Hend
      as (_ & -> & _ & o & init_str & _ & _ & ->).
    simpl. rewrite Hstr, Htok. split_and!; try done.
    + apply lookup_lt_Some in Hclosing. rewrite Htok in Hclosing. lia.
    + lia.
    + exists closing. by rewrite <- Htok.
  - destruct H as [-> ->].
    apply CreateOrDie_begin_inv in Hbegin
      as (p & s_env & Henv & _ & Hword & ->).
    assert (st s_env = st s) as Hst.
    { destruct env as [e|].
      - by apply Copy_spec in Henv as (? & _ & ? & _).
      - by apply (HCE eq_refl) in Henv as [_ _ _ ? _ _ _]. }
    simpl. rewrite Hst in *. split_and!; try done.
    assert (exists tk, token_ (st s) !! next_token_idx_ (st s) = Some tk)
      as [tk Htk].
    { destruct Hword as [Hw|Hw]; apply Peek_token in Hw as (tk & ? & _);
        eauto. }
    apply lookup_lt_Some in Htk. lia.
Qed.

(** [Cow(name("Bessie"), age(5))] has twelve tokens. *)
Lemma CreateOrDie_reads_a_whole_specification_witness :
  exists s',
    Farm.create Farm.bessie = OK (Some 0%nat, s')
    /\ (next_token_idx_ (st (Farm.fresh 0 Farm.bessie)) + 3
        <= next_token_idx_ (st s') <= 12)%nat.
Proof.
  evar (s' : State).
  assert (Farm.create Farm.bessie = OK (Some 0%nat, s')) as H
    by (subst s'; vm_compute; reflexivity).
  exists s'. split; [exact H|].
  destruct (CreateOrDie_reads_a_whole_specification Farm.ReadAndSet
              Farm.CreateEmpty Farm.Animal (Some 0%nat)
              (Farm.fresh 0 Farm.bessie) (Some 0%nat) s'
              Farm_ReadAndSet_frame (called_with_environment _ _) H)
    as (_ & _ & Hle & Hge & _).
  split; [exact Hge|]. exact Hle.
Defined.

(** [Init] returns the initializer it was called on, or that initializer
    with one more initialization counted. *)
Lemma Init_counted R mi env s mi' s' :
  Init R mi env s = OK (mi', s') -> mi' = mi \/ mi' = counted mi.
Proof.
  unfold Init. intros H. inv_bind H.
  assert (forall t t', incr_initialized mi t = OK (mi', t') ->
                       mi' = mi \/ mi' = counted mi) as Hincr.
  { intros t t'. unfold incr_initialized. case_bool_decide; [|done].
    intros [= <- <-]. by right. }
  destruct (member_ mi) as [member|]; [|eauto].
  inv_bind H. inv_bind H. inv_bind H.
  destruct a2 as [p|]; [|injection H as <- <-; by left].
  inv_bind H. destruct a2; [eauto|]. injection H as <- <-. by left.
Qed.

(** X12: the counts of the member initializers during the loop of
    [CreateOrDie].  When the loop has read the member names [names], the
    table of initializers has the entries it started with; an entry
    differs from what it was only in its count, which has gone up by at
    most the number of times its name was read.  So the initializer of a
    name that was not read is as [RegisterInitializers] made it, whatever
    [ReadAndSet] does. *)
Theorem member_init_list_counts R type env_ptr inits s names inits' s' :
  loop_reaches R type env_ptr inits s names inits' s' ->
  dom inits' = dom inits
  /\ forall n mi, inits !! n = Some mi ->
       exists k, (k <= length (filter (eq n) names))%nat
                 /\ inits' !! n = Some (Nat.iter k counted mi).
Proof.
  induction 1 as [|names inits1 s1 inits2 s2 Hreach [IHdom IH] Hne Hstep].
  - split; [done|]. intros n mi Hn. exists 0%nat. split; [simpl; lia|done].
  - apply member_init_inv in Hstep
      as (mi0 & mi0' & s3 & _ & Hmi0 & HInit & -> & _).
    apply Init_counted in HInit. split.
    + by rewrite dom_insert_lookup_L by eauto.
    + intros n mi Hn. destruct (IH n mi Hn) as (k & Hk & Hk').
      rewrite filter_app, length_app.
      destruct (decide (n = Peek (st s1))) as [->|Hneq].
      * rewrite lookup_insert_eq.
        rewrite filter_cons_True, filter_nil by done. simpl.
        assert (mi0 = Nat.iter k counted mi) as -> by congruence.
        destruct HInit as [->| ->].
        -- exists k. split; [lia|done].
        -- exists (S k). split; [lia|done].
      * rewrite lookup_insert_ne by done.
        rewrite filter_cons_False, filter_nil by done. simpl.
        exists k. split; [lia|done].
Qed.

(** [Cow(age(5), ...]: after the first member, [age] was counted once and
    [name] is as it was registered. *)
Lemma member_init_list_counts_witness :
  exists l inits s1 inits2 s2,
    CreateOrDie_begin Farm.CreateEmpty Farm.Animal (Some 0%nat)
      (Farm.fresh 0 Farm.twice) = OK (Some (l, inits), s1)
    /\ member_init Farm.ReadAndSet (type l) (env_ptr l) inits s1
       = OK (inits2, s2)
    /\ inits2 !! "name"
       = Some (mkMemberInitializer "name" 0 true TString (Some (0%nat, "name")))
    /\ exists k, (k <= 1)%nat
                 /\ inits2 !! "age"
                    = Some (Nat.iter k counted
                              (mkMemberInitializer "age" 0 false TInt
                                 (Some (0%nat, "age")))).
Proof.
  evar (l : Locals). evar (inits : gmap string MemberInitializer).
  evar (s1 : State). evar (inits2 : gmap string MemberInitializer).
  evar (s2 : State).
  assert (CreateOrDie_begin Farm.CreateEmpty Farm.Animal (Some 0%nat)
            (Farm.fresh 0 Farm.twice) = OK (Some (l, inits), s1)) as Hbegin.
  { subst l inits s1. vm_compute. reflexivity. }
  assert (member_init Farm.ReadAndSet (type l) (env_ptr l) inits s1
          = OK (inits2, s2)) as Hstep.
  { subst l inits s1 inits2 s2. vm_compute. reflexivity. }
  assert (Peek (st s1) = "age") as Hname by (subst s1; reflexivity).
  assert (loop_reaches Farm.ReadAndSet (type l) (env_ptr l) inits s1
            ([] ++ [Peek (st s1)]) inits2 s2) as Hreach.
  { refine (reaches_next Farm.ReadAndSet (type l) (env_ptr l) inits s1
                          [] inits s1 inits2 s2
                          (reaches_start _ _ _ _ _) _ Hstep).
    rewrite Hname. discriminate. }
  rewrite Hname in Hreach.
  destruct (member_init_list_counts Farm.ReadAndSet (type l) (env_ptr l)
              inits s1 _ inits2 s2 Hreach) as [_ Hcounts].
  exists l, inits, s1, inits2, s2.
  split; [exact Hbegin|]. split; [exact Hstep|]. split.
  - destruct (Hcounts "name"
                (mkMemberInitializer "name" 0 true TString
                   (Some (0%nat, "name")))) as (k & Hk & Hk').
    { subst inits. vm_compute. reflexivity. }
    assert (k = 0%nat) as -> by (vm_compute in Hk; lia). exact Hk'.
  - destruct (Hcounts "age"
                (mkMemberInitializer "age" 0 false TInt
                   (Some (0%nat, "age")))) as (k & Hk & Hk').
    { subst inits. vm_compute. reflexivity. }
    exists k. split; [vm_compute in Hk; exact Hk|exact Hk'].
Defined.

(** While the loop runs, the object under construction is changed only in
    the members that the initializers of the names read point to. *)
Lemma loop_reaches_members R s0 l inits s1 names inits2 s2 o1 :
  ReadAndSet_frame R ->
  loop_inv s0 l inits s1 ->
  objects s1 !! instance l = Some o1 ->
  loop_reaches R (type l) (env_ptr l) inits s1 names inits2 s2 ->
  loop_inv s0 l inits2 s2
  /\ (forall n mi2, inits2 !! n = Some mi2 ->
        exists mi, inits !! n = Some mi /\ member_ mi2 = member_ mi)
  /\ exists o2,
       objects s2 !! instance l = Some o2
       /\ concrete o2 = concrete o1
       /\ forall fld,
            (forall n mi, inits !! n = Some mi -> n ∈ names ->
                          member_ mi <> Some (instance l, fld)) ->
            members o2 !! fld = members o1 !! fld.
Proof.
  intros HR Hinv Ho1 H.
  induction H as [|names inits1 s1' inits2 s2 H IH Hne Hstep].
  - split; [done|]. split; [eauto|]. by exists o1.
  - destruct IH as (Hinv1 & Hmem & o & Ho & Hconc & Hflds).
    pose proof (loop_inv_step _ _ _ _ _ _ _ HR Hinv1 Hstep) as Hinv2.
    apply member_init_inv in Hstep
      as (mi0 & mi0' & s3 & _ & Hmi0 & HInit & -> & _ & _ & Hobj & _).
    apply Init_inv in HInit
      as (u & s4 & HRS & _ & _ & _ & Hmember & _ & _ & _ & Hassign).
    apply HR in HRS as [_ _ _ Hwo _]. simpl in Hwo.
    pose proof (Hwo _ _ Ho) as Ho4.
    destruct (Hmem _ _ Hmi0) as (mi_orig & Hmi_orig & Hsame).
    split; [done|]. split.
    { intros n mi2 Hn. destruct (decide (n = Peek (st s1'))) as [->|Hneq].
      - rewrite lookup_insert_eq in Hn. injection Hn as <-.
        exists mi_orig. split; [done|congruence].
      - rewrite lookup_insert_ne in Hn by done. eauto. }
    rewrite Hobj.
    destruct Hassign as [-> |(m & o' & v & Hm & Ho' & ->)].
    + exists o. split; [done|]. split; [done|].
      intros fld Hfld. apply Hflds. intros n mi Hn Hin.
      apply (Hfld n mi Hn). apply elem_of_app. by left.
    + pose proof (li_members _ _ _ _ Hinv1 _ _ _ Hmi0 Hm) as Hinst.
      rewrite Hinst in *. assert (o' = o) as -> by congruence.
      eexists. split.
      { apply list_lookup_insert_eq. by apply lookup_lt_Some in Ho4. }
      simpl. split; [done|].
      intros fld Hfld.
      assert (fld <> m.2) as Hneq.
      { intros ->. apply (Hfld _ _ Hmi_orig).
        - apply elem_of_app. right. by apply list_elem_of_singleton.
        - rewrite <- Hsame, Hm. destruct m as [m1 m2]. simpl in *.
          by subst m1. }
      rewrite lookup_insert_ne by done.
      apply Hflds. intros n mi Hn Hin.
      apply (Hfld n mi Hn). apply elem_of_app. by left.
Qed.

(** X13: [CreateOrDie] assigns only members that a named argument stands
    for.  While the loop over the argument list runs, the object is of the
    class registered under the type name that was read, and every data
    member that no initializer of a name read so far points to has the
    value [NewInstance] gave it, whatever [ReadAndSet] does within its
    contract.  When the loop has ended, it is on this object, in the store
    the loop left, that [PostInit] is called, and [CreateOrDie] returns
    the object when [PostInit] returns. *)
Theorem CreateOrDie_assigns_named_members_only R CE f env s l inits s1 names
    inits2 s2 table cons_it :
  ReadAndSet_frame R -> (env = None -> CreateEmpty_new CE) ->
  CreateOrDie_begin CE f env s = OK (Some (l, inits), s1) ->
  loop_reaches R (type l) (env_ptr l) inits s1 names inits2 s2 ->
  cons_table_ f = Some table -> table !! type l = Some cons_it ->
  exists o2,
    objects s2 !! instance l = Some o2
    /\ concrete o2 = cons_type cons_it
    /\ post_init_calls o2 = []
    /\ (forall fld,
          (forall a, a ∈ RegisterInitializers cons_it ->
                     add_name a ∈ names -> add_member a <> Some fld) ->
          members o2 !! fld = cons_members cons_it !! fld)
    /\ (Peek (st s2) = ")" ->
        forall r s',
          CreateOrDie R CE f env s = OK (r, s') ->
          r = Some (instance l)
          /\ exists init_str,
               PostInit (instance l) (env_ptr l) init_str
                        (with_st s2 (advance (st s2))) = OK (tt, s')).
Proof.
  intros HR HCE Hbegin Hreach Htable Hcons.
  pose proof (CreateOrDie_begin_loop_inv _ _ _ _ _ _ _ HCE Hbegin) as Hinv.
  pose proof Hbegin as Hb.
  apply CreateOrDie_begin_inv in Hb
    as (p & s_env & Henv & _ & _ & _ & _ & Hinst & table0 & cons_it0 & Htable0
        & Hcons0 & Hreg & Hs1).
  assert (table0 = table) as -> by congruence.
  assert (cons_it0 = cons_it) as -> by congruence.
  assert (objects s1 !! instance l = Some (NewInstance cons_it)) as Ho1.
  { subst s1. simpl. by rewrite Hinst, lookup_app_r, Nat.sub_diag by lia. }
  destruct (loop_reaches_members _ _ _ _ _ _ _ _ _ HR Hinv Ho1 Hreach)
    as (Hinv2 & _ & o2 & Ho2 & Hconc & Hflds).
  apply run_RegisterInitializers_OK_inv in Hreg as (_ & _ & Hin & Hnot).
  exists o2. split_and!; try done.
  - destruct (li_instance _ _ _ _ Hinv2) as (o & Ho & Hcalls). congruence.
  - intros fld Hfld. rewrite Hflds; [done|].
    intros n mi Hn Hnames Hmember.
    destruct (decide (n ∈ add_name <$> RegisterInitializers cons_it))
      as [Hmem|Hmem].
    + apply list_elem_of_fmap in Hmem as (a & -> & Ha).
      rewrite (Hin a Ha) in Hn. injection Hn as <-.
      apply (Hfld a Ha Hnames). simpl in Hmember.
      destruct (add_member a); [|done]. by injection Hmember as ->.
    + by rewrite (Hnot n Hmem), lookup_empty in Hn.
  - intros Hclose r s' H.
    destruct (loop_reaches_progress _ _ _ _ _ _ _ _ HR Hinv Hreach)
      as (_ & _ & Hidx & Hlen & Htok).
    assert (member_init_list R (S (unread (st s1))) (type l) (env_ptr l)
              inits s1 = OK (inits2, s2)) as Hloop.
    { assert (exists fuel, S (unread (st s1)) = (length names + S fuel)%nat)
        as [fuel ->].
      { exists (unread (st s1) - length names)%nat. unfold unread.
        destruct names as [|n names]; [simpl; lia|].
        specialize (Hlen ltac:(done)). rewrite Htok in Hlen. lia. }
      rewrite (loop_reaches_unroll _ _ _ _ _ _ _ _ _ Hreach). simpl.
      erewrite (bind_eq st_Peek) by reflexivity.
      by rewrite bool_decide_true. }
    rewrite (CreateOrDie_eq R CE f env s l inits s1 inits2 s2 Hbegin Hloop)
      in H.
    apply CreateOrDie_end_inv in H
      as (_ & -> & _ & o3 & init_str & Ho3 & _ & ->).
    split; [done|]. exists init_str.
    unfold PostInit. cbn [objects with_st]. by rewrite Ho3.
Qed.

(** [Cow(name("Bessie"))]: when the loop has read [name], the member
    [age] is as [new Cow()] left it. *)
Lemma CreateOrDie_assigns_named_members_only_witness :
  exists l inits s1 inits2 s2 o2,
    CreateOrDie_begin Farm.CreateEmpty Farm.Animal (Some 0%nat)
      (Farm.fresh 0 ("Cow(name(" ++ Farm.quoted "Bessie" ++ "))"))
    = OK (Some (l, inits), s1)
    /\ member_init Farm.ReadAndSet (type l) (env_ptr l) inits s1
       = OK (inits2, s2)
    /\ objects s2 !! instance l = Some o2
    /\ concrete o2 = "Cow"
    /\ members o2 !! "age" = Some (VInt 0).
Proof.
  evar (l : Locals). evar (inits : gmap string MemberInitializer).
  evar (s1 : State). evar (inits2 : gmap string MemberInitializer).
  evar (s2 : State).
  assert (CreateOrDie_begin Farm.CreateEmpty Farm.Animal (Some 0%nat)
            (Farm.fresh 0 ("Cow(name(" ++ Farm.quoted "Bessie" ++ "))"))
          = OK (Some (l, inits), s1)) as Hbegin.
  { subst l inits s1. vm_compute. reflexivity. }
  assert (member_init Farm.ReadAndSet (type l) (env_ptr l) inits s1
          = OK (inits2, s2)) as Hstep.
  { subst l inits s1 inits2 s2. vm_compute. reflexivity. }
  assert (Peek (st s1) = "name") as Hname by (subst s1; reflexivity).
  assert (loop_reaches Farm.ReadAndSet (type l) (env_ptr l) inits s1
            ([] ++ [Peek (st s1)]) inits2 s2) as Hreach.
  { refine (reaches_next Farm.ReadAndSet (type l) (env_ptr l) inits s1
                          [] inits s1 inits2 s2
                          (reaches_start _ _ _ _ _) _ Hstep).
    rewrite Hname. discriminate. }
  rewrite Hname in Hreach.
  assert ((<["Sheep" := Farm.Sheep]> (<["Cow" := Farm.Cow]> ∅) : gmap _ _)
            !! type l = Some Farm.Cow) as Hcons
    by (subst l; vm_compute; reflexivity).
  destruct (CreateOrDie_assigns_named_members_only Farm.ReadAndSet
              Farm.CreateEmpty Farm.Animal (Some 0%nat) _ l inits s1 _ inits2
              s2 _ Farm.Cow Farm_ReadAndSet_frame
              (called_with_environment _ _) Hbegin Hreach eq_refl Hcons)
    as (o2 & Ho2 & Hconc & _ & Hflds & _).
  exists l, inits, s1, inits2, s2, o2.
  split; [exact Hbegin|]. split; [exact Hstep|]. split; [exact Ho2|].
  split; [exact Hconc|].
  rewrite (Hflds "age"); [reflexivity|].
  intros a Ha Hin. apply list_elem_of_singleton in Hin.
  apply elem_of_cons in Ha as [->|Ha]; [intros [=]|].
  apply list_elem_of_singleton in Ha. subst a. discriminate Hin.
Defined.

(** *** Registering a name twice *)

Lemma loop_reaches_cons R type env_ptr inits s inits1 s1 names inits' s' :
  Peek (st s) <> ")" ->
  member_init R type env_ptr inits s = OK (inits1, s1) ->
  loop_reaches R type env_ptr inits1 s1 names inits' s' ->
  loop_reaches R type env_ptr inits s (Peek (st s) :: names) inits' s'.
Proof.
  intros Hne Hstep H.
  induction H as [|names inits2 s2 inits3 s3 H IH Hne2 Hstep2].
  - exact (reaches_next R type env_ptr inits s [] inits s inits1 s1
             (reaches_start _ _ _ _ _) Hne Hstep).
  - exact (reaches_next R type env_ptr inits s (Peek (st s) :: names)
             inits2 s2 inits3 s3 IH Hne2 Hstep2).
Qed.

(** A loop that has ended has read a list of member names and stands in
    front of a closing parenthesis. *)
Lemma member_init_list_reaches R fuel type env_ptr inits s inits' s' :
  member_init_list R fuel type env_ptr inits s = OK (inits', s') ->
  exists names,
    loop_reaches R type env_ptr inits s names inits' s'
    /\ Peek (st s') = ")".
Proof.
  revert inits s. induction fuel as [|fuel IH]; intros inits s H.
  - simpl in H. inv_bind H. injection Ha as <- <-.
    case_bool_decide; [|done]. injection H as <- <-.
    exists []. split; [constructor|done].
  - simpl in H. inv_bind H. injection Ha as <- <-.
    case_bool_decide as Hp.
    + injection H as <- <-. exists []. split; [constructor|done].
    + inv_bind H. apply IH in H as (names & Hreach & Hclose).
      exists (Peek (st s) :: names). split; [|done].
      by eapply loop_reaches_cons.
Qed.

(** C8: registering a constructor under a concrete-type name that the
    factory already has returns the constructor registered first, leaves
    the static data of the factory and of the factory container as they
    were, and deletes the new constructor.  A later [CreateOrDie] that
    reads this type name and an opening parenthesis calls [NewInstance]
    and [RegisterInitializers] of the constructor registered first; the
    pointer it returns is the pointer to that instance, which is an
    object of the class registered first when its [PostInit] is called. *)
Theorem Register_keeps_the_first f c name existing p table :
  f_initialized_ f <> 0 ->
  cons_table_ f = Some table ->
  table !! name = Some existing ->
  exists f',
    Register f c name p = OK (mkRegistered existing f' c (Some p))
    /\ f' = f
    /\ (forall CE env s l inits s1,
          CreateOrDie_begin CE f' env s = OK (Some (l, inits), s1) ->
          type l = name ->
          objects s1 !! instance l = Some (NewInstance existing))
    /\ (forall R CE env s q s_env,
          match env with None => CE | Some e => Copy e end s = OK (q, s_env) ->
          st s_env = st s ->
          PeekTokenType (st s) = IDENTIFIER ->
          Peek (st s) = name ->
          Peek (advance (st s)) = "(" ->
          NoDup (add_name <$> RegisterInitializers existing) ->
          exists l inits s1,
            CreateOrDie_begin CE f' env s = OK (Some (l, inits), s1)
            /\ type l = name
            /\ env_ptr l = q
            /\ instance l = length (objects s_env)
            /\ objects s1 = (objects s_env ++ [NewInstance existing])%list
            /\ objects s1 !! instance l = Some (NewInstance existing)
            /\ run_RegisterInitializers (instance l)
                 (RegisterInitializers existing) ∅ = OK inits
            /\ forall r s',
                 ReadAndSet_frame R -> (env = None -> CreateEmpty_new CE) ->
                 CreateOrDie R CE f' env s = OK (r, s') ->
                 r = Some (instance l)
                 /\ exists s2 o2 init_str,
                      objects s2 !! instance l = Some o2
                      /\ concrete o2 = cons_type existing
                      /\ PostInit (instance l) (env_ptr l) init_str s2
                         = OK (tt, s')).
Proof.
  intros Hinit Htable Htype. exists f. split_and!.
  - unfold Register. rewrite bool_decide_false by done.
    by rewrite Htable, Htype.
  - done.
  - intros CE env s l inits s1 H Hl.
    apply CreateOrDie_begin_inv in H
      as (q & s_env & _ & _ & _ & _ & _ & Hinst & table' & cons_it & Ht & Hc
          & _ & ->).
    simpl. rewrite Hinst, lookup_app_r, Nat.sub_diag by lia.
    simpl. congruence.
  - intros R CE env s q s_env Henv Hst Hid Hname Hopen Hnodup.
    destruct (run_RegisterInitializers_OK (length (objects s_env))
                (RegisterInitializers existing) ∅) as [inits Hinits];
      [intros; apply lookup_empty|done|].
    pose proof (CreateOrDie_begin_head CE f env s q s_env Henv Hst Hid Hopen)
      as Hbegin.
    rewrite Htable, Hname, Htype, Hinits in Hbegin.
    eexists _, inits, _. split; [exact Hbegin|].
    cbn [type env_ptr instance objects]. split_and!; try done.
    { by rewrite lookup_app_r, Nat.sub_diag by lia. }
    intros r s' HR HCE H.
    pose proof (CreateOrDie_begin_loop_inv _ _ _ _ _ _ _ HCE Hbegin) as Hinv.
    apply CreateOrDie_inv in H as (b & s1 & Hb & H).
    rewrite Hbegin in Hb. injection Hb as <- <-.
    destruct H as (inits' & s2 & Hloop & Hend).
    apply member_init_list_reaches in Hloop as (names & Hreach & _).
    destruct (loop_reaches_members R _ _ _ _ _ _ _ (NewInstance existing)
                HR Hinv ltac:(simpl; by rewrite lookup_app_r, Nat.sub_diag by lia)
                Hreach) as (_ & _ & o2 & Ho2 & Hconc & _).
    apply CreateOrDie_end_inv in Hend
      as (_ & -> & _ & o3 & init_str & Ho3 & _ & ->).
    assert (o3 = o2) as -> by congruence.
    split; [done|]. exists (with_st s2 (advance (st s2))), o2, init_str.
    split_and!; [done..|].
    unfold PostInit. cbn [objects with_st instance]. cbn [instance] in Ho3.
    by rewrite Ho3.
Qed.

(** [Ox] asks for the name of [Cow]; the factory then reads
    [Cow(name("Bessie"), age(5))] and makes a [Cow]. *)
Lemma Register_keeps_the_first_witness :
  exists f' s' s2 o2 init_str,
    Register Farm.Animal (mkFactoryContainer 1 ["Animal"]) "Cow" Farm.Ox
    = OK (mkRegistered Farm.Cow f' (mkFactoryContainer 1 ["Animal"])
                       (Some Farm.Ox))
    /\ f' = Farm.Animal
    /\ CreateOrDie Farm.ReadAndSet Farm.CreateEmpty f' (Some 0%nat)
         (Farm.fresh 0 Farm.bessie) = OK (Some 0%nat, s')
    /\ objects s2 !! 0%nat = Some o2
    /\ concrete o2 = "Cow"
    /\ PostInit 0%nat 1%nat init_str s2 = OK (tt, s').
Proof.
  destruct (Register_keeps_the_first Farm.Animal
              (mkFactoryContainer 1 ["Animal"]) "Cow" Farm.Cow Farm.Ox
              (<["Sheep" := Farm.Sheep]> (<["Cow" := Farm.Cow]> ∅)))
    as (f' & HRegister & Hf' & _ & Hcreate).
  { done. }
  { reflexivity. }
  { vm_compute. reflexivity. }
  evar (q : nat). evar (s_env : State). evar (s' : State).
  assert (Copy 0%nat (Farm.fresh 0 Farm.bessie) = OK (q, s_env)) as HCopy
    by (subst q s_env; vm_compute; reflexivity).
  assert (st s_env = st (Farm.fresh 0 Farm.bessie)) as Hst
    by (subst s_env; vm_compute; reflexivity).
  assert (PeekTokenType (st (Farm.fresh 0 Farm.bessie)) = IDENTIFIER) as Hid
    by (vm_compute; reflexivity).
  assert (Peek (st (Farm.fresh 0 Farm.bessie)) = "Cow") as Hname
    by (vm_compute; reflexivity).
  assert (Peek (advance (st (Farm.fresh 0 Farm.bessie))) = "(") as Hopen
    by (vm_compute; reflexivity).
  assert (NoDup (add_name <$> RegisterInitializers Farm.Cow)) as Hnodup.
  { apply NoDup_cons. split; [|apply NoDup_singleton].
    intros Hin. apply list_elem_of_singleton in Hin. discriminate Hin. }
  destruct (Hcreate Farm.ReadAndSet Farm.CreateEmpty (Some 0%nat)
              (Farm.fresh 0 Farm.bessie) q s_env HCopy Hst Hid Hname Hopen
              Hnodup)
    as (l & inits & s1 & _ & _ & Henv & Hinst & _ & _ & _ & Hcall).
  subst f'.
  assert (CreateOrDie Farm.ReadAndSet Farm.CreateEmpty Farm.Animal
            (Some 0%nat) (Farm.fresh 0 Farm.bessie) = OK (Some 0%nat, s'))
    as Hrun by (subst s'; vm_compute; reflexivity).
  destruct (Hcall _ _ Farm_ReadAndSet_frame (called_with_environment _ _) Hrun)
    as (Hr & s2 & o2 & init_str & Hobj & Hconc & HPostInit).
  injection Hr as Hr. rewrite <- Hr in Hobj, HPostInit.
  rewrite Henv in HPostInit. assert (q = 1%nat) as Hq by (subst q; reflexivity).
  rewrite Hq in HPostInit.
  exists Farm.Animal, s', s2, o2, init_str.
  split; [exact HRegister|]. split; [reflexivity|]. split; [exact Hrun|].
  split; [exact Hobj|]. split; [exact Hconc|exact HPostInit].
Defined.

(** ** Further properties of the environment *)

(** The per-type maps of a copy are in the store, when those of the
    original are. *)
Lemma Copy_env_ok this s p s1 e e' :
  Copy this s = OK (p, s1) ->
  envs s !! this = Some e -> envs s1 !! p = Some e' -> env_ok s e ->
  p <> this
  /\ envs s1 !! this = Some e
  /\ types_ e' = types_ e /\ debug_ e' = debug_ e
  /\ (forall tag, var_map_ e !! tag = None -> var_map_ e' !! tag = None)
  /\ (forall tag q, var_map_ e !! tag = Some q ->
        exists m q', varmaps s !! q = Some m /\ varmaps s1 !! q = Some m
                     /\ (q < length (varmaps s))%nat
                     /\ var_map_ e' !! tag = Some q'
                     /\ (length (varmaps s) <= q')%nat
                     /\ varmaps s1 !! q' = Some (VarMap_Copy m p)).
Proof.
  intros HCopy He He' Hok.
  apply Copy_spec in HCopy
    as (-> & _ & _ & Hue & Huv & e0 & e0' & He0 & He0' & Hty & _ & Hdbg
        & Hdom & Hnew & Hmaps).
  assert (e0 = e) as -> by congruence. assert (e0' = e') as -> by congruence.
  split_and!; try done.
  - apply lookup_lt_Some in He. lia.
  - by apply Hue.
  - intros tag Hnone. apply not_elem_of_dom. rewrite Hdom.
    by apply not_elem_of_dom.
  - intros tag q Hq. destruct (Hok tag q Hq) as [m Hm].
    destruct (Hmaps tag q m Hq Hm) as (q' & Hq' & Hcopy).
    exists m, q'. split_and!; eauto.
    by apply lookup_lt_Some in Hm.
Qed.

(** X14: a typed read from the copy of an environment gives what the same
    read from the original gives: the same lines on [cerr], the same flag
    and the same value, or the same error, for every slot type and every
    name.  The original reads the same in the store [Copy] leaves as in the
    store it was called in. *)
Theorem Get_of_a_copy this s p s1 e e' :
  Copy this s = OK (p, s1) ->
  envs s !! this = Some e -> envs s1 !! p = Some e' -> env_ok s e ->
  forall T varname,
    Get s1 e' T varname = Get s e T varname
    /\ Get s1 e T varname = Get s e T varname.
Proof.
  intros HCopy He He' Hok T varname.
  destruct (Copy_env_ok this s p s1 e e' HCopy He He' Hok)
    as (_ & _ & Hty & Hdbg & Hnone & Hsome).
  unfold Get. rewrite Hty, Hdbg.
  destruct (types_ e !! varname) as [type|]; [|done].
  destruct (var_map_ e !! type) as [q|] eqn:Hq.
  - destruct (Hsome type q Hq) as (m & q' & Hm & Hm1 & _ & -> & _ & ->).
    by rewrite Hm, Hm1.
  - by rewrite (Hnone type Hq).
Qed.

Lemma env_ok_decide s e :
  bool_decide (map_Forall (fun _ p => is_Some (varmaps s !! p)) (var_map_ e))
  = true ->
  env_ok s e.
Proof. intros H tag p Hp. by apply bool_decide_eq_true in H; apply (H tag p). Qed.

(** The copy of the environment in which [x = 3;] was read. *)
Lemma Get_of_a_copy_witness :
  exists s1 e',
    Copy 0%nat (Farm.with_x 0) = OK (1%nat, s1)
    /\ envs s1 !! 1%nat = Some e'
    /\ Get s1 e' TInt "x" = ([], OK (true, Some (VInt 3)))
    /\ Get s1 e' TString "x"
       = ([NoValueOfType "x" TString "int"], OK (false, None)).
Proof.
  evar (s1 : State). evar (e : EnvironmentImpl). evar (e' : EnvironmentImpl).
  assert (Copy 0%nat (Farm.with_x 0) = OK (1%nat, s1)) as HCopy
    by (subst s1; vm_compute; reflexivity).
  assert (envs (Farm.with_x 0) !! 0%nat = Some e) as He
    by (subst e; vm_compute; reflexivity).
  assert (envs s1 !! 1%nat = Some e') as He'
    by (subst s1 e'; vm_compute; reflexivity).
  assert (env_ok (Farm.with_x 0) e) as Hok
    by (apply env_ok_decide; subst e; vm_compute; reflexivity).
  exists s1, e'. split; [exact HCopy|]. split; [exact He'|].
  split.
  - rewrite (proj1 (Get_of_a_copy 0%nat (Farm.with_x 0) 1%nat s1 e e'
                      HCopy He He' Hok TInt "x")).
    subst e. vm_compute. reflexivity.
  - rewrite (proj1 (Get_of_a_copy 0%nat (Farm.with_x 0) 1%nat s1 e e'
                      HCopy He He' Hok TString "x")).
    subst e. vm_compute. reflexivity.
Defined.

(** X15: a copy does not follow its original.  When the original
    environment reads a variable after it was copied, by a [ReadAndSet]
    that keeps to its own environment, the copy is the same object as
    before, every variable of the copy has the value it had, and every
    typed read from the copy gives what it gave. *)
Theorem Copy_is_independent_of_the_original R this s p s1 e e' x ty u s2 :
  ReadAndSet_frame R ->
  Copy this s = OK (p, s1) ->
  envs s !! this = Some e -> envs s1 !! p = Some e' -> env_ok s e ->
  R this x ty s1 = OK (u, s2) ->
  envs s2 !! p = Some e'
  /\ (forall tag y, var_value s2 e' tag y = var_value s1 e' tag y)
  /\ (forall T y, Get s2 e' T y = Get s1 e' T y).
Proof.
  intros HR HCopy He He' Hok Hread.
  destruct (Copy_env_ok this s p s1 e e' HCopy He He' Hok)
    as (Hne & He1 & _ & _ & Hnone & Hsome).
  destruct (HR _ _ _ _ _ _ Hread) as [Hwe _ Hwv _ _].
  assert (forall tag q', var_map_ e' !! tag = Some q' ->
            exists m, varmaps s1 !! q' = Some m /\ varmaps s2 !! q' = Some m)
    as Hkept.
  { intros tag q' Hq'.
    destruct (var_map_ e !! tag) as [q|] eqn:Hq;
      [|by rewrite (Hnone tag Hq) in Hq'].
    destruct (Hsome tag q Hq) as (m & q0 & _ & _ & _ & Hq0 & Hfresh & Hm).
    assert (q0 = q') as -> by congruence.
    eexists. split; [done|]. apply Hwv; [|done].
    intros (e1 & tag1 & He1' & Hown). assert (e1 = e) as -> by congruence.
    destruct (Hsome tag1 q' Hown) as (_ & _ & _ & _ & Hold & _). lia. }
  split_and!.
  - by apply Hwe.
  - intros tag y. unfold var_value.
    destruct (var_map_ e' !! tag) as [q'|] eqn:Hq'; [|done]. simpl.
    destruct (Hkept tag q' Hq') as (m & -> & ->). done.
  - intros T y. unfold Get.
    destruct (types_ e' !! y) as [type|]; [|done].
    destruct (var_map_ e' !! type) as [q'|] eqn:Hq'; [|done].
    destruct (Hkept type q' Hq') as (m & -> & ->). done.
Qed.

(** The environment in which [x = 3;] was read is copied, and then reads
    [y = 4;]: the copy has [x] and has no [y]. *)
Lemma Copy_is_independent_of_the_original_witness :
  exists s s1 s2 e',
    Copy 0%nat s = OK (1%nat, s1)
    /\ Farm.ReadAndSet 0%nat "y" EmptyString s1 = OK (tt, s2)
    /\ envs s2 !! 1%nat = Some e'
    /\ Get s2 e' TInt "x" = ([], OK (true, Some (VInt 3)))
    /\ Get s2 e' TInt "y" = ([], OK (false, None))
    /\ exists e2, envs s2 !! 0%nat = Some e2
                  /\ Get s2 e2 TInt "y" = ([], OK (true, Some (VInt 4))).
Proof.
  evar (s : State). evar (s1 : State). evar (s2 : State).
  evar (e : EnvironmentImpl). evar (e' : EnvironmentImpl).
  assert (Farm.ReadAndSet 0%nat "x" EmptyString (Farm.fresh 0 "3 4")
          = OK (tt, s)) as Hx by (subst s; vm_compute; reflexivity).
  assert (Copy 0%nat s = OK (1%nat, s1)) as HCopy
    by (subst s s1; vm_compute; reflexivity).
  assert (Farm.ReadAndSet 0%nat "y" EmptyString s1 = OK (tt, s2)) as Hy
    by (subst s1 s2; vm_compute; reflexivity).
  assert (envs s !! 0%nat = Some e) as He
    by (subst s e; vm_compute; reflexivity).
  assert (envs s1 !! 1%nat = Some e') as He'
    by (subst s1 e'; vm_compute; reflexivity).
  assert (env_ok s e) as Hok
    by (apply env_ok_decide; subst s e; vm_compute; reflexivity).
  destruct (Copy_is_independent_of_the_original Farm.ReadAndSet 0%nat s 1%nat
              s1 e e' "y" EmptyString tt s2 Farm_ReadAndSet_frame HCopy He He'
              Hok Hy) as (He2 & _ & HGet).
  exists s, s1, s2, e'.
  split; [exact HCopy|]. split; [exact Hy|]. split; [exact He2|].
  split; [rewrite (HGet TInt "x"); subst s1 e'; vm_compute; reflexivity|].
  split; [rewrite (HGet TInt "y"); subst s1 e'; vm_compute; reflexivity|].
  eexists. split; subst s2; vm_compute; reflexivity.
Defined.

(** The loop of [Copy] makes one new map for every entry, in the order of
    the entries. *)
Lemma copy_var_maps_alloc n entries table s table' s' :
  copy_var_maps n entries table s = OK (table', s') ->
  length (varmaps s') = (length (varmaps s) + length entries)%nat
  /\ (NoDup entries.*1 ->
      forall i k p, entries !! i = Some (k, p) ->
        table' !! k = Some (length (varmaps s) + i)%nat).
Proof.
  revert table s. induction entries as [|[k0 p0] rest IH]; intros table s H.
  - simpl in H. injection H as <- <-. simpl. split; [lia|]. intros _ i k p Hi.
    by rewrite lookup_nil in Hi.
  - pose proof H as Hspec. apply copy_var_maps_spec in Hspec
      as (_ & _ & _ & _ & _ & Hin).
    simpl in H. inv_bind H. inv_bind H.
    unfold deref_varmap in Ha.
    destruct (varmaps s !! p0) as [m0|] eqn:Hm0; [|done].
    injection Ha as <- <-. unfold new_varmap in Ha0. injection Ha0 as <- <-.
    pose proof H as Hrest. apply copy_var_maps_spec in Hrest
      as (_ & _ & _ & _ & Hout & _).
    apply IH in H as [Hlen Hidx]. simpl in *.
    rewrite length_app in Hlen. simpl in Hlen. split; [lia|].
    intros Hnd i k p Hi. apply NoDup_cons in Hnd as [Hk0 Hnd].
    destruct i as [|i]; simpl in Hi.
    + injection Hi as <- <-. rewrite Hout by done.
      rewrite lookup_insert_eq. f_equal. lia.
    + rewrite (Hidx Hnd i k p Hi). rewrite length_app. simpl. f_equal. lia.
Qed.

(** X16: what [Copy] allocates.  It adds one environment, the one it
    returns, and one per-type map for each entry of the table of the
    original, and nothing else: the objects and the stream are as they
    were.  Every entry of the table of the copy points to one of the new
    maps, and no two entries point to the same map. *)
Theorem Copy_allocates this s p s1 e' :
  Copy this s = OK (p, s1) ->
  envs s1 !! p = Some e' ->
  exists e,
    envs s !! this = Some e
    /\ p = length (envs s)
    /\ length (envs s1) = S (length (envs s))
    /\ length (varmaps s1) = (length (varmaps s) + size (var_map_ e))%nat
    /\ size (var_map_ e') = size (var_map_ e)
    /\ objects s1 = objects s /\ st s1 = st s
    /\ (forall tag q, var_map_ e' !! tag = Some q ->
          (length (varmaps s) <= q < length (varmaps s1))%nat)
    /\ (forall tag1 tag2 q,
          var_map_ e' !! tag1 = Some q -> var_map_ e' !! tag2 = Some q ->
          tag1 = tag2).
Proof.
  intros HCopy He'. pose proof HCopy as Hspec.
  apply Copy_spec in Hspec
    as (-> & Ho & Hst & _ & _ & e & e0' & He & He0' & _ & _ & _ & Hdom & _ & _).
  assert (e0' = e') as -> by congruence.
  exists e. unfold Copy in HCopy.
  inv_bind HCopy. inv_bind HCopy. inv_bind HCopy. inv_bind HCopy.
  injection HCopy as _ <-.
  unfold deref_env in HCopya. rewrite He in HCopya. injection HCopya as <- <-.
  unfold new_env in HCopya0. injection HCopya0 as <- <-.
  pose proof HCopya1 as Hsp. apply copy_var_maps_spec in Hsp as (Henvs & _).
  apply copy_var_maps_alloc in HCopya1 as [Hlen Hidx].
  specialize (Hidx (NoDup_fst_map_to_list _)).
  unfold store_env in HCopya2. injection HCopya2 as _ <-. simpl in *.
  rewrite length_map_to_list in Hlen.
  assert (forall tag q, var_map_ e' !! tag = Some q ->
            exists i p0, map_to_list (var_map_ e) !! i = Some (tag, p0)
                         /\ q = (length (varmaps s) + i)%nat) as Hwhich.
  { intros tag q Hq.
    assert (tag ∈ dom (var_map_ e)) as Htag
      by (rewrite <- Hdom; apply elem_of_dom; eauto).
    apply elem_of_dom in Htag as [p0 Hp0].
    apply elem_of_map_to_list, list_elem_of_lookup in Hp0 as [i Hi].
    exists i, p0. split; [done|].
    pose proof (Hidx i tag p0 Hi) as Hq'.
    rewrite Henvs in He'. simpl in He'.
    rewrite list_lookup_insert_eq in He'
      by (rewrite length_app; simpl; lia).
    injection He' as <-. simpl in Hq. congruence. }
  split_and!; try done.
  - rewrite length_insert, Henvs, length_app. simpl. lia.
  - by rewrite <- !size_dom, Hdom.
  - intros tag q Hq. destruct (Hwhich tag q Hq) as (i & p0 & Hi & ->).
    apply lookup_lt_Some in Hi. rewrite length_map_to_list in Hi. lia.
  - intros tag1 tag2 q H1 H2.
    destruct (Hwhich tag1 q H1) as (i1 & p1 & Hi1 & Hq1).
    destruct (Hwhich tag2 q H2) as (i2 & p2 & Hi2 & Hq2).
    assert (i1 = i2) as -> by lia. congruence.
Qed.

(** The copy of the environment of a new interpreter: ten maps, for the
    four primitive types, [Animal], and the vectors of each. *)
Lemma Copy_allocates_witness :
  exists s1,
    Copy 0%nat (Farm.fresh 0 EmptyString) = OK (1%nat, s1)
    /\ length (envs s1) = 2%nat /\ length (varmaps s1) = 20%nat.
Proof.
  evar (s1 : State). evar (e' : EnvironmentImpl).
  assert (Copy 0%nat (Farm.fresh 0 EmptyString) = OK (1%nat, s1)) as HCopy
    by (subst s1; vm_compute; reflexivity).
  assert (envs s1 !! 1%nat = Some e') as He'
    by (subst s1 e'; vm_compute; reflexivity).
  destruct (Copy_allocates 0%nat (Farm.fresh 0 EmptyString) 1%nat s1 e'
              HCopy He') as (e & He & _ & Hlen & Hmaps & _).
  exists s1. split; [exact HCopy|]. split; [exact Hlen|].
  vm_compute in He. injection He as <-. exact Hmaps.
Defined.
